(** * Chord and melody analyzer: the 21-mode matching engine of [ai-gen_v2.py]

    A shallow embedding of the analyzer script: pitch-class helpers, the chord
    symbol parser, the required-tone deriver, the scored ranking over the mode
    catalog, the melody function classifier, the orchestrating
    [analyze_chord_and_melody] and the parser of the command line.  The
    first version of the analyzer, [ai-gen.py], is embedded in the module
    [V1].

    Conventions of the embedding.
    - A Python [int] is a [Z]; [%] with the positive modulus 12 is [Z.modulo].
    - A Python [str] is the list of its Unicode code points ([PyStr.pystr]).
    - A Python [float] is an IEEE 754 double.  It is kept as the rational
      number it stands for ([Q]); every arithmetic operation is the exact
      operation followed by the rounding [Float.rnd] to the nearest double,
      ties to even, with the 53 binary digits and the smallest exponent
      -1074 of the format.  The rounding is defined by arithmetic on the
      rational and agrees with the Standard Library's [SpecFloat] at
      precision 53.  Infinities and NaN are not represented: a double
      overflows at 2^1024, and no value of the script comes near it (a
      melody score is at most the number of notes).
    - Python's case mapping of the characters beyond ASCII comes from the
      Unicode database, not from the script: it is the parameter
      [PyStr.UnicodeCase], and every property holds for all such tables.
    - An exception is the [Raise] case of [result].
    - A Python [set] of integers is kept as the duplicate-free list of its
      elements, from which its membership test and its size are read.  The
      order in which a [for] runs through a set is the interpreter's, not
      the script's: it is the parameter [SetOrder], and every property
      holds for all such orders. *)

From Stdlib Require Import ZArith NArith QArith Bool List String Ascii Lia.
From Stdlib Require Import Permutation Sorted Lqa DecimalString.
From Stdlib Require Import Qpower Qround Qreduction SpecFloat.
Import ListNotations.
Local Open Scope Z_scope.

(* ================================================================== *)
(** ** Python strings *)
(* ================================================================== *)

Module PyStr.

(** One Unicode code point. *)
Definition codepoint := N.
Definition pystr := list codepoint.

(** An ASCII literal of the script. *)
Definition py (s : string) : pystr :=
    map N_of_ascii (list_ascii_of_string s).

(** The three non-ASCII characters the script mentions. *)
Definition FLAT  : codepoint := 9837%N.   (* U+266D *)
Definition SHARP : codepoint := 9839%N.   (* U+266F *)
Definition DELTA : codepoint := 8710%N.   (* U+2206 *)

Fixpoint str_eqb (a b : pystr) : bool :=
    match a, b with
    | [], [] => true
    | x :: a', y :: b' => N.eqb x y && str_eqb a' b'
    | _, _ => false
    end.

(** [str.isspace] of one character: the code points CPython treats as
      whitespace, which are the ones [str.strip()] removes. *)
Definition isspace (c : codepoint) : bool :=
    let within lo hi := (N.leb lo c && N.leb c hi)%bool in
    (within 9 13 || within 28 32 || N.eqb c 133 || N.eqb c 160
     || N.eqb c 5760 || within 8192 8202 || N.eqb c 8232 || N.eqb c 8233
     || N.eqb c 8239 || N.eqb c 8287 || N.eqb c 12288)%N%bool.

Fixpoint lstrip (s : pystr) : pystr :=
    match s with
    | [] => []
    | c :: s' => if isspace c then lstrip s' else s
    end.

Definition rstrip (s : pystr) : pystr := rev (lstrip (rev s)).

(** [s.strip()] *)
Definition strip (s : pystr) : pystr := rstrip (lstrip s).

(** [s.replace(old, new)] for one-character [old] and [new]. *)
Definition replace1 (old new : codepoint) (s : pystr) : pystr :=
    map (fun c => if N.eqb c old then new else c) s.

(** [s.startswith(p)] *)
Fixpoint startswith (p s : pystr) : bool :=
    match p, s with
    | [], _ => true
    | x :: p', y :: s' => N.eqb x y && startswith p' s'
    | _ :: _, [] => false
    end.

(** [p in s] *)
Fixpoint contains (p s : pystr) : bool :=
    startswith p s
    || match s with
       | [] => false
       | _ :: s' => contains p s'
       end.

(** [name in names] for a list or a set of strings. *)
Definition str_mem (x : pystr) (xs : list pystr) : bool :=
    existsb (str_eqb x) xs.

(** Case mapping.  On ASCII it is the usual one.  Beyond ASCII Python
      follows the Unicode character database, which is no part of the
      script: it is a parameter of the development.  The lower-case form
      of a character may depend on where it stands in the string, so that
      table is given the string and the position. *)
Class UnicodeCase := {
    lower_nonascii : pystr -> nat -> pystr;
    upper_nonascii : codepoint -> pystr
  }.

Definition ascii_lower (c : codepoint) : codepoint :=
    if (N.leb 65 c && N.leb c 90)%bool then (c + 32)%N else c.

Definition ascii_upper (c : codepoint) : codepoint :=
    if (N.leb 97 c && N.leb c 122)%bool then (c - 32)%N else c.

Section Case.
Context {U : UnicodeCase}.

Fixpoint lower_from (whole : pystr) (i : nat) (s : pystr) : pystr :=
      match s with
      | [] => []
      | c :: s' =>
          (if N.ltb c 128 then [ascii_lower c] else lower_nonascii whole i)
          ++ lower_from whole (S i) s'
      end.

(** [s.lower()] *)
Definition lower (s : pystr) : pystr := lower_from s 0 s.

(** [c.upper()] for a one-character string. *)
Definition upper_char (c : codepoint) : pystr :=
      if N.ltb c 128 then [ascii_upper c] else upper_nonascii c.
End Case.

(** The table that leaves every character beyond ASCII as it is: enough to
      run the analyzer on ASCII input, where the tables are never consulted. *)
#[export] Instance ascii_only : UnicodeCase := {
    lower_nonascii := fun s i => match nth_error s i with Some c => [c] | None => [] end;
    upper_nonascii := fun c => [c]
  }.

End PyStr.
Import PyStr.
Arguments py s%_string.

(* ================================================================== *)
(** ** Python floats *)
(* ================================================================== *)

Module Float.

(** [2 ** z] *)
Definition pow2 (z : Z) : Q := (2 ^ z)%Q.

(** The exponent [e] with [2^e <= q < 2^(e+1)], for a positive [q]. *)
Definition ilog2 (q : Q) : Z :=
  let d := Z.log2 (Qnum q) - Z.log2 (Zpos (Qden q)) in
  if Qle_bool (pow2 d) q then d else d - 1.

(** The integer nearest to [q]; of two equally near, the even one. *)
Definition round_half_even (q : Q) : Z :=
  let f := Qfloor q in
  match Qcompare (q - inject_Z f) (1 # 2) with
  | Lt => f
  | Gt => f + 1
  | Eq => if Z.even f then f else f + 1
  end.

(** The exponent of the last binary digit a double near [q] has: 52 places
    below the first digit of [q], and never below -1074. *)
Definition ulp_exp (q : Q) : Z := Z.max (ilog2 q - 52) (-1074).

(** The double nearest to a positive [q]. *)
Definition rnd_pos (q : Q) : Q :=
  let x := ulp_exp q in
  (inject_Z (round_half_even (q / pow2 x)) * pow2 x)%Q.

(** The double nearest to [q], as a fraction in lowest terms. *)
Definition rnd (q : Q) : Q :=
  let q := Qred q in
  Qred (match Qnum q with
        | Z0 => 0
        | Zpos _ => rnd_pos q
        | Zneg _ => - rnd_pos (- q)
        end)%Q.

(** [x + y], [x - y], [x * y] on floats. *)
Definition fadd (x y : Q) : Q := rnd (x + y).
Definition fsub (x y : Q) : Q := rnd (x - y).
Definition fmul (x y : Q) : Q := rnd (x * y).

(** [-x]: exact. *)
Definition fneg (x : Q) : Q := (- x)%Q.

(** The conversion of an [int] that stands beside a float in an
    operation. *)
Definition float_of_int (z : Z) : Q := rnd (inject_Z z).

(** [a / b] on two [int]s: the quotient, rounded once. *)
Definition int_true_divide (a b : Z) : Q := rnd (inject_Z a / inject_Z b).

End Float.
Import Float.

(* ================================================================== *)
(** ** Errors *)
(* ================================================================== *)

(** The script raises [ValueError] with one of two messages,
    ["Empty chord symbol."] ([EmptyChordError]) and
    ["Unknown note name: <name>"] ([UnknownNoteError name]).  A subscript
    [d[k]] on a missing key and [xs[i]] out of range raise Python's own
    [KeyError] and [IndexError]. *)
Inductive Exception : Type :=
| EmptyChordError
| UnknownNoteError (name : pystr)
| KeyError (key : Z)
| IndexError.

Inductive result (A : Type) : Type :=
| Ok (a : A)
| Raise (e : Exception).
Arguments Ok {A} a.
Arguments Raise {A} e.

Definition bind {A B : Type} (c : result A) (k : A -> result B) : result B :=
  match c with
  | Ok a => k a
  | Raise e => Raise e
  end.

Notation "x <- c ;; k" := (bind c (fun x => k))
  (at level 61, c at next level, right associativity).

(** A list comprehension [[f(x) for x in xs]] whose body may raise: the
    elements are evaluated from the left and the first exception ends it. *)
Fixpoint comprehension {A B : Type} (f : A -> result B) (xs : list A)
  : result (list B) :=
  match xs with
  | [] => Ok []
  | x :: xs' => y <- f x ;; ys <- comprehension f xs' ;; Ok (y :: ys)
  end.

(* ================================================================== *)
(** ** Constants *)
(* ================================================================== *)

(** The dict literal [NOTE_TO_PC], in the order it is written. *)
Definition NOTE_TO_PC : list (pystr * Z) :=
  [ (py "C", 0);  (py "B#", 0);
    (py "C#", 1); (py "Db", 1);
    (py "D", 2);
    (py "D#", 3); (py "Eb", 3);
    (py "E", 4);  (py "Fb", 4);
    (py "F", 5);  (py "E#", 5);
    (py "F#", 6); (py "Gb", 6);
    (py "G", 7);
    (py "G#", 8); (py "Ab", 8);
    (py "A", 9);
    (py "A#", 10); (py "Bb", 10);
    (py "B", 11); (py "Cb", 11) ].

(** [d.get(key)] / [key in d] / [d[key]] on a dict keyed by strings. *)
Fixpoint dict_get {V : Type} (d : list (pystr * V)) (key : pystr) : option V :=
  match d with
  | [] => None
  | (k, v) :: d' => if str_eqb k key then Some v else dict_get d' key
  end.

Definition MAJOR_INTERVALS : list Z := [0; 2; 4; 5; 7; 9; 11].

Definition DEGREE_LABELS : list (Z * pystr) :=
  [ (0, py "1"); (1, py "b2"); (2, py "2"); (3, py "b3"); (4, py "3");
    (5, py "4"); (6, py "b5"); (7, py "5"); (8, py "#5"); (9, py "6");
    (10, py "b7"); (11, py "7") ].

Definition ROMANS : list (Z * pystr) :=
  [ (1, py "I"); (2, py "II"); (3, py "III"); (4, py "IV"); (5, py "V");
    (6, py "VI"); (7, py "VII") ].

(** Lookup in a dict keyed by integers; [None] is Python's [KeyError]. *)
Fixpoint int_dict_get {V : Type} (d : list (Z * V)) (key : Z) : option V :=
  match d with
  | [] => None
  | (k, v) :: d' => if Z.eqb k key then Some v else int_dict_get d' key
  end.

(** [enumerate(xs)]: positions are naturals, turned into a Python [int]
    with [Z.of_nat] where the script computes with them. *)
Definition enumerate {A : Type} (xs : list A) : list (nat * A) :=
  combine (seq 0 (List.length xs)) xs.

(** One entry of the mode catalog. *)
Record Mode : Type := {
  family : pystr;
  family_rank : Z;
  mode_rank : Z;
  name : pystr;
  intervals : list Z
}.

Definition major_modes : list (pystr * list Z) :=
  [ (py "Ionian (major)",          [0; 2; 4; 5; 7; 9; 11]);
    (py "Dorian",                  [0; 2; 3; 5; 7; 9; 10]);
    (py "Phrygian",                [0; 1; 3; 5; 7; 8; 10]);
    (py "Lydian",                  [0; 2; 4; 6; 7; 9; 11]);
    (py "Mixolydian",              [0; 2; 4; 5; 7; 9; 10]);
    (py "Aeolian (natural minor)", [0; 2; 3; 5; 7; 8; 10]);
    (py "Locrian",                 [0; 1; 3; 5; 6; 8; 10]) ].

Definition melodic_minor_modes : list (pystr * list Z) :=
  [ (py "Melodic minor",           [0; 2; 3; 5; 7; 9; 11]);
    (py "Dorian b2",               [0; 1; 3; 5; 7; 9; 10]);
    (py "Lydian augmented",        [0; 2; 4; 6; 8; 9; 11]);
    (py "Lydian dominant",         [0; 2; 4; 6; 7; 9; 10]);
    (py "Mixolydian b6",           [0; 2; 4; 5; 7; 8; 10]);
    (py "Locrian #2",              [0; 2; 3; 5; 6; 8; 10]);
    (py "Altered (super locrian)", [0; 1; 3; 4; 6; 8; 10]) ].

Definition harmonic_minor_modes : list (pystr * list Z) :=
  [ (py "Harmonic minor",          [0; 2; 3; 5; 7; 8; 11]);
    (py "Locrian #6",              [0; 1; 3; 5; 6; 9; 10]);
    (py "Ionian #5",               [0; 2; 4; 5; 8; 9; 11]);
    (py "Dorian #4",               [0; 2; 3; 6; 7; 9; 10]);
    (py "Phrygian dominant",       [0; 1; 4; 5; 7; 8; 10]);
    (py "Lydian #2",               [0; 3; 4; 6; 7; 9; 11]);
    (py "Altered diminished",      [0; 1; 3; 4; 6; 7; 9]) ].

(** [_build_catalog()]: the two nested [enumerate] loops that append to
    [MODE_CATALOG]. *)
Definition MODE_CATALOG : list Mode :=
  flat_map
    (fun '(fam_i, (fam, modes)) =>
       map (fun '(mode_i, (nm, ivs)) =>
              {| family := fam; family_rank := Z.of_nat fam_i;
                 mode_rank := Z.of_nat mode_i;
                 name := nm; intervals := ivs |})
           (enumerate modes))
    (enumerate [ (py "major", major_modes);
                 (py "melodic_minor", melodic_minor_modes);
                 (py "harmonic_minor", harmonic_minor_modes) ]).

(* ================================================================== *)
(** ** The values the analyzer passes around *)
(* ================================================================== *)

(** The ['quality'] strings ['maj'], ['min'] and ['dom']. *)
Inductive Quality : Type := Qmaj | Qmin | Qdom.

(** The dict [parse_chord_symbol] returns. *)
Record Chord : Type := {
  symbol : pystr;
  root : pystr;
  quality : Quality;
  dominant : bool;
  alts : list pystr;
  exts : list pystr
}.

(** The dict [mode_match_rank] returns. *)
Record MatchResult : Type := {
  mode : Mode;
  score : Q;
  missing_core : list Z;
  missing_extra : list Z;
  melody_score : Q;
  melody_hits : list bool
}.

(** The dict [choose_modes_21] returns. *)
Record ModeChoice : Type := {
  best : MatchResult;
  alternatives : list MatchResult
}.

(** The labels of [analyze_melody_functions]. *)
Inductive FunctionLabel : Type :=
| guide_tone
| chord_tone
| scale_line
| upper_neighbor
| lower_neighbor
| passing_tone
| chromatic_passing_tone.

(** The ['best_mode'] entry, and each entry of ['alternatives'], of the
    dict [analyze_chord_and_melody] returns. *)
Module Summary.
Record t : Type := {
  family : pystr;
  name : pystr;
  score : Q;
  melody_score : Q;
  missing_core : list Z;
  missing_extra : list Z
}.
End Summary.

(** The dict [analyze_chord_and_melody] returns. *)
Module Analysis.
Record t : Type := {
  global_key : pystr;
  chord : Chord;
  degree_in_key : Z;
  roman : pystr;
  best_mode : Summary.t;
  alternatives : list Summary.t;
  melody_notes : list pystr;
  melody_degrees : list pystr;
  functions : list (list FunctionLabel)
}.
End Analysis.

(* ================================================================== *)
(** ** Basic helpers *)
(* ================================================================== *)

(** [x in xs] for integers. *)
Definition int_mem (x : Z) (xs : list Z) : bool := existsb (Z.eqb x) xs.

(** [set(xs)] and the set comprehensions of the script: the elements are
    added one by one, an element already present is dropped. *)
Fixpoint set_add_all (xs : list Z) (acc : list Z) : list Z :=
  match xs with
  | [] => acc
  | x :: xs' => set_add_all xs' (if int_mem x acc then acc else acc ++ [x])
  end.

Definition pyset (xs : list Z) : list Z := set_add_all xs [].

(** [for pc in s] on a set: the elements of [s], each once, in the order
    the interpreter keeps them in.  That order is no part of the script
    (CPython goes through its hash table slot by slot), so it is a
    parameter of the development. *)
Class SetOrder := {
  set_iter : list Z -> list Z;
  set_iter_Permutation : forall s, Permutation (set_iter s) s
}.

(** The order in which the elements were added: enough to run the
    analyzer, one order among all those the properties hold for. *)
#[export] Instance insertion_order : SetOrder := {|
  set_iter := fun s => s;
  set_iter_Permutation := fun s => Permutation_refl s
|}.

(** Another order: a table of eight slots walked slot by slot, a pitch
    class standing in the slot of its residue modulo 8.  It is the order
    CPython shows for the small sets of this script as long as no two of
    their elements share a residue. *)
Fixpoint slot_insert (x : Z) (l : list Z) : list Z :=
  match l with
  | [] => [x]
  | y :: l' => if y mod 8 <? x mod 8 then y :: slot_insert x l' else x :: l
  end.

Definition by_slot (s : list Z) : list Z := fold_right slot_insert [] s.

Definition table_order : SetOrder.
Proof.
  refine {| set_iter := by_slot; set_iter_Permutation := _ |}.
  assert (I : forall x l, Permutation (slot_insert x l) (x :: l)).
  { intros x l. induction l as [|y l IH]; simpl; [apply Permutation_refl|].
    destruct (y mod 8 <? x mod 8); [|apply Permutation_refl].
    eapply Permutation_trans; [apply perm_skip, IH | apply perm_swap]. }
  intros s. induction s as [|x s IH]; simpl; [constructor|].
  eapply Permutation_trans; [apply I | apply perm_skip, IH].
Defined.

Section Analyzer.
Context {U : UnicodeCase}.
Context {SO : SetOrder}.

Definition accidentals_to_ascii (s : pystr) : pystr :=
  replace1 SHARP 35%N (replace1 FLAT 98%N s).

Definition normalize_note (nm : pystr) : pystr :=
  let s := accidentals_to_ascii (strip nm) in
  match s with
  | [] => s
  | c :: rest => upper_char c ++ rest
  end.

Definition note_to_pc (nm : pystr) : result Z :=
  let nm := normalize_note nm in
  match dict_get NOTE_TO_PC nm with
  | None => Raise (UnknownNoteError nm)
  | Some pc => Ok pc
  end.

Definition build_scale_from_intervals (root_pc : Z) (ivs : list Z) : list Z :=
  map (fun i => (root_pc + i) mod 12) ivs.

Definition build_major_scale_pcs (tonic : pystr) : result (list Z) :=
  t_pc <- note_to_pc tonic ;;
  Ok (map (fun i => (t_pc + i) mod 12) MAJOR_INTERVALS).

Definition pitch_to_degree_label (note_pc root_pc : Z) : result pystr :=
  let k := (note_pc - root_pc) mod 12 in
  match int_dict_get DEGREE_LABELS k with
  | Some l => Ok l
  | None => Raise (KeyError k)
  end.

(* ================================================================== *)
(** ** Chord parsing and required tones *)
(* ================================================================== *)

Definition parse_chord_symbol (sym : pystr) : result Chord :=
  let s := accidentals_to_ascii (strip sym) in
  match s with
  | [] => Raise EmptyChordError
  | c0 :: _ =>
      let '(rt, rest) :=
        if (Nat.leb 2 (List.length s)
            && (N.eqb (nth 1 s 0%N) 98 || N.eqb (nth 1 s 0%N) 35))%bool
        then (firstn 2 s, skipn 2 s)
        else ([c0], skipn 1 s) in
      let rt := normalize_note rt in
      let r := lower rest in
      let minor_marker := (startswith (py "m") r || contains (py "min") r)%bool in
      let q :=
        if (contains (py "maj") r || contains (py "ma7") r
            || contains (py "maj7") r || contains [DELTA] r)%bool
        then Qmaj
        else if minor_marker then Qmin else Qmaj in
      let is_dom :=
        (existsb (fun x => contains x r) [py "7"; py "9"; py "11"; py "13"]
         && (negb (contains (py "maj") r) && negb minor_marker))%bool in
      let q := if is_dom then Qdom else q in
      let al :=
        filter (fun a => contains a r)
               [py "b9"; py "#9"; py "b13"; py "#11"; py "b5"; py "#5"] in
      let ex :=
        filter (fun e => contains e r) [py "13"; py "11"; py "9"; py "7"] in
      Ok {| symbol := sym; root := rt; quality := q; dominant := is_dom;
            alts := al; exts := ex |}
  end.

(** The inner [uniq] of [chord_required_semitones]: the loop over [xs]
    with its [out] list and its [seen] set. *)
Fixpoint uniq_loop (xs out seen : list Z) : list Z :=
  match xs with
  | [] => out
  | x :: xs' =>
      if int_mem x seen then uniq_loop xs' out seen
      else uniq_loop xs' (out ++ [x]) (seen ++ [x])
  end.

Definition uniq (xs : list Z) : list Z := uniq_loop xs [] [].

Definition chord_required_semitones (ch : Chord) : list Z * list Z :=
  let q := quality ch in
  let ex := exts ch in
  let al := alts ch in
  let core :=
    match q with
    | Qmaj =>
        [0; 4; 7]
        ++ (if (str_mem (py "7") ex
                || contains (py "maj7") (lower (symbol ch))
                || contains (py "ma7") (lower (symbol ch)))%bool
            then [11] else [])
    | Qmin =>
        [0; 3; 7]
        ++ (if (str_mem (py "7") ex
                || contains (py "m7") (lower (symbol ch)))%bool
            then [10] else [])
    | Qdom => [0; 4; 7; 10]
    end in
  let when (b : bool) (x : Z) : list Z := if b then [x] else [] in
  let extra :=
    when (str_mem (py "9") ex) 2
    ++ when (str_mem (py "11") ex) 5
    ++ when (str_mem (py "13") ex) 9
    ++ when (str_mem (py "b9") al) 1
    ++ when (str_mem (py "#9") al) 3
    ++ when (str_mem (py "#11") al) 6
    ++ when (str_mem (py "b13") al) 8
    ++ when (str_mem (py "b5") al) 6
    ++ when (str_mem (py "#5") al) 8 in
  (uniq core, uniq extra).

(* ================================================================== *)
(** ** Roman numeral in the global major key *)
(* ================================================================== *)

(** [xs.index(x)], for an [x] that is in [xs]. *)
Fixpoint list_index (x : Z) (xs : list Z) : Z :=
  match xs with
  | [] => 0
  | y :: xs' => if Z.eqb y x then 0 else 1 + list_index x xs'
  end.

Definition degree_in_global_major (chord_root global_key : pystr) : result Z :=
  scale <- build_major_scale_pcs global_key ;;
  r_pc <- note_to_pc chord_root ;;
  Ok (if int_mem r_pc scale then list_index r_pc scale + 1 else 0).

Definition roman_for_degree (deg : Z) (q : Quality) : result pystr :=
  if Z.eqb deg 0 then Ok (py "N/A")
  else
    match int_dict_get ROMANS deg with
    | None => Raise (KeyError deg)
    | Some base =>
        Ok (match q with Qmin => lower base | _ => base end)
    end.

(* ================================================================== *)
(** ** The 21-mode matching engine *)
(* ================================================================== *)

(** [n = max(len(melody_pcs), 1)] *)
Definition melody_n (melody_pcs : list Z) : nat :=
  Nat.max (List.length melody_pcs) 1.

(** [(n - i) / n] *)
Definition weight (n i : nat) : Q :=
  int_true_divide (Z.of_nat n - Z.of_nat i) (Z.of_nat n).

(** [weights = [(n - i) / n for i in range(n)]] *)
Definition weights (n : nat) : list Q := map (weight n) (seq 0 n).

(** One turn of the loop over [enumerate(melody_pcs)]; the state is
    [(melody_hits, melody_score)]. *)
Definition melody_step (mode_pcs : list Z) (ws : list Q)
  (st : list bool * Q) (ipc : nat * Z) : list bool * Q :=
  let '(hits, ms) := st in
  let '(i, pc) := ipc in
  let hit := int_mem pc mode_pcs in
  (hits ++ [hit], if hit then fadd ms (fmul 1%Q (nth i ws 0%Q)) else ms).

Definition len (xs : list Z) : Z := Z.of_nat (List.length xs).

Definition mode_match_rank (root_pc : Z) (core extra melody_pcs : list Z)
  (m : Mode) : MatchResult :=
  let mode_pcs := pyset (build_scale_from_intervals root_pc (intervals m)) in
  let core_pcs := pyset (map (fun s => (root_pc + s) mod 12) core) in
  let extra_pcs := pyset (map (fun s => (root_pc + s) mod 12) extra) in
  let miss_core :=
    filter (fun pc => negb (int_mem pc mode_pcs)) (set_iter core_pcs) in
  let miss_extra :=
    filter (fun pc => negb (int_mem pc mode_pcs)) (set_iter extra_pcs) in
  let n := melody_n melody_pcs in
  let ws := weights n in
  let '(hits, ms) :=
    fold_left (melody_step mode_pcs ws) (enumerate melody_pcs) ([], 0%Q) in
  let sc := 0%Q in
  let sc := fadd sc (fmul 4%Q (float_of_int (len core_pcs - len miss_core))) in
  let sc := fsub sc (fmul 10%Q (float_of_int (len miss_core))) in
  let sc :=
    fadd sc (fmul (3 # 2)%Q (float_of_int (len extra_pcs - len miss_extra))) in
  let sc := fsub sc (fmul (5 # 2)%Q (float_of_int (len miss_extra))) in
  let sc := fadd sc ms in
  {| mode := m; score := sc; missing_core := miss_core;
     missing_extra := miss_extra; melody_score := ms; melody_hits := hits |}.

(** The key of [ranked.sort]:
    [(-x["score"], x["mode"]["family_rank"], x["mode"]["mode_rank"])]. *)
Definition sort_key (x : MatchResult) : Q * Z * Z :=
  (fneg (score x), family_rank (mode x), mode_rank (mode x)).

Definition Qltb (x y : Q) : bool := negb (Qle_bool y x).

(** Python's [<] on two such tuples: the first position where they differ
    (by [==]) decides. *)
Definition tuple_lt (a b : Q * Z * Z) : bool :=
  let '(a1, a2, a3) := a in
  let '(b1, b2, b3) := b in
  if negb (Qeq_bool a1 b1) then Qltb a1 b1
  else if negb (Z.eqb a2 b2) then Z.ltb a2 b2
  else if negb (Z.eqb a3 b3) then Z.ltb a3 b3
  else false.

(** [list.sort(key=sort_key)] is a stable sort by [<] on the keys; for a
    list of this size CPython runs an insertion sort.  Each element is put
    behind the elements whose key is smaller and before the others. *)
Fixpoint insert_by_key (x : MatchResult) (l : list MatchResult)
  : list MatchResult :=
  match l with
  | [] => [x]
  | y :: l' =>
      if tuple_lt (sort_key y) (sort_key x) then y :: insert_by_key x l'
      else x :: y :: l'
  end.

Definition sort_by_key (l : list MatchResult) : list MatchResult :=
  fold_right insert_by_key [] l.

(** The list [ranked] of [choose_modes_21], after the sort. *)
Definition ranked_modes (root_pc : Z) (core extra melody_pcs : list Z)
  : list MatchResult :=
  sort_by_key (map (mode_match_rank root_pc core extra melody_pcs) MODE_CATALOG).

Definition choose_modes_21 (chord_info : Chord) (melody_pcs : list Z)
  : result ModeChoice :=
  root_pc <- note_to_pc (root chord_info) ;;
  let '(core, extra) := chord_required_semitones chord_info in
  let ranked := ranked_modes root_pc core extra melody_pcs in
  match ranked with
  | [] => Raise IndexError
  | b :: _ => Ok {| best := b; alternatives := firstn 5 (skipn 1 ranked) |}
  end.

(* ================================================================== *)
(** ** Melody function tags *)
(* ================================================================== *)

(** [labels[i].append(l)]; the dict [labels] has the keys [0 .. n-1] and is
    kept as the list of its values.  The script only appends at keys that
    exist. *)
Fixpoint label_append (i : nat) (l : FunctionLabel)
  (labels : list (list FunctionLabel)) : list (list FunctionLabel) :=
  match labels, i with
  | [], _ => []
  | ls :: rest, O => (ls ++ [l]) :: rest
  | ls :: rest, S i' => ls :: label_append i' l rest
  end.

Definition chord_tone_offsets (q : Quality) : list Z :=
  match q with
  | Qmaj => [0; 4; 7; 11]
  | Qmin => [0; 3; 7; 10]
  | Qdom => [0; 4; 7; 10]
  end.

Definition chord_tones (root_pc : Z) (q : Quality) : list Z :=
  pyset (map (fun s => (root_pc + s) mod 12) (chord_tone_offsets q)).

Definition guide_tones (root_pc : Z) (q : Quality) : list Z :=
  match q with
  | Qmaj => pyset [(root_pc + 4) mod 12; (root_pc + 11) mod 12]
  | Qmin => pyset [(root_pc + 3) mod 12; (root_pc + 10) mod 12]
  | Qdom => pyset [(root_pc + 4) mod 12; (root_pc + 10) mod 12]
  end.

(** The loop over [enumerate(melody_pcs)]. *)
Definition tone_step (gts cts : list Z) (labels : list (list FunctionLabel))
  (ipc : nat * Z) : list (list FunctionLabel) :=
  let '(i, pc) := ipc in
  let labels := if int_mem pc gts then label_append i guide_tone labels else labels in
  if int_mem pc cts then label_append i chord_tone labels else labels.

Definition is_step (d : Z) : bool := int_mem d [1; 2; 10; 11].

(** The three loops over [range(1, n - 1)]; [m] is [melody_pcs]. *)
Definition scale_line_step (m : list Z) (labels : list (list FunctionLabel))
  (i : nat) : list (list FunctionLabel) :=
  let a := nth (i - 1) m 0 in
  let b := nth i m 0 in
  let c := nth (i + 1) m 0 in
  let d1 := (b - a) mod 12 in
  let d2 := (c - b) mod 12 in
  if (is_step d1 && Z.eqb d2 d1)%bool then
    label_append (i + 1) scale_line
      (label_append i scale_line
         (label_append (i - 1) scale_line labels))
  else labels.

Definition neighbor_step (cts m : list Z) (labels : list (list FunctionLabel))
  (i : nat) : list (list FunctionLabel) :=
  let a := nth (i - 1) m 0 in
  let b := nth i m 0 in
  let c := nth (i + 1) m 0 in
  if (Z.eqb a c && int_mem a cts)%bool then
    let step := (b - a) mod 12 in
    if int_mem step [1; 2] then label_append i upper_neighbor labels
    else if int_mem step [10; 11] then label_append i lower_neighbor labels
    else labels
  else labels.

Definition passing_step (cts m : list Z) (labels : list (list FunctionLabel))
  (i : nat) : list (list FunctionLabel) :=
  let a := nth (i - 1) m 0 in
  let b := nth i m 0 in
  let c := nth (i + 1) m 0 in
  if (int_mem a cts && int_mem c cts && negb (int_mem b cts))%bool then
    let up := (b - a) mod 12 in
    let down := (c - b) mod 12 in
    if (is_step up && is_step down)%bool then
      if (Z.eqb up 1 || Z.eqb down 1 || Z.eqb up 11 || Z.eqb down 11)%bool
      then label_append i chromatic_passing_tone labels
      else label_append i passing_tone labels
    else labels
  else labels.

Definition analyze_melody_functions (melody_pcs : list Z) (root_pc : Z)
  (q : Quality) : list (list FunctionLabel) :=
  let n := List.length melody_pcs in
  let labels := repeat ([] : list FunctionLabel) n in
  let cts := chord_tones root_pc q in
  let gts := guide_tones root_pc q in
  let labels := fold_left (tone_step gts cts) (enumerate melody_pcs) labels in
  let inner := seq 1 (n - 2) in
  let labels := fold_left (scale_line_step melody_pcs) inner labels in
  let labels := fold_left (neighbor_step cts melody_pcs) inner labels in
  let labels := fold_left (passing_step cts melody_pcs) inner labels in
  labels.

(* ================================================================== *)
(** ** Main analysis *)
(* ================================================================== *)

Definition summary (r : MatchResult) : Summary.t :=
  {| Summary.family := family (mode r);
     Summary.name := name (mode r);
     Summary.score := score r;
     Summary.melody_score := melody_score r;
     Summary.missing_core := missing_core r;
     Summary.missing_extra := missing_extra r |}.

Definition analyze_chord_and_melody (chord_symbol : pystr)
  (melody_notes : list pystr) (global_key : pystr) : result Analysis.t :=
  chord <- parse_chord_symbol chord_symbol ;;
  melody_pcs <- comprehension note_to_pc melody_notes ;;
  deg <- degree_in_global_major (root chord) global_key ;;
  roman <- roman_for_degree deg (quality chord) ;;
  mode_choice <- choose_modes_21 chord melody_pcs ;;
  root_pc <- note_to_pc (root chord) ;;
  melody_degrees <-
    comprehension (fun pc => pitch_to_degree_label pc root_pc) melody_pcs ;;
  let functions := analyze_melody_functions melody_pcs root_pc (quality chord) in
  Ok {| Analysis.global_key := global_key;
        Analysis.chord := chord;
        Analysis.degree_in_key := deg;
        Analysis.roman := roman;
        Analysis.best_mode := summary (best mode_choice);
        Analysis.alternatives := map summary (alternatives mode_choice);
        Analysis.melody_notes := map normalize_note melody_notes;
        Analysis.melody_degrees := melody_degrees;
        Analysis.functions := functions |}.

End Analyzer.

(* ================================================================== *)
(** ** The command line *)
(* ================================================================== *)

(** The four [ValueError]s of [parse_cli_line], by their messages:
    "Input must contain ':' ...", "Missing chord before ':'.",
    "Missing melody notes after ':'." and "No valid note names parsed.";
    and the [ValueError] Python raises when a list of fewer than two
    strings is unpacked into two names. *)
Inductive CliError : Type :=
| MissingColon
| MissingChord
| MissingMelody
| NoValidNotes
| UnpackError.

(** [s.split(sep, 1)] for a one-character [sep]: the string itself when
    [sep] is not in it, else what stands before and after the first [sep]. *)
Fixpoint split_once (sep : codepoint) (s : pystr) : option (pystr * pystr) :=
  match s with
  | [] => None
  | c :: s' =>
      if N.eqb c sep then Some ([], s')
      else match split_once sep s' with
           | Some (a, b) => Some (c :: a, b)
           | None => None
           end
  end.

(** [s.split(sep)] for a one-character [sep]; [cur] is the piece being
    read. *)
Fixpoint split_on_from (sep : codepoint) (s cur : pystr) : list pystr :=
  match s with
  | [] => [cur]
  | c :: s' =>
      if N.eqb c sep then cur :: split_on_from sep s' []
      else split_on_from sep s' (cur ++ [c])
  end.

Definition split_on (sep : codepoint) (s : pystr) : list pystr :=
  split_on_from sep s [].

(** [s.split()]: the pieces between runs of whitespace, none empty. *)
Fixpoint split_ws_from (s cur : pystr) : list pystr :=
  match s with
  | [] => match cur with [] => [] | _ => [cur] end
  | c :: s' =>
      if isspace c then
        match cur with
        | [] => split_ws_from s' []
        | _ => cur :: split_ws_from s' []
        end
      else split_ws_from s' (cur ++ [c])
  end.

Definition split_ws (s : pystr) : list pystr := split_ws_from s [].

(** [bool(s)] of a string. *)
Definition nonempty {A : Type} (s : list A) : bool :=
  match s with [] => false | _ => true end.

Definition parse_cli_line (line : pystr) : CliError + (pystr * list pystr) :=
  if negb (contains (py ":") line) then inl MissingColon
  else
    match split_once 58%N line with
    | None => inl UnpackError
    | Some (chord_part, melody_part) =>
        let chord := strip chord_part in
        if negb (nonempty chord) then inl MissingChord
        else
          let melody_raw := strip melody_part in
          if negb (nonempty melody_raw) then inl MissingMelody
          else
            let tokens :=
              if contains (py ",") melody_raw
              then map strip (split_on 44%N melody_raw)
              else map strip (split_ws melody_raw) in
            let notes := filter nonempty tokens in
            if negb (nonempty notes) then inl NoValidNotes
            else inr (chord, notes)
    end.

(* ================================================================== *)
(** ** The first version of the analyzer, [ai-gen.py] *)
(* ================================================================== *)

(** The first version has the same note table, major-scale intervals, degree
    labels and numerals, and the same loops for scale lines and neighbor
    tones.  It differs in how it normalizes a note name, parses a chord
    symbol, finds the chord scale (the church mode of the chord's degree in
    the key, by rotating the major scale) and marks chord tones and passing
    tones.  [raise ValueError(f"Unknown note name: {name}")] is
    [UnknownNoteError name]. *)
Module V1.

Definition MODE_NAMES : list (Z * pystr) :=
  [ (1, py "Ionian (major)"); (2, py "Dorian"); (3, py "Phrygian");
    (4, py "Lydian"); (5, py "Mixolydian");
    (6, py "Aeolian (natural minor)"); (7, py "Locrian") ].

(** The dict [parse_chord_symbol] returns. *)
Record Chord : Type := {
  symbol : pystr;
  root : pystr;
  quality : Quality;
  dominant : bool;
  minor : bool;
  maj7 : bool;
  extensions : list pystr
}.

(** The dict [analyze_chord_and_melody] returns. *)
Record Analysis : Type := {
  chord_info : Chord;
  degree_in_key : Z;
  roman : pystr;
  mode : pystr;
  tritone_sub : pystr;
  modal_borrowing : pystr;
  note_degrees : list pystr;
  functions : list (list FunctionLabel)
}.

(** The index a slice bound [k] stands for in a sequence of length [n]:
    a negative bound counts from the end, and both are clipped. *)
Definition slice_index (k : Z) (n : nat) : nat :=
  if k <? 0 then Z.to_nat (Z.max (Z.of_nat n + k) 0)
  else Nat.min (Z.to_nat k) n.

(** [xs[k:]] and [xs[:k]] *)
Definition slice_from {A : Type} (k : Z) (xs : list A) : list A :=
  skipn (slice_index k (List.length xs)) xs.
Definition slice_to {A : Type} (k : Z) (xs : list A) : list A :=
  firstn (slice_index k (List.length xs)) xs.

(** [str(n)] for an [int]. *)
Definition str_of_int (n : Z) : pystr :=
  py (DecimalString.NilZero.string_of_int (Z.to_int n)).

Section Analyzer.
Context {U : UnicodeCase}.

(** [s.upper()] *)
Definition upper (s : pystr) : pystr := flat_map upper_char s.

Definition normalize_note (name : pystr) : pystr :=
  upper (accidentals_to_ascii (strip name)).

Definition note_to_pc (name : pystr) : result Z :=
  let name := normalize_note name in
  match dict_get NOTE_TO_PC name with
  | None => Raise (UnknownNoteError name)
  | Some pc => Ok pc
  end.

Definition build_major_scale_pcs (tonic : pystr) : result (list Z) :=
  t_pc <- note_to_pc tonic ;;
  Ok (map (fun i => (t_pc + i) mod 12) MAJOR_INTERVALS).

Definition rotate_intervals (mode_degree : Z) : result (list Z) :=
  let shifted := slice_from (mode_degree - 1) MAJOR_INTERVALS
                 ++ slice_to (mode_degree - 1) MAJOR_INTERVALS in
  match shifted with
  | [] => Raise IndexError
  | tonic_offset :: _ =>
      Ok (map (fun i => (i - tonic_offset) mod 12) shifted)
  end.

Definition parse_chord_symbol (symbol : pystr) : result Chord :=
  let s := accidentals_to_ascii (strip symbol) in
  root_rest <-
    match s with
    | c0 :: c1 :: rest =>
        if (N.eqb c1 35 || N.eqb c1 98)%bool
        then Ok ([c0; c1], rest)
        else Ok ([c0], c1 :: rest)
    | [c0] => Ok ([c0], [])
    | [] => Raise IndexError
    end ;;
  let '(root, rest) := root_rest in
  let root := normalize_note root in
  let r_lower := lower rest in
  let '(quality, dominant, minor, maj7) :=
    if (contains (py "maj") r_lower || contains (py "ma7") r_lower
        || contains (py "maj7") r_lower || contains [DELTA] r_lower)%bool
    then (Qmaj, false, false, true)
    else if (contains (py "m") r_lower
             && negb (contains (py "maj") r_lower))%bool
    then (Qmin, false, true, false)
    else if (contains (py "7") r_lower || contains (py "9") r_lower
             || contains (py "13") r_lower)%bool
    then (Qdom, true, false, false)
    else (Qmaj, false, false, false) in
  let extensions :=
    filter (fun alt => contains alt r_lower)
      [py "b9"; py "#9"; py "b13"; py "#11"] in
  Ok {| symbol := symbol;
        root := root;
        quality := quality;
        dominant := dominant;
        minor := minor;
        maj7 := maj7;
        extensions := extensions |}.

Definition get_degree_in_key (root global_key : pystr) : result Z :=
  pcs <- build_major_scale_pcs global_key ;;
  root_pc <- note_to_pc root ;;
  if int_mem root_pc pcs then Ok (list_index root_pc pcs + 1) else Ok 0.

Definition roman_for_degree (degree : Z) (chord_quality : Quality)
  : result pystr :=
  if Z.eqb degree 0 then Ok (py "N/A")
  else
    match int_dict_get ROMANS degree with
    | None => Raise (KeyError degree)
    | Some base =>
        match chord_quality with
        | Qmaj => Ok base
        | Qmin => Ok (lower base)
        | Qdom => Ok base
        end
    end.

Definition mode_for_degree (degree : Z) : pystr :=
  match int_dict_get MODE_NAMES degree with
  | Some m => m
  | None => py "Non-diatonic"
  end.

Definition detect_tritone_sub (chord_info : Chord) (global_key : pystr)
  : result pystr :=
  if negb (dominant chord_info) then Ok []
  else
    tonic_pc <- note_to_pc global_key ;;
    let b2_pc := (tonic_pc + 1) mod 12 in
    root_pc <- note_to_pc (root chord_info) ;;
    if Z.eqb root_pc b2_pc then Ok (py "Tritone substitution of V7")
    else Ok [].

Definition detect_modal_borrowing (degree : Z) (chord_info : Chord) : pystr :=
  if (Z.eqb degree 4 && minor chord_info)%bool
  then py "Borrowed from parallel minor (iv)"
  else [].

Definition build_mode_scale (root : pystr) (degree_in_key : Z)
  : result (list Z) :=
  root_pc <- note_to_pc root ;;
  intervals <-
    rotate_intervals (if negb (Z.eqb degree_in_key 0) then degree_in_key else 1) ;;
  Ok (map (fun i => (root_pc + i) mod 12) intervals).

Definition pitch_to_chord_degree (pc chord_root_pc : Z) : pystr :=
  let semitone := (pc - chord_root_pc) mod 12 in
  match int_dict_get DEGREE_LABELS semitone with
  | Some l => l
  | None => py "?(" ++ str_of_int semitone ++ py ")"
  end.

(** The loop over [enumerate(melody_pcs)]. *)
Definition tone_step (gts cts : list Z) (labels : list (list FunctionLabel))
  (ipc : nat * Z) : list (list FunctionLabel) :=
  let '(i, pc) := ipc in
  if int_mem pc gts then label_append i guide_tone labels
  else if int_mem pc cts then label_append i chord_tone labels
  else labels.

(** The last loop over [range(1, n - 1)]; [m] is [melody_pcs]. *)
Definition passing_step (cts chord_scale_pcs m : list Z)
  (labels : list (list FunctionLabel)) (i : nat) : list (list FunctionLabel) :=
  let a := nth (i - 1) m 0 in
  let b := nth i m 0 in
  let c := nth (i + 1) m 0 in
  if (int_mem a cts && int_mem c cts && negb (int_mem b cts))%bool then
    let up := (b - a) mod 12 in
    let down := (c - b) mod 12 in
    if (is_step up && is_step down)%bool then
      if int_mem b chord_scale_pcs
      then label_append i passing_tone labels
      else label_append i chromatic_passing_tone labels
    else labels
  else labels.

Definition analyze_melody_functions (melody_pcs chord_scale_pcs : list Z)
  (chord_root_pc : Z) : list (list FunctionLabel) :=
  let n := List.length melody_pcs in
  let labels := repeat ([] : list FunctionLabel) n in
  let chord_tone_semitones := [0; 4; 7; 11] in
  let chord_tones :=
    map (fun x => (chord_root_pc + x) mod 12) chord_tone_semitones in
  let guide_tones := [(chord_root_pc + 4) mod 12; (chord_root_pc + 11) mod 12] in
  let labels :=
    fold_left (tone_step guide_tones chord_tones) (enumerate melody_pcs) labels in
  let inner := seq 1 (n - 2) in
  let labels := fold_left (scale_line_step melody_pcs) inner labels in
  let labels := fold_left (neighbor_step chord_tones melody_pcs) inner labels in
  let labels :=
    fold_left (passing_step chord_tones chord_scale_pcs melody_pcs) inner labels in
  labels.

Definition analyze_chord_and_melody (chord_symbol global_key : pystr)
  (melody_notes : list pystr) : result Analysis :=
  chord_info <- parse_chord_symbol chord_symbol ;;
  degree <- get_degree_in_key (root chord_info) global_key ;;
  roman <- roman_for_degree degree (quality chord_info) ;;
  let mode_name := mode_for_degree degree in
  tri_sub <- detect_tritone_sub chord_info global_key ;;
  let modal_borrow := detect_modal_borrowing degree chord_info in
  chord_scale_pcs <-
    (if Z.eqb degree 0 then build_major_scale_pcs (root chord_info)
     else build_mode_scale (root chord_info) degree) ;;
  chord_root_pc <- note_to_pc (root chord_info) ;;
  melody_pcs <- comprehension note_to_pc melody_notes ;;
  let note_degrees :=
    map (fun pc => pitch_to_chord_degree pc chord_root_pc) melody_pcs in
  let functions :=
    analyze_melody_functions melody_pcs chord_scale_pcs chord_root_pc in
  Ok {| chord_info := chord_info;
        degree_in_key := degree;
        roman := roman;
        mode := mode_name;
        tritone_sub := tri_sub;
        modal_borrowing := modal_borrow;
        note_degrees := note_degrees;
        functions := functions |}.

End Analyzer.
End V1.

(* ================================================================== *)
(** * The notions the properties are stated with *)
(* ================================================================== *)

(** ** The note table *)

(** The keys of [NOTE_TO_PC]. *)
Definition note_names : list pystr := map fst NOTE_TO_PC.

(** The note names the table is said to cover. *)
Definition naturals : list pystr :=
  [py "C"; py "D"; py "E"; py "F"; py "G"; py "A"; py "B"].
Definition sharps : list pystr :=
  [py "C#"; py "D#"; py "F#"; py "G#"; py "A#"].
Definition flats : list pystr :=
  [py "Db"; py "Eb"; py "Gb"; py "Ab"; py "Bb"].
Definition double_enharmonics : list pystr :=
  [py "B#"; py "Cb"; py "E#"; py "Fb"].

(** The enharmonic pairs of the table: two spellings of one pitch. *)
Definition enharmonic_pairs : list (pystr * pystr) :=
  [ (py "C#", py "Db"); (py "D#", py "Eb"); (py "F#", py "Gb");
    (py "G#", py "Ab"); (py "A#", py "Bb");
    (py "B#", py "C"); (py "Cb", py "B"); (py "E#", py "F"); (py "Fb", py "E") ].

(** ** Seventh markers *)

(** What the specification calls a seventh extension and the explicit
    seventh markers, as the deriver tests them. *)
Definition seventh_extension (ch : Chord) : Prop := In (py "7") (exts ch).

(** ["m7" in ch["symbol"].lower()] *)
Definition m7_marker {U : UnicodeCase} (sym : pystr) : Prop :=
  contains (py "m7") (lower sym) = true.

(** ["maj7" in ch["symbol"].lower() or "ma7" in ch["symbol"].lower()] *)
Definition major_seven_marker {U : UnicodeCase} (sym : pystr) : Prop :=
  contains (py "maj7") (lower sym) = true
  \/ contains (py "ma7") (lower sym) = true.

(** ** The appends of the classifier *)

Definition label_eq_dec (a b : FunctionLabel) : {a = b} + {a <> b}.
Proof. decide equality. Defined.

(** An append of the classifier: the index it goes to and the label. *)
Definition event : Type := nat * FunctionLabel.

(** The appends carried out one after the other. *)
Definition apply_events (evs : list event) (labels : list (list FunctionLabel))
  : list (list FunctionLabel) :=
  fold_left (fun lb e => label_append (fst e) (snd e) lb) evs labels.

(** The appends of one turn of each loop. *)
Definition tone_events (gts cts m : list Z) (i : nat) : list event :=
  (if int_mem (nth i m 0) gts then [(i, guide_tone)] else [])
  ++ (if int_mem (nth i m 0) cts then [(i, chord_tone)] else []).

Definition scale_line_events (m : list Z) (i : nat) : list event :=
  let a := nth (i - 1) m 0 in
  let b := nth i m 0 in
  let c := nth (i + 1) m 0 in
  if (is_step ((b - a) mod 12) && Z.eqb ((c - b) mod 12) ((b - a) mod 12))%bool
  then [((i - 1)%nat, scale_line); (i, scale_line); ((i + 1)%nat, scale_line)]
  else [].

Definition neighbor_events (cts m : list Z) (i : nat) : list event :=
  let a := nth (i - 1) m 0 in
  let b := nth i m 0 in
  let c := nth (i + 1) m 0 in
  if (Z.eqb a c && int_mem a cts)%bool then
    if int_mem ((b - a) mod 12) [1; 2] then [(i, upper_neighbor)]
    else if int_mem ((b - a) mod 12) [10; 11] then [(i, lower_neighbor)]
    else []
  else [].

Definition passing_events (cts m : list Z) (i : nat) : list event :=
  let a := nth (i - 1) m 0 in
  let b := nth i m 0 in
  let c := nth (i + 1) m 0 in
  if (int_mem a cts && int_mem c cts && negb (int_mem b cts))%bool then
    if (is_step ((b - a) mod 12) && is_step ((c - b) mod 12))%bool then
      if (Z.eqb ((b - a) mod 12) 1 || Z.eqb ((c - b) mod 12) 1
          || Z.eqb ((b - a) mod 12) 11 || Z.eqb ((c - b) mod 12) 11)%bool
      then [(i, chromatic_passing_tone)]
      else [(i, passing_tone)]
    else []
  else [].

(** All the appends of [analyze_melody_functions], in the order they happen. *)
Definition all_events (m : list Z) (root_pc : Z) (q : Quality) : list event :=
  let n := List.length m in
  let cts := chord_tones root_pc q in
  let gts := guide_tones root_pc q in
  flat_map (tone_events gts cts m) (seq 0 n)
  ++ flat_map (scale_line_events m) (seq 1 (n - 2))
  ++ flat_map (neighbor_events cts m) (seq 1 (n - 2))
  ++ flat_map (passing_events cts m) (seq 1 (n - 2)).

(** How often the label [l] is appended at the index [j]. *)
Definition cnt (j : nat) (l : FunctionLabel) (evs : list event) : nat :=
  count_occ label_eq_dec (map snd (filter (fun e => Nat.eqb (fst e) j) evs)) l.

(** 1 at the index [c], 0 elsewhere. *)
Definition at_index (c i : nat) : nat := if Nat.eqb i c then 1%nat else 0%nat.

(** How often each loop may append a label at one index. *)
Definition tone_cap (l : FunctionLabel) : nat :=
  match l with guide_tone | chord_tone => 1 | _ => 0 end.
Definition scale_line_cap (l : FunctionLabel) : nat :=
  match l with scale_line => 3 | _ => 0 end.
Definition neighbor_cap (l : FunctionLabel) : nat :=
  match l with upper_neighbor | lower_neighbor => 1 | _ => 0 end.
Definition passing_cap (l : FunctionLabel) : nat :=
  match l with passing_tone | chromatic_passing_tone => 1 | _ => 0 end.

(** How often a label may stand at one index of the result. *)
Definition max_repeats (l : FunctionLabel) : nat :=
  match l with
  | scale_line => 3
  | _ => 1
  end.

(** ** The score, in the words of the specification *)

(** The pitch class [pc] is in the mode [m] built on [root_pc]. *)
Definition in_mode (root_pc : Z) (m : Mode) (pc : Z) : bool :=
  existsb (fun iv => Z.eqb ((root_pc + iv) mod 12) pc) (intervals m).

(** The distinct absolute pitch classes of a list of offsets. *)
Definition spec_pcs (root_pc : Z) (offsets : list Z) : list Z :=
  nodup Z.eq_dec (map (fun s => (root_pc + s) mod 12) offsets).

(** Those of them the mode does not have. *)
Definition spec_missing (root_pc : Z) (m : Mode) (offsets : list Z) : list Z :=
  filter (fun pc => negb (in_mode root_pc m pc)) (spec_pcs root_pc offsets).

(** The sum of a list of rationals, exact. *)
Definition Qsum (xs : list Q) : Q := fold_right Qplus 0%Q xs.

(** The sum of a list of doubles, added up from the left in doubles. *)
Definition float_sum (xs : list Q) : Q := fold_left fadd xs 0%Q.

(** The positions of the melody whose pitch class is in the mode. *)
Definition hit_positions (root_pc : Z) (m : Mode) (melody_pcs : list Z)
  : list nat :=
  filter (fun i => in_mode root_pc m (nth i melody_pcs 0))
         (seq 0 (List.length melody_pcs)).

(** The weight of the position [i] among [n] notes: the double nearest to
    [(n - i) / n]. *)
Definition spec_weight (n i : nat) : Q :=
  rnd (inject_Z (Z.of_nat n - Z.of_nat i) / inject_Z (Z.of_nat n)).

(** The sum of the weights of the hit positions, in the order of the
    melody, [n = 0] taken as 1. *)
Definition spec_melody_score (root_pc : Z) (m : Mode) (melody_pcs : list Z) : Q :=
  float_sum (map (spec_weight (Nat.max (List.length melody_pcs) 1))
                 (hit_positions root_pc m melody_pcs)).

(** The sum of the weights of all the positions of the melody, added up in
    doubles in the order of the melody. *)
Definition position_weight_sum (melody_pcs : list Z) : Q :=
  float_sum (map (spec_weight (Nat.max (List.length melody_pcs) 1))
                 (seq 0 (List.length melody_pcs))).

(** The same sum in exact arithmetic: the sum of the fractions
    [(n - i) / n], which is [(n + 1) / 2]. *)
Definition exact_weight_sum (melody_pcs : list Z) : Q :=
  let n := Z.of_nat (Nat.max (List.length melody_pcs) 1) in
  Qsum (map (fun i => inject_Z (n - Z.of_nat i) / inject_Z n)%Q
            (seq 0 (List.length melody_pcs))).

(** The size of a set of pitch classes. *)
Definition card (xs : list Z) : Z := Z.of_nat (List.length xs).

(** The score formula, every operation in doubles, from the left. *)
Definition spec_score (root_pc : Z) (core extra melody_pcs : list Z) (m : Mode) : Q :=
  fadd
    (fsub
       (fadd
          (fsub
             (fmul 4%Q (float_of_int (card (spec_pcs root_pc core)
                                      - card (spec_missing root_pc m core))))
             (fmul 10%Q (float_of_int (card (spec_missing root_pc m core)))))
          (fmul (3 # 2)%Q
             (float_of_int (card (spec_pcs root_pc extra)
                            - card (spec_missing root_pc m extra)))))
       (fmul (5 # 2)%Q (float_of_int (card (spec_missing root_pc m extra)))))
    (spec_melody_score root_pc m melody_pcs).

(** ** Doubles, as the Standard Library specifies them *)

(** The number a [spec_float] of the library stands for. *)
Definition SF2Q (f : spec_float) : option Q :=
  match f with
  | S754_zero _ => Some 0%Q
  | S754_finite s m e =>
      Some ((if s then -1 else 1) * inject_Z (Zpos m) * pow2 e)%Q
  | _ => None
  end.

(** The double of an integer, and the operations at the precision 53 and
    the exponent range of binary64. *)
Definition Z2SF (z : Z) : spec_float := binary_normalize 53 1024 z 0 false.
Definition SF64div : spec_float -> spec_float -> spec_float := SFdiv 53 1024.
Definition SF64add : spec_float -> spec_float -> spec_float := SFadd 53 1024.
Definition SF64mul : spec_float -> spec_float -> spec_float := SFmul 53 1024.

(** The quotients [a / b] of the integers below [k] on which [rnd] and the
    library agree. *)
Definition divisions_agree (k : nat) : bool :=
  forallb (fun b =>
     forallb (fun a =>
        match SF2Q (SF64div (Z2SF (Z.of_nat a)) (Z2SF (Z.of_nat b))) with
        | Some q => Qeq_bool q (int_true_divide (Z.of_nat a) (Z.of_nat b))
        | None => false
        end) (seq 0 k)) (seq 1 (k - 1)).

(** Adding up the weights of [n] positions in the library's doubles and
    with [fadd] gives the same number at every step. *)
Definition sums_agree (n : nat) : bool :=
  let w i := SF64div (Z2SF (Z.of_nat n - Z.of_nat i)) (Z2SF (Z.of_nat n)) in
  snd (fold_left
         (fun st i =>
            let '(s, q, ok) := st in
            let s' := SF64add s (w i) in
            let q' := fadd q (spec_weight n i) in
            (s', q',
             ok && match SF2Q s' with
                   | Some v => Qeq_bool v q'
                   | None => false
                   end)%bool)
         (seq 0 n) (S754_zero false, 0%Q, true)).

(** ** Stepwise windows *)

(** The three notes around the position [k] move twice by the same step of
    one or two semitones, up or down. *)
Definition stepwise_window (m : list Z) (k : nat) : bool :=
  let d1 := (nth k m 0 - nth (k - 1) m 0) mod 12 in
  let d2 := (nth (k + 1) m 0 - nth k m 0) mod 12 in
  (existsb (Z.eqb d1) [1; 2; 10; 11] && Z.eqb d2 d1)%bool.

(** The windows of three notes in a row that the position [j] of a melody
    of [n] notes lies in, each named by its middle position. *)
Definition windows_at (n j : nat) : list nat :=
  filter (fun k => (Nat.eqb (k + 1) j || Nat.eqb k j || Nat.eqb k (j + 1))%bool)
         (seq 1 (n - 2)).

(** Those of them that are stepwise. *)
Definition stepwise_windows_at (m : list Z) (j : nat) : list nat :=
  filter (stepwise_window m) (windows_at (List.length m) j).

(** ** The ranking order *)

(** The order of the specification: higher score first, then the smaller
    family rank, then the smaller mode rank. *)
Definition ranks_before (a b : MatchResult) : Prop :=
  (score b < score a)%Q
  \/ ((score a == score b)%Q
      /\ (family_rank (mode a) < family_rank (mode b)
          \/ (family_rank (mode a) = family_rank (mode b)
              /\ mode_rank (mode a) < mode_rank (mode b)))).

(** The two results tie on all three criteria. *)
Definition ranks_same (a b : MatchResult) : Prop :=
  (score a == score b)%Q
  /\ family_rank (mode a) = family_rank (mode b)
  /\ mode_rank (mode a) = mode_rank (mode b).

(** Before, or tied. *)
Definition ranks_le (a b : MatchResult) : Prop :=
  ranks_before a b \/ ranks_same a b.

(** The two ranks that tell the modes of the catalog apart. *)
Definition rank_pair (r : MatchResult) : Z * Z :=
  (family_rank (mode r), mode_rank (mode r)).

(** The descriptor of the chord "G7". *)
Definition G7_chord : Chord :=
  {| symbol := py "G7"; root := py "G"; quality := Qdom; dominant := true;
     alts := []; exts := [py "7"] |}.

(** ** The first version *)

(** The keys of the note table that have no lower-case letter. *)
Definition upper_case_names : list pystr :=
  naturals ++ sharps ++ [py "B#"; py "E#"].

(** A character of a note name as the script expects one: ASCII, or one of
    the two accidental signs it replaces. *)
Definition ascii_or_accidental (c : codepoint) : Prop :=
  (c < 128)%N \/ c = FLAT \/ c = SHARP.

(** The interval lists of the seven modes of the major scale, as the
    catalog of the second version spells them out. *)
Definition church_modes : list (list Z) := map snd major_modes.

(** The notes of a scale, started at its [k]-th note. *)
Definition rotate {A : Type} (k : nat) (xs : list A) : list A :=
  skipn k xs ++ firstn k xs.

Definition v1_known_note {U : UnicodeCase} (nm : pystr) : bool :=
  match V1.note_to_pc nm with Ok _ => true | Raise _ => false end.

(** The chord tones and guide tones of the first version: those of a major
    seventh chord, whatever the quality of the chord. *)
Definition v1_chord_tones (root_pc : Z) : list Z :=
  map (fun x => (root_pc + x) mod 12) [0; 4; 7; 11].
Definition v1_guide_tones (root_pc : Z) : list Z :=
  [(root_pc + 4) mod 12; (root_pc + 11) mod 12].

(** The appends of one turn of the two loops the first version has of its
    own, and all its appends in the order they happen. *)
Definition v1_tone_events (gts cts m : list Z) (i : nat) : list event :=
  if int_mem (nth i m 0) gts then [(i, guide_tone)]
  else if int_mem (nth i m 0) cts then [(i, chord_tone)]
  else [].

Definition v1_passing_events (cts chord_scale_pcs m : list Z) (i : nat)
  : list event :=
  let a := nth (i - 1) m 0 in
  let b := nth i m 0 in
  let c := nth (i + 1) m 0 in
  if (int_mem a cts && int_mem c cts && negb (int_mem b cts))%bool then
    if (is_step ((b - a) mod 12) && is_step ((c - b) mod 12))%bool then
      if int_mem b chord_scale_pcs then [(i, passing_tone)]
      else [(i, chromatic_passing_tone)]
    else []
  else [].

Definition v1_all_events (m chord_scale_pcs : list Z) (root_pc : Z)
  : list event :=
  let n := List.length m in
  let cts := v1_chord_tones root_pc in
  let gts := v1_guide_tones root_pc in
  flat_map (v1_tone_events gts cts m) (seq 0 n)
  ++ flat_map (scale_line_events m) (seq 1 (n - 2))
  ++ flat_map (neighbor_events cts m) (seq 1 (n - 2))
  ++ flat_map (v1_passing_events cts chord_scale_pcs m) (seq 1 (n - 2)).

(** ** Notions of the further properties *)

(** A string no [strip] would shorten. *)
Definition stripped (s : pystr) : Prop :=
  lstrip s = s /\ lstrip (rev s) = rev s.

(** The numerals I to VII and their lower-case forms. *)
Definition upper_numerals : list pystr :=
  [py "I"; py "II"; py "III"; py "IV"; py "V"; py "VI"; py "VII"].
Definition lower_numerals : list pystr :=
  [py "i"; py "ii"; py "iii"; py "iv"; py "v"; py "vi"; py "vii"].

(** The name is a key of the note table, once normalized. *)
Definition known_note {U : UnicodeCase} (nm : pystr) : bool :=
  match dict_get NOTE_TO_PC (normalize_note nm) with
  | Some _ => true
  | None => false
  end.

(** A list without its repeats: each element stays where it first stood. *)
Fixpoint first_occurrences (xs : list Z) : list Z :=
  match xs with
  | [] => []
  | x :: xs' => x :: filter (fun y => negb (Z.eqb y x)) (first_occurrences xs')
  end.

(** The offsets a core and an extra list are drawn from. *)
Definition core_offsets : list Z := [0; 3; 4; 7; 10; 11].
Definition extra_offsets : list Z := [1; 2; 3; 5; 6; 8; 9].

(** The alteration and extension tokens, in the order the parser looks for
    them. *)
Definition ALTS : list pystr :=
  [py "b9"; py "#9"; py "b13"; py "#11"; py "b5"; py "#5"].
Definition EXTS : list pystr := [py "13"; py "11"; py "9"; py "7"].

(** The pitch class [k] semitones above [pc]. *)
Definition transpose (k pc : Z) : Z := (pc + k) mod 12.

(** Two results for the same mode with equal scores. *)
Definition same_rating (a b : MatchResult) : Prop :=
  mode a = mode b /\ score a = score b.

(** Two results that differ at most in the order of their missing tones. *)
Definition same_result (a b : MatchResult) : Prop :=
  mode a = mode b /\ score a = score b
  /\ melody_score a = melody_score b /\ melody_hits a = melody_hits b
  /\ Permutation (missing_core a) (missing_core b)
  /\ Permutation (missing_extra a) (missing_extra b).

(** The catalog entry of the Mixolydian mode. *)
Definition Mixolydian : Mode :=
  {| family := py "major"; family_rank := 0; mode_rank := 4;
     name := py "Mixolydian"; intervals := [0; 2; 4; 5; 7; 9; 10] |}.

(** Case analysis on every test of the goal. *)
Ltac split_ifs :=
  repeat match goal with
         | |- context [if ?b then _ else _] =>
             lazymatch b with
             | true => fail
             | false => fail
             | _ => destruct b
             end
         end.

(* ================================================================== *)
(** * Properties *)
(* ================================================================== *)

(** ** Strings *)

Lemma str_eqb_eq (a b : pystr) : str_eqb a b = true <-> a = b.
Proof.
  revert b; induction a as [|x a IH]; intros [|y b]; simpl;
    try (split; [discriminate | congruence]); try tauto.
  rewrite andb_true_iff, N.eqb_eq, IH.
  split; [intros [-> ->]; reflexivity | intros H; inversion H; auto].
Qed.

Lemma str_eqb_refl (a : pystr) : str_eqb a a = true.
Proof. apply str_eqb_eq; reflexivity. Qed.

Lemma str_mem_In (x : pystr) (xs : list pystr) :
  str_mem x xs = true <-> In x xs.
Proof.
  unfold str_mem. rewrite existsb_exists. split.
  - intros (y & Hy & E). apply str_eqb_eq in E. subst; assumption.
  - intros H. exists x. split; [assumption | apply str_eqb_refl].
Qed.

Lemma dict_get_None {V : Type} (d : list (pystr * V)) (key : pystr) :
  dict_get d key = None <-> ~ In key (map fst d).
Proof.
  induction d as [|[k v] d IH]; simpl.
  - tauto.
  - destruct (str_eqb k key) eqn:E.
    + apply str_eqb_eq in E. split; [discriminate | intros H; exfalso; auto].
    + assert (k <> key) by (intros ->; rewrite str_eqb_refl in E; discriminate).
      rewrite IH. tauto.
Qed.

Lemma dict_get_Some_In {V : Type} (d : list (pystr * V)) (key : pystr) (v : V) :
  dict_get d key = Some v -> In (key, v) d.
Proof.
  induction d as [|[k w] d IH]; simpl; [discriminate|].
  destruct (str_eqb k key) eqn:E.
  - apply str_eqb_eq in E. intros [= ->]. left; congruence.
  - auto.
Qed.

Lemma lstrip_nil (s : pystr) : lstrip s = [] <-> forallb isspace s = true.
Proof.
  induction s as [|c s IH]; simpl; [tauto|].
  destruct (isspace c); simpl; [exact IH | split; discriminate].
Qed.

Lemma lstrip_head (s : pystr) (c : codepoint) (t : pystr) :
  lstrip s = c :: t -> isspace c = false.
Proof.
  induction s as [|d s IH]; simpl; [discriminate|].
  destruct (isspace d) eqn:E; [exact IH | intros [= <- _]; exact E].
Qed.

Lemma forallb_rev {A : Type} (f : A -> bool) (l : list A) :
  forallb f (rev l) = forallb f l.
Proof.
  induction l as [|x l IH]; simpl; [reflexivity|].
  rewrite forallb_app, IH. simpl. rewrite andb_true_r. apply andb_comm.
Qed.

(** [s.strip()] is empty exactly when [s] is empty or made of whitespace. *)
Lemma strip_nil (s : pystr) : strip s = [] <-> forallb isspace s = true.
Proof.
  unfold strip, rstrip. split.
  - intros H. apply (f_equal (@rev _)) in H. rewrite rev_involutive in H.
    simpl in H. apply lstrip_nil in H. rewrite forallb_rev in H.
    destruct (lstrip s) as [|c t] eqn:E; [apply lstrip_nil; exact E|].
    apply lstrip_head in E. simpl in H. rewrite E in H. discriminate.
  - intros H. apply lstrip_nil in H. rewrite H. reflexivity.
Qed.

Lemma accidentals_to_ascii_nil (s : pystr) :
  accidentals_to_ascii s = [] <-> s = [].
Proof.
  unfold accidentals_to_ascii, replace1. destruct s; simpl; split;
    try reflexivity; discriminate.
Qed.

(** ** The note table *)

Lemma note_names_NoDup : NoDup note_names.
Proof.
  unfold note_names.
  repeat (constructor;
          [ vm_compute; intros H;
            repeat (destruct H as [H | H]; [discriminate H|]); exact H | ]).
  constructor.
Qed.

Lemma NOTE_TO_PC_range : Forall (fun kv => 0 <= snd kv < 12) NOTE_TO_PC.
Proof. unfold NOTE_TO_PC. repeat constructor; simpl; lia. Qed.

Section NoteTable.
Context {U : UnicodeCase}.

Lemma note_to_pc_unknown (nm : pystr) :
  ~ In (normalize_note nm) note_names ->
  note_to_pc nm = Raise (UnknownNoteError (normalize_note nm)).
Proof.
  intros H. unfold note_to_pc.
  apply dict_get_None in H. rewrite H. reflexivity.
Qed.

Lemma note_to_pc_known (nm : pystr) :
  In (normalize_note nm) note_names ->
  exists pc, note_to_pc nm = Ok pc /\ In (normalize_note nm, pc) NOTE_TO_PC.
Proof.
  intros H. unfold note_to_pc.
  destruct (dict_get NOTE_TO_PC (normalize_note nm)) as [pc|] eqn:E.
  - exists pc. split; [reflexivity | apply dict_get_Some_In; exact E].
  - apply dict_get_None in E. contradiction.
Qed.

Lemma note_to_pc_range (nm : pystr) (pc : Z) :
  note_to_pc nm = Ok pc -> 0 <= pc < 12.
Proof.
  unfold note_to_pc.
  destruct (dict_get NOTE_TO_PC (normalize_note nm)) as [v|] eqn:E; [|discriminate].
  intros [= <-]. apply dict_get_Some_In in E.
  pose proof NOTE_TO_PC_range as R. rewrite Forall_forall in R.
  exact (R _ E).
Qed.

End NoteTable.

(** C7, as the script has it.  [NOTE_TO_PC] is a fixed table of 21 distinct
    names: the 7 naturals, the 5 sharps, the 5 flats and the four spellings
    B#, Cb, E#, Fb, and no other.  The two names of each of its 9 enharmonic
    pairs (C#/Db, D#/Eb, F#/Gb, G#/Ab, A#/Bb, B#/C, Cb/B, E#/F, Fb/E) have the
    same pitch class, and a name whose normal form is not a key of the
    table makes [note_to_pc] raise the unknown-note error, which carries
    the normal form. *)
Theorem note_table_lookup (U : UnicodeCase) :
  List.length NOTE_TO_PC = 21%nat /\
  NoDup note_names /\
  (forall nm, In nm note_names <->
              In nm (naturals ++ sharps ++ flats ++ double_enharmonics)) /\
  Forall (fun ab => exists pc, 0 <= pc < 12 /\ note_to_pc (fst ab) = Ok pc
                               /\ note_to_pc (snd ab) = Ok pc)
         enharmonic_pairs /\
  (forall nm, ~ In (normalize_note nm) note_names ->
              note_to_pc nm = Raise (UnknownNoteError (normalize_note nm))).
Proof.
  split; [reflexivity|].
  split; [exact note_names_NoDup|].
  split.
  - intros nm. vm_compute. intuition congruence.
  - split.
    + unfold enharmonic_pairs.
      repeat (constructor;
              [ match goal with
                | |- exists pc, _ /\ note_to_pc ?a = _ /\ _ =>
                    let v := eval vm_compute in (note_to_pc a) in
                    match v with
                    | Ok ?pc => exists pc; split;
                                [lia | split; vm_compute; reflexivity]
                    end
                end | ]).
      constructor.
    + intros nm. apply note_to_pc_unknown.
Qed.

(** The table is consulted with a name that is no key of it: "H". *)
Lemma note_table_lookup_witness :
  note_to_pc (py "H") = Raise (UnknownNoteError (py "H")).
Proof.
  apply (proj2 (proj2 (proj2 (proj2 (note_table_lookup ascii_only)))) (py "H")).
  vm_compute. intuition discriminate.
Defined.

(** C7 as stated fails: the table does not have 17 entries. *)
Lemma note_table_has_not_17_entries : List.length NOTE_TO_PC <> 17%nat.
Proof. vm_compute. discriminate. Qed.

(** ** The chord parser *)

Section Parser.
Context {U : UnicodeCase}.

Lemma parse_chord_symbol_blank (sym : pystr) :
  accidentals_to_ascii (strip sym) = [] ->
  parse_chord_symbol sym = Raise EmptyChordError.
Proof. intros H. unfold parse_chord_symbol. rewrite H. reflexivity. Qed.

Lemma parse_chord_symbol_nonblank (sym : pystr) :
  accidentals_to_ascii (strip sym) <> [] ->
  exists ch, parse_chord_symbol sym = Ok ch /\ symbol ch = sym.
Proof.
  intros H. unfold parse_chord_symbol.
  destruct (accidentals_to_ascii (strip sym)) as [|c0 s'] eqn:E; [contradiction|].
  match goal with
  | |- context [if ?b then (firstn 2 ?s, skipn 2 ?s) else _] => destruct b
  end; eexists; split; reflexivity.
Qed.

Lemma blank_iff_whitespace (sym : pystr) :
  accidentals_to_ascii (strip sym) = [] <-> forallb isspace sym = true.
Proof. rewrite accidentals_to_ascii_nil. apply strip_nil. Qed.

Lemma comprehension_first_failure {A B : Type} (f : A -> result B)
  (good : list A) (bad : A) (rest : list A) (e : Exception) :
  Forall (fun x => exists y, f x = Ok y) good ->
  f bad = Raise e ->
  comprehension f (good ++ bad :: rest) = Raise e.
Proof.
  intros Hg Hb. induction Hg as [|x good [y Hy] _ IH]; simpl.
  - rewrite Hb. reflexivity.
  - rewrite Hy. simpl. rewrite IH. reflexivity.
Qed.

End Parser.

(** C6.  The chord parser strips the symbol and maps the unicode
    accidentals to ASCII.  What is left is empty exactly when the symbol is
    empty or made of whitespace only; then, and only then, the parser raises
    the empty-chord error.  On every other symbol it returns a descriptor,
    which keeps the symbol as given. *)
Theorem parse_chord_symbol_empty (U : UnicodeCase) (sym : pystr) :
  (accidentals_to_ascii (strip sym) = [] <-> forallb isspace sym = true) /\
  (parse_chord_symbol sym = Raise EmptyChordError
   <-> accidentals_to_ascii (strip sym) = []) /\
  (accidentals_to_ascii (strip sym) <> [] ->
   exists ch, parse_chord_symbol sym = Ok ch /\ symbol ch = sym).
Proof.
  split; [apply blank_iff_whitespace|].
  split; [|apply parse_chord_symbol_nonblank].
  split; [|apply parse_chord_symbol_blank].
  intros H.
  destruct (accidentals_to_ascii (strip sym)) as [|c s] eqn:E; [reflexivity|].
  destruct (parse_chord_symbol_nonblank sym) as (ch & Hch & _).
  - rewrite E. discriminate.
  - rewrite Hch in H. discriminate.
Qed.

(** A symbol of three blanks is refused, the symbol "C" is parsed. *)
Lemma parse_chord_symbol_empty_witness :
  parse_chord_symbol (py "   ") = Raise EmptyChordError
  /\ exists ch, parse_chord_symbol (py "C") = Ok ch /\ symbol ch = py "C".
Proof.
  split.
  - apply (proj2 (proj1 (proj2 (parse_chord_symbol_empty ascii_only (py "   "))))).
    reflexivity.
  - apply (proj2 (proj2 (parse_chord_symbol_empty ascii_only (py "C")))).
    vm_compute. discriminate.
Defined.

(** ** Unknown melody notes *)

(** C5, as the script has it.  The chord is parsed before the melody is
    read.  For a chord symbol that is not blank, any key, and a melody whose
    first name outside the table is [bad], the analysis raises the
    unknown-note error carrying the normal form of [bad], and returns
    nothing. *)
Theorem analyze_unknown_note (U : UnicodeCase) (SO : SetOrder)
  (chord_symbol global_key : pystr) (known : list pystr) (bad : pystr)
  (rest : list pystr) :
  forallb isspace chord_symbol = false ->
  Forall (fun n => In (normalize_note n) note_names) known ->
  ~ In (normalize_note bad) note_names ->
  analyze_chord_and_melody chord_symbol (known ++ bad :: rest) global_key
  = Raise (UnknownNoteError (normalize_note bad)).
Proof.
  intros Hc Hk Hb. unfold analyze_chord_and_melody.
  destruct (parse_chord_symbol_nonblank chord_symbol) as (ch & Hch & _).
  { rewrite blank_iff_whitespace, Hc. discriminate. }
  rewrite Hch. simpl.
  rewrite (comprehension_first_failure note_to_pc known bad rest
             (UnknownNoteError (normalize_note bad))).
  - reflexivity.
  - eapply Forall_impl; [|exact Hk]. intros n Hn.
    destruct (note_to_pc_known n Hn) as (pc & Hpc & _). exists pc; exact Hpc.
  - apply note_to_pc_unknown; exact Hb.
Qed.

(** The scenario of the specification: chord "C", melody "H", key "C". *)
Lemma analyze_unknown_note_witness :
  analyze_chord_and_melody (py "C") [py "H"] (py "C")
  = Raise (UnknownNoteError (py "H")).
Proof.
  apply (analyze_unknown_note ascii_only insertion_order (py "C") (py "C") [] (py "H") []).
  - reflexivity.
  - constructor.
  - vm_compute. intuition discriminate.
Defined.

(** C5 as stated fails for an empty chord symbol: the parser raises first,
    and the unknown name "H" is never looked at. *)
Lemma analyze_empty_chord_before_unknown_note :
  ~ In (normalize_note (py "H")) note_names
  /\ analyze_chord_and_melody (py "") [py "H"] (py "C") = Raise EmptyChordError
  /\ analyze_chord_and_melody (py "") [py "H"] (py "C")
     <> Raise (UnknownNoteError (normalize_note (py "H"))).
Proof.
  split; [vm_compute; intuition discriminate|].
  split; [reflexivity | vm_compute; discriminate].
Qed.

(** ** Core tones *)

Lemma parse_chord_symbol_symbol {U : UnicodeCase} (sym : pystr) (ch : Chord) :
  parse_chord_symbol sym = Ok ch -> symbol ch = sym.
Proof.
  intros H.
  destruct (accidentals_to_ascii (strip sym)) as [|c s] eqn:E.
  - rewrite (parse_chord_symbol_blank sym E) in H. discriminate.
  - destruct (parse_chord_symbol_nonblank sym) as (ch' & Hch & Hs).
    + rewrite E. discriminate.
    + congruence.
Qed.

(** C4.  For a parsed chord the core offsets are [0,4,7,10] when the quality
    is dominant; [0,3,7], with 10 added exactly when the chord has a seventh
    extension or its symbol has the marker m7, when it is minor; [0,4,7],
    with 11 added exactly when the chord has a seventh extension or its
    symbol has a major-seven marker (maj7, ma7), when it is major. *)
Theorem core_tones_by_quality (U : UnicodeCase) (sym : pystr) (ch : Chord) :
  parse_chord_symbol sym = Ok ch ->
  let core := fst (chord_required_semitones ch) in
  match quality ch with
  | Qdom => core = [0; 4; 7; 10]
  | Qmin =>
      (seventh_extension ch \/ m7_marker sym -> core = [0; 3; 7; 10])
      /\ (~ (seventh_extension ch \/ m7_marker sym) -> core = [0; 3; 7])
  | Qmaj =>
      (seventh_extension ch \/ major_seven_marker sym -> core = [0; 4; 7; 11])
      /\ (~ (seventh_extension ch \/ major_seven_marker sym) -> core = [0; 4; 7])
  end.
Proof.
  intros H. apply parse_chord_symbol_symbol in H.
  unfold chord_required_semitones, seventh_extension, m7_marker,
    major_seven_marker. simpl fst. rewrite H.
  destruct (quality ch); [ | | reflexivity];
    match goal with
    | |- context [if ?c then _ else _] =>
        match goal with
        | |- (?P -> _) /\ _ =>
            assert (Hb : c = true <-> P)
              by (rewrite ?orb_true_iff, str_mem_In; tauto);
            destruct c
        end
    end;
    (split; intros HP;
     [ first [ reflexivity | apply Hb in HP; discriminate HP ]
     | first [ reflexivity | exfalso; apply HP, Hb; reflexivity ] ]).
Qed.

(** The scenario of the specification: "Ebm7" is the minor chord on Eb, and
    its core is [0,3,7,10]. *)
Lemma core_tones_by_quality_witness :
  exists ch,
    parse_chord_symbol (py "Ebm7") = Ok ch
    /\ root ch = py "Eb" /\ quality ch = Qmin
    /\ fst (chord_required_semitones ch) = [0; 3; 7; 10].
Proof.
  eexists. split; [reflexivity|].
  split; [reflexivity|]. split; [reflexivity|].
  refine (proj1 (core_tones_by_quality ascii_only (py "Ebm7") _ eq_refl) _).
  left. vm_compute. auto.
Defined.

(** The delta sign alone selects the major quality and adds no seventh
    (with a case table that leaves the sign as it is, as Python does). *)
Example delta_alone_has_no_seventh :
  exists ch,
    parse_chord_symbol (py "C" ++ [DELTA]) = Ok ch
    /\ quality ch = Qmaj
    /\ fst (chord_required_semitones ch) = [0; 4; 7].
Proof. eexists. repeat split. Qed.

(** ** Sets of pitch classes *)

Lemma int_mem_In (x : Z) (xs : list Z) : int_mem x xs = true <-> In x xs.
Proof.
  unfold int_mem. rewrite existsb_exists. split.
  - intros (y & Hy & E). apply Z.eqb_eq in E. subst; assumption.
  - intros H. exists x. split; [assumption | apply Z.eqb_refl].
Qed.

Lemma int_mem_false (x : Z) (xs : list Z) : int_mem x xs = false <-> ~ In x xs.
Proof.
  rewrite <- int_mem_In. destruct (int_mem x xs); split; congruence.
Qed.

Lemma set_add_all_In (xs acc : list Z) (x : Z) :
  In x (set_add_all xs acc) <-> In x xs \/ In x acc.
Proof.
  revert acc; induction xs as [|y xs IH]; intros acc; simpl.
  - tauto.
  - rewrite IH. destruct (int_mem y acc) eqn:E.
    + apply int_mem_In in E. split; [tauto|].
      intros [[-> | H] | H]; auto.
    + rewrite in_app_iff. simpl. tauto.
Qed.

Lemma set_add_all_NoDup (xs acc : list Z) :
  NoDup acc -> NoDup (set_add_all xs acc).
Proof.
  revert acc; induction xs as [|y xs IH]; intros acc H; simpl; [assumption|].
  apply IH. destruct (int_mem y acc) eqn:E; [assumption|].
  apply int_mem_false in E.
  apply NoDup_rev in H. rewrite <- (rev_involutive (acc ++ [y])).
  apply NoDup_rev. rewrite rev_app_distr. simpl.
  constructor; [rewrite <- in_rev; assumption | assumption].
Qed.

(** A set holds the elements of the list it is built from, once each. *)
Lemma pyset_In (xs : list Z) (x : Z) : In x (pyset xs) <-> In x xs.
Proof. unfold pyset. rewrite set_add_all_In. simpl. tauto. Qed.

Lemma pyset_NoDup (xs : list Z) : NoDup (pyset xs).
Proof. apply set_add_all_NoDup. constructor. Qed.

Lemma int_mem_pyset (x : Z) (xs : list Z) : int_mem x (pyset xs) = int_mem x xs.
Proof.
  destruct (int_mem x xs) eqn:E.
  - apply int_mem_In, pyset_In, int_mem_In, E.
  - apply int_mem_false. rewrite pyset_In. apply int_mem_false, E.
Qed.

(** ** The melody function classifier *)

Section Classifier.
Local Open Scope nat_scope.

Lemma label_append_length i l labels :
  List.length (label_append i l labels) = List.length labels.
Proof.
  revert i; induction labels as [|ls rest IH]; intros [|i]; simpl; auto.
Qed.

Lemma label_append_nth i l labels j :
  nth j (label_append i l labels) [] =
  if (i =? j) && (i <? List.length labels)
  then nth j labels [] ++ [l] else nth j labels [].
Proof.
  revert i j; induction labels as [|ls rest IH]; intros i j; simpl.
  - destruct j; simpl; rewrite andb_false_r; destruct i; reflexivity.
  - destruct i as [|i], j as [|j]; simpl; try reflexivity.
    rewrite IH. reflexivity.
Qed.

Lemma apply_events_app evs1 evs2 labels :
  apply_events (evs1 ++ evs2) labels = apply_events evs2 (apply_events evs1 labels).
Proof. unfold apply_events. apply fold_left_app. Qed.

Lemma apply_events_length evs labels :
  List.length (apply_events evs labels) = List.length labels.
Proof.
  revert labels; induction evs as [|e evs IH]; intros labels; simpl; auto.
  unfold apply_events in *. simpl. rewrite IH. apply label_append_length.
Qed.

(** The labels at an index are the labels of the appends that went there,
    in order. *)
Lemma apply_events_nth evs labels j :
  j < List.length labels ->
  nth j (apply_events evs labels) [] =
  nth j labels [] ++ map snd (filter (fun e => fst e =? j) evs).
Proof.
  revert labels; induction evs as [|[i l] evs IH]; intros labels Hj.
  - simpl. rewrite app_nil_r. reflexivity.
  - change (apply_events ((i, l) :: evs) labels)
      with (apply_events evs (label_append i l labels)).
    rewrite IH by (rewrite label_append_length; exact Hj).
    rewrite label_append_nth. simpl.
    destruct (i =? j) eqn:E; simpl.
    + apply Nat.eqb_eq in E. subst i.
      apply Nat.ltb_lt in Hj. rewrite Hj. rewrite <- app_assoc. reflexivity.
    + reflexivity.
Qed.

Lemma fold_left_events {A : Type}
  (step : list (list FunctionLabel) -> A -> list (list FunctionLabel))
  (ev : A -> list event) (xs : list A) labels :
  (forall lb x, step lb x = apply_events (ev x) lb) ->
  fold_left step xs labels = apply_events (flat_map ev xs) labels.
Proof.
  intros H. revert labels; induction xs as [|x xs IH]; intros labels; simpl.
  - reflexivity.
  - rewrite apply_events_app, IH, H. reflexivity.
Qed.

Lemma fold_left_over_map {A B C : Type} (f : A -> C -> A) (g : B -> C)
  (l : list B) (a : A) :
  fold_left f (map g l) a = fold_left (fun a x => f a (g x)) l a.
Proof. revert a; induction l as [|x l IH]; intros a; simpl; auto. Qed.

Lemma enumerate_seq (m : list Z) :
  enumerate m = map (fun i => (i, nth i m 0%Z)) (seq 0 (List.length m)).
Proof.
  unfold enumerate.
  assert (G : forall (l : list Z) k,
             combine (seq k (List.length l)) l
             = map (fun i => (i, nth (i - k) l 0%Z)) (seq k (List.length l))).
  { induction l as [|x l IH]; intros k; simpl; [reflexivity|].
    rewrite Nat.sub_diag. f_equal. rewrite IH.
    apply map_ext_in. intros i Hi. apply in_seq in Hi.
    replace (i - k) with (S (i - S k)) by lia. reflexivity. }
  rewrite G. apply map_ext. intros i. rewrite Nat.sub_0_r. reflexivity.
Qed.

Lemma tone_step_events gts cts m lb i :
  tone_step gts cts lb (i, nth i m 0%Z) = apply_events (tone_events gts cts m i) lb.
Proof.
  unfold tone_step, tone_events.
  destruct (int_mem (nth i m 0%Z) gts), (int_mem (nth i m 0%Z) cts); reflexivity.
Qed.

Lemma scale_line_step_events m lb i :
  scale_line_step m lb i = apply_events (scale_line_events m i) lb.
Proof.
  unfold scale_line_step, scale_line_events. cbv zeta.
  match goal with |- context [if ?b then _ else _] => destruct b end; reflexivity.
Qed.

Lemma neighbor_step_events cts m lb i :
  neighbor_step cts m lb i = apply_events (neighbor_events cts m i) lb.
Proof.
  unfold neighbor_step, neighbor_events. cbv zeta.
  repeat match goal with
         | |- context [if ?b then _ else _] => destruct b
         end; reflexivity.
Qed.

Lemma passing_step_events cts m lb i :
  passing_step cts m lb i = apply_events (passing_events cts m i) lb.
Proof.
  unfold passing_step, passing_events. cbv zeta.
  repeat match goal with
         | |- context [if ?b then _ else _] => destruct b
         end; reflexivity.
Qed.

(** The classifier returns, for each index, the labels appended there. *)
Lemma analyze_melody_functions_events m root_pc q :
  analyze_melody_functions m root_pc q =
  apply_events (all_events m root_pc q) (repeat [] (List.length m)).
Proof.
  unfold analyze_melody_functions, all_events. cbv zeta.
  rewrite !apply_events_app.
  rewrite <- (fold_left_events _ _ _ _ (passing_step_events _ m)).
  rewrite <- (fold_left_events _ _ _ _ (neighbor_step_events _ m)).
  rewrite <- (fold_left_events _ _ _ _ (scale_line_step_events m)).
  do 3 f_equal.
  rewrite enumerate_seq, fold_left_over_map.
  apply (fold_left_events
           (fun lb i => tone_step _ _ lb (i, nth i m 0%Z))
           (tone_events _ _ m)).
  intros lb i. apply tone_step_events.
Qed.

Lemma analyze_melody_functions_length m root_pc q :
  List.length (analyze_melody_functions m root_pc q) = List.length m.
Proof.
  rewrite analyze_melody_functions_events, apply_events_length.
  apply repeat_length.
Qed.

Lemma analyze_melody_functions_nth m root_pc q j :
  j < List.length m ->
  nth j (analyze_melody_functions m root_pc q) [] =
  map snd (filter (fun e => fst e =? j) (all_events m root_pc q)).
Proof.
  intros Hj. rewrite analyze_melody_functions_events.
  rewrite apply_events_nth by (rewrite repeat_length; exact Hj).
  rewrite nth_repeat. reflexivity.
Qed.

End Classifier.

Section ClassifierTheorems.
Local Open Scope nat_scope.

Lemma guide_tones_chord_tones (root_pc : Z) (q : Quality) (pc : Z) :
  In pc (guide_tones root_pc q) -> In pc (chord_tones root_pc q).
Proof.
  unfold guide_tones, chord_tones.
  destruct q; rewrite !pyset_In; simpl; intuition.
Qed.

Lemma tone_events_In gts cts m k (e : event) :
  In e (tone_events gts cts m k) <->
  (e = (k, guide_tone) /\ int_mem (nth k m 0%Z) gts = true)
  \/ (e = (k, chord_tone) /\ int_mem (nth k m 0%Z) cts = true).
Proof.
  unfold tone_events. rewrite in_app_iff.
  destruct (int_mem (nth k m 0%Z) gts), (int_mem (nth k m 0%Z) cts);
    simpl; intuition (congruence || auto).
Qed.

Lemma scale_line_events_label m k (e : event) :
  In e (scale_line_events m k) -> snd e = scale_line.
Proof.
  unfold scale_line_events. cbv zeta.
  match goal with |- context [if ?b then _ else _] => destruct b end;
    simpl; intuition (subst; reflexivity).
Qed.

Lemma neighbor_events_label cts m k (e : event) :
  In e (neighbor_events cts m k) ->
  fst e = k /\ (snd e = upper_neighbor \/ snd e = lower_neighbor).
Proof.
  unfold neighbor_events. cbv zeta.
  repeat match goal with |- context [if ?b then _ else _] => destruct b end;
    simpl; intuition (subst; auto).
Qed.

Lemma passing_events_label cts m k (e : event) :
  In e (passing_events cts m k) ->
  fst e = k /\ (snd e = passing_tone \/ snd e = chromatic_passing_tone).
Proof.
  unfold passing_events. cbv zeta.
  repeat match goal with |- context [if ?b then _ else _] => destruct b end;
    simpl; intuition (subst; auto).
Qed.

(** The only loop that appends [guide_tone] is the first one. *)
Lemma guide_tone_event m root_pc q j :
  In (j, guide_tone) (all_events m root_pc q) ->
  j < List.length m
  /\ int_mem (nth j m 0%Z) (guide_tones root_pc q) = true.
Proof.
  unfold all_events. cbv zeta. rewrite !in_app_iff, !in_flat_map.
  intros [(k & Hk & He) | [(k & _ & He) | [(k & _ & He) | (k & _ & He)]]].
  - apply tone_events_In in He. apply in_seq in Hk.
    destruct He as [[E H] | [E _]]; [|discriminate].
    inversion E; subst. split; [lia | exact H].
  - apply scale_line_events_label in He. discriminate.
  - apply neighbor_events_label in He. simpl in He. intuition discriminate.
  - apply passing_events_label in He. simpl in He. intuition discriminate.
Qed.

Lemma label_at_index m root_pc q j (l : FunctionLabel) :
  In l (nth j (analyze_melody_functions m root_pc q) []) <->
  j < List.length m /\ In (j, l) (all_events m root_pc q).
Proof.
  destruct (Nat.lt_ge_cases j (List.length m)) as [Hj | Hj].
  - rewrite analyze_melody_functions_nth by exact Hj.
    rewrite in_map_iff. split.
    + intros ([i l'] & E & H). apply filter_In in H. simpl in *.
      destruct H as [H Hi]. apply Nat.eqb_eq in Hi. subst. auto.
    + intros [_ H]. exists (j, l). split; [reflexivity|].
      apply filter_In. simpl. rewrite Nat.eqb_refl. auto.
  - rewrite nth_overflow
      by (rewrite analyze_melody_functions_length; exact Hj).
    simpl. split; [tauto | lia].
Qed.

(** *** Counting the labels at an index *)

Lemma cnt_app j l evs1 evs2 :
  cnt j l (evs1 ++ evs2) = cnt j l evs1 + cnt j l evs2.
Proof. unfold cnt. rewrite filter_app, map_app, count_occ_app. reflexivity. Qed.

Lemma cnt_flat_map_le (f : nat -> list event) (g : nat -> nat) xs j l :
  (forall i, In i xs -> cnt j l (f i) <= g i) ->
  cnt j l (flat_map f xs) <= list_sum (map g xs).
Proof.
  induction xs as [|x xs IH]; intros H; simpl.
  - unfold cnt. simpl. lia.
  - rewrite cnt_app.
    pose proof (H x (or_introl eq_refl)).
    assert (cnt j l (flat_map f xs) <= list_sum (map g xs))
      by (apply IH; intros i Hi; apply H; right; exact Hi).
    lia.
Qed.

(** An index is met at most once by a loop over a range. *)
Lemma at_index_sum c a k : list_sum (map (at_index c) (seq a k)) <= 1.
Proof.
  assert (G : forall k a, c < a -> list_sum (map (at_index c) (seq a k)) = 0).
  { clear. induction k as [|k IH]; intros a H; simpl; [reflexivity|].
    rewrite IH by lia. unfold at_index.
    destruct (a =? c) eqn:E; [apply Nat.eqb_eq in E; lia | reflexivity]. }
  revert a; induction k as [|k IH]; intros a; simpl; [lia|].
  unfold at_index at 1. destruct (a =? c) eqn:E.
  - apply Nat.eqb_eq in E. rewrite G by lia. lia.
  - specialize (IH (S a)). lia.
Qed.

Lemma list_sum_map_add (f g : nat -> nat) xs :
  list_sum (map (fun i => f i + g i) xs)
  = list_sum (map f xs) + list_sum (map g xs).
Proof. induction xs as [|x xs IH]; simpl; lia. Qed.

Lemma list_sum_map_zero (xs : list nat) :
  list_sum (map (fun _ : nat => 0) xs) = 0.
Proof. induction xs as [|x xs IH]; simpl; auto. Qed.

Lemma tone_events_cnt gts cts m i j l :
  cnt j l (tone_events gts cts m i) <= tone_cap l * at_index j i.
Proof.
  unfold tone_events, cnt, at_index.
  destruct (i =? j) eqn:E; cbv iota; split_ifs;
    cbn [filter fst snd map app]; rewrite ?E; destruct l; simpl; lia.
Qed.

Lemma neighbor_events_cnt cts m i j l :
  cnt j l (neighbor_events cts m i) <= neighbor_cap l * at_index j i.
Proof.
  unfold neighbor_events, cnt, at_index. cbv zeta.
  destruct (i =? j) eqn:E; cbv iota; split_ifs;
    cbn [filter fst snd map]; rewrite ?E; destruct l; simpl; lia.
Qed.

Lemma passing_events_cnt cts m i j l :
  cnt j l (passing_events cts m i) <= passing_cap l * at_index j i.
Proof.
  unfold passing_events, cnt, at_index. cbv zeta.
  destruct (i =? j) eqn:E; cbv iota; split_ifs;
    cbn [filter fst snd map]; rewrite ?E; destruct l; simpl; lia.
Qed.

Lemma scale_line_events_cnt m i j l :
  1 <= i ->
  cnt j l (scale_line_events m i)
  <= at_index (S j) i + at_index j i + at_index (j - 1) i.
Proof.
  intros Hi. unfold scale_line_events, cnt, at_index. cbv zeta.
  match goal with |- context [if ?b then _ :: _ else _] => destruct b end;
    [|simpl; lia].
  cbn [filter fst snd].
  destruct (i - 1 =? j) eqn:E1; destruct (i =? j) eqn:E2;
    destruct (i + 1 =? j) eqn:E3;
    destruct (i =? S j) eqn:E4; destruct (i =? j - 1) eqn:E5;
    rewrite ?Nat.eqb_eq, ?Nat.eqb_neq in *; try lia;
    destruct l; simpl; lia.
Qed.

Lemma scale_line_events_other m i j l :
  l <> scale_line -> cnt j l (scale_line_events m i) = 0.
Proof.
  intros H. unfold cnt. apply count_occ_not_In. intros H'.
  apply in_map_iff in H'. destruct H' as (e & E & He).
  apply filter_In in He. destruct He as [He _].
  apply scale_line_events_label in He. congruence.
Qed.

Lemma loop_cnt (f : nat -> list event) (cap : nat) a k j l :
  (forall i, cnt j l (f i) <= cap * at_index j i) ->
  cnt j l (flat_map f (seq a k)) <= cap.
Proof.
  intros H.
  pose proof (cnt_flat_map_le f (fun i => cap * at_index j i) (seq a k) j l
                (fun i _ => H i)) as B.
  assert (S : list_sum (map (fun i => cap * at_index j i) (seq a k))
              = cap * list_sum (map (at_index j) (seq a k))).
  { clear. induction (seq a k) as [|x xs IH]; simpl; lia. }
  pose proof (at_index_sum j a k). nia.
Qed.

Lemma scale_line_loop_cnt m k j l :
  cnt j l (flat_map (scale_line_events m) (seq 1 k)) <= scale_line_cap l.
Proof.
  destruct (label_eq_dec l scale_line) as [-> | Hl].
  - simpl.
    pose proof (cnt_flat_map_le (scale_line_events m)
                  (fun i => at_index (S j) i + (at_index j i + at_index (j - 1) i))
                  (seq 1 k) j scale_line) as B.
    rewrite !list_sum_map_add in B.
    pose proof (at_index_sum (S j) 1 k).
    pose proof (at_index_sum j 1 k).
    pose proof (at_index_sum (j - 1) 1 k).
    assert (cnt j scale_line (flat_map (scale_line_events m) (seq 1 k))
            <= list_sum (map (at_index (S j)) (seq 1 k))
               + (list_sum (map (at_index j) (seq 1 k))
                  + list_sum (map (at_index (j - 1)) (seq 1 k)))).
    { apply B. intros i Hi. apply in_seq in Hi.
      pose proof (scale_line_events_cnt m i j scale_line). lia. }
    lia.
  - pose proof (cnt_flat_map_le (scale_line_events m) (fun _ => 0)
                  (seq 1 k) j l) as B.
    rewrite list_sum_map_zero in B.
    assert (cnt j l (flat_map (scale_line_events m) (seq 1 k)) <= 0); [|lia].
    apply B. intros i _.
    rewrite scale_line_events_other by exact Hl. lia.
Qed.

End ClassifierTheorems.

(** C10.  For each quality the guide tones are among the chord tones, so an
    index of the melody that carries [guide_tone] carries [chord_tone]
    too. *)
Theorem guide_tone_is_chord_tone (melody_pcs : list Z) (root_pc : Z)
  (q : Quality) (i : nat) :
  (forall pc, In pc (guide_tones root_pc q) -> In pc (chord_tones root_pc q))
  /\ (In guide_tone (nth i (analyze_melody_functions melody_pcs root_pc q) [])
      -> In chord_tone (nth i (analyze_melody_functions melody_pcs root_pc q) [])).
Proof.
  split; [apply guide_tones_chord_tones|].
  rewrite !label_at_index. intros [Hi H].
  split; [exact Hi|].
  apply guide_tone_event in H. destruct H as [_ H].
  apply int_mem_In, guide_tones_chord_tones, int_mem_In in H.
  unfold all_events. cbv zeta. rewrite in_app_iff. left.
  apply in_flat_map. exists i. split; [apply in_seq; lia|].
  apply tone_events_In. right. split; [reflexivity | exact H].
Qed.

(** The third of C major, E, over the chord C. *)
Lemma guide_tone_is_chord_tone_witness :
  In chord_tone (nth 0 (analyze_melody_functions [4] 0 Qmaj) []).
Proof.
  apply (proj2 (guide_tone_is_chord_tone [4] 0 Qmaj 0)).
  simpl. auto.
Defined.

(** ** Rounding to a double *)

Section FloatFacts.
Local Open Scope Q_scope.

Lemma two_not_0 : ~ 2 == 0.
Proof. discriminate. Qed.

Lemma pow2_pos (z : Z) : 0 < pow2 z.
Proof. apply Qpower_0_lt. reflexivity. Qed.

Lemma pow2_add (a b : Z) : pow2 (a + b) == pow2 a * pow2 b.
Proof. apply Qpower_plus, two_not_0. Qed.

Lemma pow2_sub (a b : Z) : pow2 (a - b) == pow2 a / pow2 b.
Proof. apply Qpower_minus, two_not_0. Qed.

Lemma pow2_le (a b : Z) : (a <= b)%Z -> pow2 a <= pow2 b.
Proof. intros H. apply Qpower_le_compat_l; [exact H | discriminate]. Qed.

Lemma pow2_lt (a b : Z) : (a < b)%Z -> pow2 a < pow2 b.
Proof. intros H. apply Qpower_lt_compat_l; [exact H | reflexivity]. Qed.

Lemma pow2_lt_inv (a b : Z) : pow2 a < pow2 b -> (a < b)%Z.
Proof. intros H. apply (Qpower_lt_compat_l_inv 2); [exact H | reflexivity]. Qed.

Lemma pow2_Z (z : Z) : (0 <= z)%Z -> pow2 z == inject_Z (2 ^ z).
Proof. intros H. symmetry. apply (Zpower_Qpower 2 z H). Qed.

Lemma pow2_succ (z : Z) : pow2 (z + 1) == 2 * pow2 z.
Proof. rewrite pow2_add. change (pow2 1) with 2. ring. Qed.

(** *** The binary exponent *)

Lemma ilog2_spec (q : Q) :
  0 < q -> pow2 (ilog2 q) <= q /\ q < pow2 (ilog2 q + 1).
Proof.
  intros Hq. unfold ilog2.
  destruct q as [n dn]. cbn [Qnum Qden].
  assert (Hn : (0 < n)%Z) by (unfold Qlt in Hq; simpl in Hq; lia).
  set (la := Z.log2 n). set (lb := Z.log2 (Z.pos dn)).
  assert (A : (2 ^ la <= n < 2 ^ (la + 1))%Z).
  { unfold la. pose proof (Z.log2_spec n Hn). rewrite Z.add_1_r. exact H. }
  assert (B : (2 ^ lb <= Z.pos dn < 2 ^ (lb + 1))%Z).
  { unfold lb. pose proof (Z.log2_spec (Z.pos dn) eq_refl).
    rewrite Z.add_1_r. exact H. }
  assert (La : (0 <= la)%Z) by apply Z.log2_nonneg.
  assert (Lb : (0 <= lb)%Z) by apply Z.log2_nonneg.
  assert (Q1 : n # dn == inject_Z n / inject_Z (Z.pos dn)) by apply Qmake_Qdiv.
  assert (Dp : 0 < inject_Z (Z.pos dn)) by reflexivity.
  assert (Pa : pow2 la == inject_Z (2 ^ la)) by (apply pow2_Z, La).
  assert (Pb : pow2 lb == inject_Z (2 ^ lb)) by (apply pow2_Z, Lb).
  assert (Pb0 : 0 < pow2 lb) by apply pow2_pos.
  assert (An : inject_Z (2 ^ la) <= inject_Z n) by (rewrite <- Zle_Qle; lia).
  assert (An' : inject_Z n < 2 * inject_Z (2 ^ la)).
  { change 2 with (inject_Z 2). rewrite <- inject_Z_mult, <- Zlt_Qlt.
    rewrite Z.pow_add_r in A by lia. lia. }
  assert (Bn : inject_Z (2 ^ lb) <= inject_Z (Z.pos dn))
    by (rewrite <- Zle_Qle; lia).
  assert (Bn' : inject_Z (Z.pos dn) < 2 * inject_Z (2 ^ lb)).
  { change 2 with (inject_Z 2). rewrite <- inject_Z_mult, <- Zlt_Qlt.
    rewrite Z.pow_add_r in B by lia. lia. }
  (* q lies between 2^(d-1) and 2^(d+1) *)
  assert (Lo : pow2 (la - lb - 1) <= n # dn).
  { rewrite Q1. replace (la - lb - 1)%Z with (la - (lb + 1))%Z by ring.
    rewrite pow2_sub, pow2_succ, Pa, Pb.
    apply Qle_shift_div_l; [exact Dp|].
    rewrite <- Pb in *. rewrite <- Pa in *.
    set (x := pow2 la) in *. set (y := pow2 lb) in *.
    set (N := inject_Z n) in *. set (D := inject_Z (Z.pos dn)) in *.
    assert (X0 : 0 < x) by apply pow2_pos.
    assert (Z1 : x / (2 * y) * (2 * y) == x) by (field; lra).
    assert (Z0 : 0 < x / (2 * y)) by (apply Qlt_shift_div_l; lra).
    set (z := x / (2 * y)) in *. nra. }
  assert (Hi : n # dn < pow2 (la - lb + 1)).
  { rewrite Q1. replace (la - lb + 1)%Z with (la + 1 - lb)%Z by ring.
    rewrite pow2_sub, pow2_succ, Pa, Pb.
    rewrite <- Pb in *. rewrite <- Pa in *.
    set (x := pow2 la) in *. set (y := pow2 lb) in *.
    set (N := inject_Z n) in *. set (D := inject_Z (Z.pos dn)) in *.
    apply Qlt_shift_div_r; [exact Dp|].
    assert (X0 : 0 < x) by apply pow2_pos.
    assert (Z1 : 2 * x / y * y == 2 * x) by (field; lra).
    assert (Z0 : 0 < 2 * x / y) by (apply Qlt_shift_div_l; lra).
    set (z := 2 * x / y) in *. nra. }
  destruct (Qle_bool (pow2 (la - lb)) (n # dn)) eqn:E.
  - apply Qle_bool_iff in E. split; [exact E | exact Hi].
  - split; [exact Lo|].
    replace (la - lb - 1 + 1)%Z with (la - lb)%Z by ring.
    apply Qnot_le_lt. intros C. apply Qle_bool_iff in C. congruence.
Qed.

Lemma ilog2_unique (q : Q) (k : Z) :
  pow2 k <= q -> q < pow2 (k + 1) -> ilog2 q = k.
Proof.
  intros L H.
  assert (Hq : 0 < q) by (pose proof (pow2_pos k); lra).
  destruct (ilog2_spec q Hq) as [L' H'].
  assert (A : (ilog2 q < k + 1)%Z) by (apply pow2_lt_inv; lra).
  assert (B : (k < ilog2 q + 1)%Z) by (apply pow2_lt_inv; lra).
  lia.
Qed.

Lemma ilog2_le (q q' : Q) : 0 < q -> q <= q' -> (ilog2 q <= ilog2 q')%Z.
Proof.
  intros Hq H.
  destruct (ilog2_spec q Hq) as [L _].
  destruct (ilog2_spec q') as [_ H']; [lra|].
  assert (A : (ilog2 q < ilog2 q' + 1)%Z) by (apply pow2_lt_inv; lra).
  lia.
Qed.

(** *** Rounding to an integer *)

Lemma round_half_even_floor (q : Q) :
  (Qfloor q <= round_half_even q <= Qfloor q + 1)%Z.
Proof.
  unfold round_half_even.
  destruct (Qcompare _ _); [destruct (Z.even _)|..]; lia.
Qed.

Lemma round_half_even_Z (k : Z) : round_half_even (inject_Z k) = k.
Proof.
  unfold round_half_even. rewrite Qfloor_Z.
  assert (E : inject_Z k - inject_Z k < 1 # 2) by lra.
  rewrite Qlt_alt in E. rewrite E. reflexivity.
Qed.

Lemma round_half_even_comp (q q' : Q) :
  q == q' -> round_half_even q = round_half_even q'.
Proof.
  intros H. unfold round_half_even.
  rewrite (Qfloor_comp _ _ H).
  assert (E : q - inject_Z (Qfloor q') == q' - inject_Z (Qfloor q'))
    by (rewrite H; reflexivity).
  rewrite (Qcompare_comp _ _ E _ _ (Qeq_refl (1 # 2))). reflexivity.
Qed.

Lemma round_half_even_le (q q' : Q) :
  q <= q' -> (round_half_even q <= round_half_even q')%Z.
Proof.
  intros H.
  pose proof (Qfloor_resp_le _ _ H) as F.
  pose proof (round_half_even_floor q) as [_ U].
  pose proof (round_half_even_floor q') as [L _].
  destruct (Z.eq_dec (Qfloor q) (Qfloor q')) as [E | N]; [|lia].
  unfold round_half_even. rewrite <- E.
  destruct (Qcompare (q - inject_Z (Qfloor q)) (1 # 2)) eqn:C1;
    destruct (Qcompare (q' - inject_Z (Qfloor q)) (1 # 2)) eqn:C2;
    try (destruct (Z.even (Qfloor q))); try lia; exfalso;
    repeat match goal with
           | H : Qcompare _ _ = Eq |- _ => apply Qeq_alt in H
           | H : Qcompare _ _ = Lt |- _ => apply Qlt_alt in H
           | H : Qcompare _ _ = Gt |- _ => apply Qgt_alt in H
           end; lra.
Qed.


(** *** Rounding a positive number *)

Lemma ilog2_comp (q q' : Q) : 0 < q -> q == q' -> ilog2 q = ilog2 q'.
Proof.
  intros Hq E. symmetry.
  destruct (ilog2_spec q Hq) as [L H].
  apply ilog2_unique; rewrite <- E; assumption.
Qed.

Lemma rnd_pos_comp (q q' : Q) : 0 < q -> q == q' -> rnd_pos q == rnd_pos q'.
Proof.
  intros Hq E. unfold rnd_pos, ulp_exp. cbv zeta.
  rewrite <- (ilog2_comp q q' Hq E).
  set (x := Z.max (ilog2 q - 52) (-1074)).
  rewrite (round_half_even_comp (q / pow2 x) (q' / pow2 x))
    by (rewrite E; reflexivity).
  reflexivity.
Qed.

Lemma scaled_pos (q : Q) (x : Z) : 0 < q -> 0 < q / pow2 x.
Proof.
  intros Hq. apply Qlt_shift_div_l; [apply pow2_pos | lra].
Qed.

Lemma round_half_even_nonneg (m : Q) : 0 <= m -> (0 <= round_half_even m)%Z.
Proof.
  intros H. rewrite <- (round_half_even_Z 0).
  apply round_half_even_le. exact H.
Qed.

Lemma round_half_even_small (m : Q) :
  0 <= m -> m < 1 # 2 -> round_half_even m = 0%Z.
Proof.
  intros H0 H1. unfold round_half_even.
  assert (F : Qfloor m = 0%Z).
  { pose proof (Qfloor_le m) as A. pose proof (Qlt_floor m) as B.
    assert (A' : (Qfloor m < 1)%Z)
      by (rewrite Zlt_Qlt; change (inject_Z 1) with 1; lra).
    assert (B' : (0 < Qfloor m + 1)%Z)
      by (rewrite Zlt_Qlt; change (inject_Z 0) with 0; lra).
    lia. }
  rewrite F.
  assert (E : m - inject_Z 0 < 1 # 2) by (change (inject_Z 0) with 0; lra).
  rewrite Qlt_alt in E. rewrite E. reflexivity.
Qed.

Lemma rnd_pos_nonneg (q : Q) : 0 < q -> 0 <= rnd_pos q.
Proof.
  intros Hq. unfold rnd_pos. cbv zeta.
  pose proof (pow2_pos (ulp_exp q)) as P.
  pose proof (round_half_even_nonneg (q / pow2 (ulp_exp q))
                (Qlt_le_weak _ _ (scaled_pos q _ Hq))) as R.
  rewrite Zle_Qle in R. change (inject_Z 0) with 0 in R. nra.
Qed.

Lemma rnd_pos_upper (q : Q) : 0 < q -> rnd_pos q <= pow2 (ilog2 q + 1).
Proof.
  intros Hq. unfold rnd_pos. cbv zeta.
  destruct (ilog2_spec q Hq) as [_ H].
  set (e := ilog2 q) in *. set (x := ulp_exp q).
  pose proof (pow2_pos x) as Px.
  assert (M : q / pow2 x < pow2 (e + 1 - x)).
  { rewrite pow2_sub. apply Qlt_shift_div_l; [exact Px|].
    assert (E : pow2 (e + 1) / pow2 x * pow2 x == pow2 (e + 1)) by (field; lra).
    assert (E' : q / pow2 x * pow2 x == q) by (field; lra).
    rewrite E'. exact H. }
  destruct (Z_le_gt_dec 0 (e + 1 - x)) as [G | G].
  - rewrite (pow2_Z _ G) in M.
    pose proof (round_half_even_le _ _ (Qlt_le_weak _ _ M)) as R.
    rewrite round_half_even_Z in R. rewrite Zle_Qle in R.
    rewrite <- (pow2_Z _ G) in R.
    assert (E : pow2 (e + 1) == pow2 (e + 1 - x) * pow2 x)
      by (rewrite <- pow2_add; replace (e + 1 - x + x)%Z with (e + 1)%Z by ring;
          reflexivity).
    rewrite E. apply Qmult_le_compat_r; [exact R | lra].
  - assert (S : pow2 (e + 1 - x) <= 1 # 2)
      by (change (1 # 2) with (pow2 (-1)); apply pow2_le; lia).
    rewrite (round_half_even_small (q / pow2 x)).
    + pose proof (pow2_pos (e + 1)). change (inject_Z 0) with 0. lra.
    + apply Qlt_le_weak, scaled_pos, Hq.
    + lra.
Qed.

Lemma rnd_pos_lower (q : Q) :
  0 < q -> (-1074 <= ilog2 q - 52)%Z -> pow2 (ilog2 q) <= rnd_pos q.
Proof.
  intros Hq He. unfold rnd_pos, ulp_exp. cbv zeta.
  rewrite Z.max_l by exact He.
  destruct (ilog2_spec q Hq) as [L _].
  set (e := ilog2 q) in *.
  pose proof (pow2_pos (e - 52)) as Px.
  assert (M : inject_Z (2 ^ 52) <= q / pow2 (e - 52)).
  { rewrite <- (pow2_Z 52) by lia.
    apply Qle_shift_div_l; [exact Px|].
    rewrite <- pow2_add. replace (52 + (e - 52))%Z with e by ring. exact L. }
  pose proof (round_half_even_le _ _ M) as R.
  rewrite round_half_even_Z in R. rewrite Zle_Qle in R.
  rewrite <- (pow2_Z 52) in R by lia.
  assert (E : pow2 e == pow2 52 * pow2 (e - 52))
    by (rewrite <- pow2_add; replace (52 + (e - 52))%Z with e by ring;
        reflexivity).
  rewrite E. apply Qmult_le_compat_r; [exact R | lra].
Qed.

Lemma rnd_pos_le (q q' : Q) : 0 < q -> q <= q' -> rnd_pos q <= rnd_pos q'.
Proof.
  intros Hq H.
  assert (Hq' : 0 < q') by lra.
  pose proof (ilog2_le q q' Hq H) as E.
  destruct (Z.eq_dec (ulp_exp q) (ulp_exp q')) as [X | X].
  - unfold rnd_pos. cbv zeta. rewrite <- X.
    pose proof (pow2_pos (ulp_exp q)) as Px.
    apply Qmult_le_compat_r; [|lra].
    rewrite <- Zle_Qle. apply round_half_even_le.
    apply Qle_shift_div_l; [exact Px|].
    assert (E' : q / pow2 (ulp_exp q) * pow2 (ulp_exp q) == q) by (field; lra).
    rewrite E'. exact H.
  - unfold ulp_exp in X.
    assert (A : (-1074 <= ilog2 q' - 52)%Z) by lia.
    assert (B : (ilog2 q + 1 <= ilog2 q')%Z) by lia.
    pose proof (rnd_pos_upper q Hq) as U.
    pose proof (rnd_pos_lower q' Hq' A) as L.
    pose proof (pow2_le _ _ B). lra.
Qed.

(** A number with at most 53 binary digits above the smallest exponent is
    a double: rounding leaves it as it is. *)
Lemma rnd_pos_fix (N x : Z) :
  (0 < N <= 2 ^ 53)%Z -> (-1074 <= x)%Z ->
  rnd_pos (inject_Z N * pow2 x) == inject_Z N * pow2 x.
Proof.
  intros HN Hx.
  set (v := inject_Z N * pow2 x).
  set (l := Z.log2 N).
  assert (A : (2 ^ l <= N < 2 ^ (l + 1))%Z).
  { unfold l. pose proof (Z.log2_spec N (proj1 HN)) as S.
    rewrite Z.add_1_r. exact S. }
  assert (L0 : (0 <= l)%Z) by apply Z.log2_nonneg.
  assert (L53 : (l <= 53)%Z).
  { unfold l. change 53%Z with (Z.log2 (2 ^ 53)). apply Z.log2_le_mono. lia. }
  pose proof (pow2_pos x) as Px.
  assert (E : ilog2 v = (l + x)%Z).
  { apply ilog2_unique; unfold v.
    - rewrite pow2_add, (pow2_Z l L0).
      apply Qmult_le_compat_r; [rewrite <- Zle_Qle; lia | lra].
    - replace (l + x + 1)%Z with (l + 1 + x)%Z by ring.
      rewrite pow2_add, (pow2_Z (l + 1)) by lia.
      apply Qmult_lt_compat_r; [exact Px | rewrite <- Zlt_Qlt; lia]. }
  assert (G : exists M : Z,
             v / pow2 (ulp_exp v) == inject_Z M
             /\ inject_Z M * pow2 (ulp_exp v) == v).
  { unfold ulp_exp. rewrite E.
    destruct (Z_le_gt_dec l 52) as [C | C].
    - set (x' := Z.max (l + x - 52) (-1074)).
      assert (X : (0 <= x - x')%Z) by (unfold x'; lia).
      pose proof (pow2_pos x') as Px'.
      assert (P : pow2 x == pow2 (x - x') * pow2 x')
        by (rewrite <- pow2_add; replace (x - x' + x')%Z with x by ring;
            reflexivity).
      exists (N * 2 ^ (x - x'))%Z. rewrite inject_Z_mult, <- (pow2_Z _ X).
      unfold v. split.
      + rewrite P. field. lra.
      + rewrite P. ring.
    - assert (l53 : l = 53%Z) by lia. clearbody l. subst l.
      assert (N = (2 ^ 53)%Z) by lia.
      rewrite Z.max_l by lia.
      replace (53 + x - 52)%Z with (x + 1)%Z by lia.
      pose proof (pow2_pos (x + 1)) as Px'.
      exists (2 ^ 52)%Z. unfold v. subst N.
      rewrite pow2_succ. split.
      + change (inject_Z (2 ^ 53)) with (2 * inject_Z (2 ^ 52)). field. lra.
      + change (inject_Z (2 ^ 53)) with (2 * inject_Z (2 ^ 52)). ring. }
  destruct G as (M & G1 & G2).
  unfold rnd_pos. cbv zeta.
  rewrite (round_half_even_comp _ _ G1), round_half_even_Z. exact G2.
Qed.

(** What rounding gives has at most 53 binary digits. *)
Lemma rnd_pos_digits (q : Q) :
  0 < q ->
  (0 <= round_half_even (q / pow2 (ulp_exp q)) <= 2 ^ 53)%Z.
Proof.
  intros Hq. split.
  - apply round_half_even_nonneg, Qlt_le_weak, scaled_pos, Hq.
  - destruct (ilog2_spec q Hq) as [_ H].
    pose proof (pow2_pos (ulp_exp q)) as Px.
    assert (X : (ilog2 q + 1 - ulp_exp q <= 53)%Z) by (unfold ulp_exp; lia).
    assert (M : q / pow2 (ulp_exp q) <= inject_Z (2 ^ 53)).
    { rewrite <- (pow2_Z 53) by lia.
      apply Qle_shift_div_r; [exact Px|].
      rewrite <- pow2_add.
      apply Qle_trans with (pow2 (ilog2 q + 1)); [lra|].
      apply pow2_le. lia. }
    pose proof (round_half_even_le _ _ M) as R.
    rewrite round_half_even_Z in R. exact R.
Qed.

(** *** Rounding *)

Lemma rnd_comp (q q' : Q) : q == q' -> rnd q = rnd q'.
Proof. intros E. unfold rnd. rewrite (Qred_complete _ _ E). reflexivity. Qed.

Lemma Qred_sign_pos (q : Q) : 0 < q -> exists p, Qnum (Qred q) = Z.pos p.
Proof.
  intros H. rewrite <- (Qred_correct q) in H.
  unfold Qlt in H. simpl in H.
  destruct (Qnum (Qred q)) as [|p|p]; try lia. exists p. reflexivity.
Qed.

Lemma Qred_sign_neg (q : Q) : q < 0 -> exists p, Qnum (Qred q) = Z.neg p.
Proof.
  intros H. rewrite <- (Qred_correct q) in H.
  unfold Qlt in H. simpl in H.
  destruct (Qnum (Qred q)) as [|p|p]; try lia. exists p. reflexivity.
Qed.

Lemma Qred_sign_0 (q : Q) : q == 0 -> Qnum (Qred q) = 0%Z.
Proof.
  intros H. rewrite <- (Qred_correct q) in H.
  unfold Qeq in H. simpl in H. lia.
Qed.

Lemma rnd_0 (q : Q) : q == 0 -> rnd q == 0.
Proof.
  intros H. unfold rnd. cbv zeta. rewrite (Qred_sign_0 q H). reflexivity.
Qed.

Lemma rnd_pos_eq (q : Q) : 0 < q -> rnd q == rnd_pos q.
Proof.
  intros H. unfold rnd. cbv zeta.
  destruct (Qred_sign_pos q H) as [p ->].
  rewrite Qred_correct. apply rnd_pos_comp.
  - rewrite Qred_correct. exact H.
  - apply Qred_correct.
Qed.

Lemma rnd_neg_eq (q : Q) : q < 0 -> rnd q == - rnd_pos (- q).
Proof.
  intros H. unfold rnd. cbv zeta.
  destruct (Qred_sign_neg q H) as [p ->].
  rewrite Qred_correct.
  rewrite (rnd_pos_comp (- Qred q) (- q)); [reflexivity | |].
  - rewrite Qred_correct. lra.
  - rewrite Qred_correct. reflexivity.
Qed.

Lemma rnd_opp (q : Q) : rnd (- q) == - rnd q.
Proof.
  destruct (Q_dec q 0) as [[H | H] | H].
  - rewrite (rnd_pos_eq (- q)) by lra. rewrite (rnd_neg_eq q H). ring.
  - rewrite (rnd_neg_eq (- q)) by lra. rewrite (rnd_pos_eq q H).
    rewrite (rnd_pos_comp (- - q) q); [reflexivity | lra | ring].
  - rewrite (rnd_0 q H), (rnd_0 (- q)) by (rewrite H; reflexivity).
    reflexivity.
Qed.

Lemma rnd_nonneg (q : Q) : 0 <= q -> 0 <= rnd q.
Proof.
  intros H. destruct (Qlt_le_dec 0 q) as [P | P].
  - rewrite (rnd_pos_eq q P). apply rnd_pos_nonneg, P.
  - rewrite (rnd_0 q) by lra. lra.
Qed.

(** Rounding keeps the order. *)
Lemma rnd_le (q q' : Q) : q <= q' -> rnd q <= rnd q'.
Proof.
  intros H.
  destruct (Qlt_le_dec 0 q) as [P | P].
  - rewrite (rnd_pos_eq q P), (rnd_pos_eq q') by lra.
    apply rnd_pos_le; assumption.
  - destruct (Qlt_le_dec q' 0) as [P' | P'].
    + rewrite (rnd_neg_eq q), (rnd_neg_eq q') by lra.
      apply Qopp_le_compat. apply rnd_pos_le; lra.
    + apply Qle_trans with 0.
      * assert (A : 0 <= rnd (- q)) by (apply rnd_nonneg; lra).
        rewrite rnd_opp in A. lra.
      * apply rnd_nonneg, P'.
Qed.

(** Rounding leaves a double as it is. *)
Lemma rnd_fix (N x : Z) :
  (- 2 ^ 53 <= N <= 2 ^ 53)%Z -> (-1074 <= x)%Z ->
  rnd (inject_Z N * pow2 x) == inject_Z N * pow2 x.
Proof.
  intros HN Hx. pose proof (pow2_pos x) as Px.
  destruct (Z.lt_trichotomy N 0) as [C | [C | C]].
  - assert (I : inject_Z N < 0) by (rewrite Zlt_Qlt in C; exact C).
    rewrite rnd_neg_eq by nra.
    rewrite (rnd_pos_comp _ (inject_Z (- N) * pow2 x)).
    + rewrite rnd_pos_fix by lia. rewrite inject_Z_opp. ring.
    + nra.
    + rewrite inject_Z_opp. ring.
  - subst N. rewrite rnd_0 by ring. ring.
  - assert (I : 0 < inject_Z N) by (rewrite Zlt_Qlt in C; exact C).
    rewrite rnd_pos_eq by nra. apply rnd_pos_fix; lia.
Qed.

Lemma rnd_Z (k : Z) :
  (- 2 ^ 53 <= k <= 2 ^ 53)%Z -> rnd (inject_Z k) == inject_Z k.
Proof.
  intros H. rewrite (rnd_comp _ (inject_Z k * pow2 0)) by (unfold pow2; simpl; ring).
  rewrite (rnd_fix k 0 H) by lia. unfold pow2. simpl. ring.
Qed.

(** What rounding gives is a double. *)
Lemma rnd_double (q : Q) :
  exists N x, (- 2 ^ 53 <= N <= 2 ^ 53)%Z /\ (-1074 <= x)%Z
              /\ rnd q == inject_Z N * pow2 x.
Proof.
  destruct (Q_dec q 0) as [[H | H] | H].
  - assert (P : 0 < - q) by lra.
    exists (- round_half_even (- q / pow2 (ulp_exp (- q))))%Z, (ulp_exp (- q)).
    pose proof (rnd_pos_digits (- q) P).
    split; [lia|]. split; [unfold ulp_exp; lia|].
    rewrite (rnd_neg_eq q H). unfold rnd_pos. cbv zeta.
    rewrite inject_Z_opp. ring.
  - exists (round_half_even (q / pow2 (ulp_exp q))), (ulp_exp q).
    pose proof (rnd_pos_digits q H).
    split; [lia|]. split; [unfold ulp_exp; lia|].
    rewrite (rnd_pos_eq q H). reflexivity.
  - exists 0%Z, 0%Z. split; [lia|]. split; [lia|].
    rewrite (rnd_0 q H). ring.
Qed.

(** Two results of rounding that are equal as numbers are the same. *)
Lemma rnd_eq (q q' : Q) : rnd q == rnd q' -> rnd q = rnd q'.
Proof.
  intros A.
  assert (R : forall y, Qred (rnd y) = rnd y)
    by (intros y; unfold rnd; apply Qred_complete, Qred_correct).
  rewrite <- (R q), <- (R q'). apply Qred_complete, A.
Qed.

Lemma rnd_idempotent (q : Q) : rnd (rnd q) = rnd q.
Proof.
  destruct (rnd_double q) as (N & x & HN & Hx & E).
  apply rnd_eq.
  rewrite (rnd_comp _ _ E), (rnd_fix N x HN Hx). symmetry. exact E.
Qed.

End FloatFacts.

(** [rnd] is the rounding of the Standard Library's binary64: the two
    agree on every quotient of two integers below 40, the weights of the
    melodies of fewer than 40 notes. *)
Example rnd_agrees_with_binary64_division : divisions_agree 40 = true.
Proof. vm_compute. reflexivity. Qed.

(** And on the sums of the weights of a melody of 13 and of 30 notes,
    step by step. *)
Example rnd_agrees_with_binary64_addition :
  sums_agree 13 = true /\ sums_agree 30 = true.
Proof. split; vm_compute; reflexivity. Qed.

Section FloatOps.
Local Open Scope Q_scope.

Lemma rnd_rnd_0 : rnd 0 = 0.
Proof. reflexivity. Qed.

Lemma fadd_0_l (q : Q) : fadd 0 (rnd q) = rnd q.
Proof.
  unfold fadd. rewrite (rnd_comp (0 + rnd q) (rnd q)) by ring.
  apply rnd_idempotent.
Qed.

Lemma fmul_1_l (q : Q) : fmul 1 (rnd q) = rnd q.
Proof.
  unfold fmul. rewrite (rnd_comp (1 * rnd q) (rnd q)) by ring.
  apply rnd_idempotent.
Qed.

(** Adding a number that is not negative to a double does not make it
    smaller. *)
Lemma fadd_increases (s w : Q) : rnd s == s -> 0 <= w -> s <= fadd s w.
Proof.
  intros Hs Hw. unfold fadd. rewrite <- Hs at 1. apply rnd_le. lra.
Qed.

Lemma fadd_le (s s' w : Q) : s <= s' -> fadd s w <= fadd s' w.
Proof. intros H. unfold fadd. apply rnd_le. lra. Qed.

Lemma fadd_double (s w : Q) : rnd (fadd s w) == fadd s w.
Proof. unfold fadd. rewrite rnd_idempotent. reflexivity. Qed.

Lemma rnd_1 : rnd 1 == 1.
Proof. reflexivity. Qed.

End FloatOps.

(** ** The score of a mode *)

Lemma NoDup_same_length (a b : list Z) :
  NoDup a -> NoDup b -> (forall x, In x a <-> In x b) ->
  List.length a = List.length b.
Proof.
  intros Ha Hb H. apply Permutation_length, NoDup_Permutation; assumption.
Qed.

Lemma in_mode_mode_pcs (root_pc : Z) (m : Mode) (pc : Z) :
  int_mem pc (pyset (build_scale_from_intervals root_pc (intervals m)))
  = in_mode root_pc m pc.
Proof.
  rewrite int_mem_pyset. unfold int_mem, in_mode, build_scale_from_intervals.
  induction (intervals m) as [|iv ivs IH]; simpl; [reflexivity|].
  rewrite IH, (Z.eqb_sym pc). reflexivity.
Qed.

Lemma pcs_In (root_pc : Z) (offsets : list Z) (pc : Z) :
  In pc (pyset (map (fun s => (root_pc + s) mod 12) offsets))
  <-> In pc (spec_pcs root_pc offsets).
Proof. unfold spec_pcs. rewrite pyset_In, nodup_In. tauto. Qed.

Lemma pcs_length (root_pc : Z) (offsets : list Z) :
  List.length (pyset (map (fun s => (root_pc + s) mod 12) offsets))
  = List.length (spec_pcs root_pc offsets).
Proof.
  apply NoDup_same_length.
  - apply pyset_NoDup.
  - apply NoDup_nodup.
  - apply pcs_In.
Qed.

Section Scores.
Context {SO : SetOrder}.

Lemma set_iter_In (s : list Z) (x : Z) : In x (set_iter s) <-> In x s.
Proof.
  split; apply Permutation_in;
    [apply set_iter_Permutation | apply Permutation_sym, set_iter_Permutation].
Qed.

Lemma set_iter_NoDup (s : list Z) : NoDup s -> NoDup (set_iter s).
Proof.
  apply Permutation_NoDup, Permutation_sym, set_iter_Permutation.
Qed.

Lemma missing_In (root_pc : Z) (m : Mode) (offsets : list Z) (pc : Z) :
  In pc (filter (fun pc => negb (int_mem pc (pyset (build_scale_from_intervals
                                                     root_pc (intervals m)))))
                (set_iter (pyset (map (fun s => (root_pc + s) mod 12) offsets))))
  <-> In pc (spec_missing root_pc m offsets).
Proof.
  unfold spec_missing.
  rewrite !filter_In, set_iter_In, pcs_In, in_mode_mode_pcs. tauto.
Qed.

Lemma missing_NoDup (root_pc : Z) (m : Mode) (offsets : list Z) :
  NoDup (filter (fun pc => negb (int_mem pc (pyset (build_scale_from_intervals
                                                     root_pc (intervals m)))))
                (set_iter (pyset (map (fun s => (root_pc + s) mod 12) offsets)))).
Proof. apply NoDup_filter, set_iter_NoDup, pyset_NoDup. Qed.

Lemma missing_length (root_pc : Z) (m : Mode) (offsets : list Z) :
  List.length
    (filter (fun pc => negb (int_mem pc (pyset (build_scale_from_intervals
                                                  root_pc (intervals m)))))
            (set_iter (pyset (map (fun s => (root_pc + s) mod 12) offsets))))
  = List.length (spec_missing root_pc m offsets).
Proof.
  apply NoDup_same_length.
  - apply missing_NoDup.
  - apply NoDup_filter, NoDup_nodup.
  - apply missing_In.
Qed.

Lemma nth_weights (n i : nat) :
  (i < n)%nat -> nth i (weights n) 0%Q = weight n i.
Proof.
  intros H. unfold weights.
  rewrite (nth_indep _ 0%Q (weight n 0))
    by (rewrite length_map, length_seq; exact H).
  rewrite map_nth, seq_nth by exact H. reflexivity.
Qed.

(** The weight the script computes is the double nearest to (n - i)/n, and
    multiplying it by 1.0 changes nothing. *)
Lemma weight_spec_weight (n i : nat) :
  weight n i = spec_weight n i /\ fmul 1%Q (weight n i) = spec_weight n i.
Proof.
  unfold weight, int_true_divide, spec_weight. split; [reflexivity|].
  apply fmul_1_l.
Qed.

(** The loop over the melody: the hits in order, and the weights of the
    hit positions added up one after the other. *)
Lemma melody_loop (mode_pcs : list Z) (ws : list Q) (m : list Z)
  (idx : list nat) (hits : list bool) (ms : Q) :
  let st := fold_left (melody_step mode_pcs ws)
              (map (fun i => (i, nth i m 0%Z)) idx) (hits, ms) in
  fst st = hits ++ map (fun i => int_mem (nth i m 0%Z) mode_pcs) idx
  /\ snd st =
     fold_left fadd
       (map (fun i => fmul 1%Q (nth i ws 0%Q))
            (filter (fun i => int_mem (nth i m 0%Z) mode_pcs) idx)) ms.
Proof.
  revert hits ms; induction idx as [|i idx IH]; intros hits ms; simpl.
  - split; [rewrite app_nil_r; reflexivity | reflexivity].
  - destruct (IH (hits ++ [int_mem (nth i m 0%Z) mode_pcs])
                (if int_mem (nth i m 0%Z) mode_pcs
                 then fadd ms (fmul 1%Q (nth i ws 0%Q)) else ms)) as [H1 H2].
    cbv zeta in H1, H2. split.
    + rewrite H1, <- app_assoc. reflexivity.
    + rewrite H2. destruct (int_mem (nth i m 0%Z) mode_pcs); reflexivity.
Qed.

(** What [mode_match_rank] leaves in [melody_score] and [melody_hits]. *)
Lemma mode_match_rank_melody (root_pc : Z) (core extra melody_pcs : list Z)
  (m : Mode) :
  melody_score (mode_match_rank root_pc core extra melody_pcs m)
  = spec_melody_score root_pc m melody_pcs
  /\ melody_hits (mode_match_rank root_pc core extra melody_pcs m)
     = map (in_mode root_pc m) melody_pcs.
Proof.
  unfold mode_match_rank. cbv zeta. rewrite enumerate_seq.
  pose proof (melody_loop
                (pyset (build_scale_from_intervals root_pc (intervals m)))
                (weights (melody_n melody_pcs)) melody_pcs
                (seq 0 (List.length melody_pcs)) [] 0%Q) as L.
  cbv zeta in L.
  destruct (fold_left _ _ _) as [hits ms]. simpl in L |- *.
  destruct L as [L1 L2]. split.
  - rewrite L2. unfold spec_melody_score, hit_positions, float_sum.
    rewrite (filter_ext _ (fun i => in_mode root_pc m (nth i melody_pcs 0%Z)))
      by (intros i; apply in_mode_mode_pcs).
    f_equal. apply map_ext_in. intros i Hi.
    apply filter_In in Hi. destruct Hi as [Hi _]. apply in_seq in Hi.
    rewrite nth_weights by (unfold melody_n; lia).
    apply weight_spec_weight.
  - rewrite L1.
    rewrite (map_ext _ (fun i => in_mode root_pc m (nth i melody_pcs 0%Z)))
      by (intros i; apply in_mode_mode_pcs).
    rewrite <- (map_map (fun i => nth i melody_pcs 0%Z) (in_mode root_pc m)).
    f_equal. clear.
    apply nth_ext with (d := 0%Z) (d' := 0%Z).
    + rewrite length_map, length_seq. reflexivity.
    + intros i Hi. rewrite length_map, length_seq in Hi.
      rewrite (nth_indep _ 0%Z (nth 0 melody_pcs 0%Z))
        by (rewrite length_map, length_seq; exact Hi).
      rewrite (map_nth (fun i => nth i melody_pcs 0%Z)), seq_nth by exact Hi.
      reflexivity.
Qed.

Lemma mode_match_rank_missing (root_pc : Z) (core extra melody_pcs : list Z)
  (m : Mode) :
  let r := mode_match_rank root_pc core extra melody_pcs m in
  let absent pc := negb (int_mem pc (pyset (build_scale_from_intervals
                                             root_pc (intervals m)))) in
  mode r = m
  /\ missing_core r
     = filter absent
         (set_iter (pyset (map (fun s => (root_pc + s) mod 12)%Z core)))
  /\ missing_extra r
     = filter absent
         (set_iter (pyset (map (fun s => (root_pc + s) mod 12)%Z extra))).
Proof.
  unfold mode_match_rank. cbv zeta.
  destruct (fold_left _ _ _) as [hits ms]. simpl. auto.
Qed.

(** The score as the script adds it up; its first step, from 0.0, changes
    nothing. *)
Lemma mode_match_rank_score (root_pc : Z) (core extra melody_pcs : list Z)
  (m : Mode) :
  let r := mode_match_rank root_pc core extra melody_pcs m in
  score r =
  fadd
    (fsub
       (fadd
          (fsub
             (fmul 4%Q
                (float_of_int
                   (len (pyset (map (fun s => (root_pc + s) mod 12)%Z core))
                    - len (missing_core r))))
             (fmul 10%Q (float_of_int (len (missing_core r)))))
          (fmul (3 # 2)%Q
             (float_of_int
                (len (pyset (map (fun s => (root_pc + s) mod 12)%Z extra))
                 - len (missing_extra r)))))
       (fmul (5 # 2)%Q (float_of_int (len (missing_extra r)))))
    (melody_score r).
Proof.
  unfold mode_match_rank. cbv zeta.
  destruct (fold_left _ _ _) as [hits ms].
  cbn [score missing_core missing_extra melody_score].
  unfold fmul at 1. rewrite fadd_0_l. reflexivity.
Qed.

End Scores.

Lemma spec_missing_In (root_pc : Z) (m : Mode) (offsets : list Z) (pc : Z) :
  In pc (spec_missing root_pc m offsets) <->
  (exists s, In s offsets /\ pc = ((root_pc + s) mod 12)%Z)
  /\ ~ (exists iv, In iv (intervals m) /\ pc = ((root_pc + iv) mod 12)%Z).
Proof.
  unfold spec_missing, spec_pcs, in_mode.
  rewrite filter_In, nodup_In, in_map_iff, negb_true_iff.
  rewrite <- not_true_iff_false, existsb_exists.
  split.
  - intros [(s & E & Hs) N]. split; [exists s; auto|].
    intros (iv & Hiv & E'). apply N. exists iv. split; [exact Hiv|].
    apply Z.eqb_eq. congruence.
  - intros [(s & Hs & E) N]. split; [exists s; auto|].
    intros (iv & Hiv & E'). apply N. exists iv. split; [exact Hiv|].
    apply Z.eqb_eq in E'. congruence.
Qed.

(** C1.  For every root, core offsets, extra offsets, melody and mode (so
    for each of the 21 modes of the catalog), and whatever the order in
    which a set is gone through, the score of the mode is
    4.0 (|core_pcs| - |missing_core|) - 10.0 |missing_core|
    + 1.5 (|extra_pcs| - |missing_extra|) - 2.5 |missing_extra|
    + melody_score, the value of this expression in the script's double
    arithmetic, each operation rounded, from the left.  The missing lists
    hold, once each, the core and the extra pitch classes that are not in
    the mode, and melody_score is the sum, added up in doubles in the order
    of the melody, of the weights (n - i) / n of the positions i whose pitch
    class is in the mode, n being the length of the melody, or 1 when it is
    empty. *)
Theorem mode_score_formula (SO : SetOrder) (root_pc : Z)
  (core extra melody_pcs : list Z) (m : Mode) :
  let r := mode_match_rank root_pc core extra melody_pcs m in
  List.length MODE_CATALOG = 21%nat
  /\ mode r = m
  /\ NoDup (missing_core r)
  /\ (forall pc, In pc (missing_core r) <-> In pc (spec_missing root_pc m core))
  /\ NoDup (missing_extra r)
  /\ (forall pc, In pc (missing_extra r) <-> In pc (spec_missing root_pc m extra))
  /\ melody_score r = spec_melody_score root_pc m melody_pcs
  /\ score r =
     fadd
       (fsub
          (fadd
             (fsub
                (fmul 4%Q (float_of_int (card (spec_pcs root_pc core)
                                         - card (missing_core r))))
                (fmul 10%Q (float_of_int (card (missing_core r)))))
             (fmul (3 # 2)%Q (float_of_int (card (spec_pcs root_pc extra)
                                            - card (missing_extra r)))))
          (fmul (5 # 2)%Q (float_of_int (card (missing_extra r)))))
       (melody_score r)
  /\ score r = spec_score root_pc core extra melody_pcs m.
Proof.
  intros r.
  destruct (mode_match_rank_missing root_pc core extra melody_pcs m)
    as (Hm & Hc & He).
  destruct (mode_match_rank_melody root_pc core extra melody_pcs m) as [Hs _].
  pose proof (mode_match_rank_score root_pc core extra melody_pcs m) as Hsc.
  cbv zeta in Hsc. fold r in Hm, Hc, He, Hs, Hsc.
  assert (F : score r =
     fadd
       (fsub
          (fadd
             (fsub
                (fmul 4%Q (float_of_int (card (spec_pcs root_pc core)
                                         - card (missing_core r))))
                (fmul 10%Q (float_of_int (card (missing_core r)))))
             (fmul (3 # 2)%Q (float_of_int (card (spec_pcs root_pc extra)
                                            - card (missing_extra r)))))
          (fmul (5 # 2)%Q (float_of_int (card (missing_extra r)))))
       (melody_score r)).
  { rewrite Hsc. unfold card, len. rewrite !pcs_length. reflexivity. }
  split; [reflexivity|]. split; [exact Hm|].
  split; [rewrite Hc; apply missing_NoDup|].
  split; [intros pc; rewrite Hc; apply missing_In|].
  split; [rewrite He; apply missing_NoDup|].
  split; [intros pc; rewrite He; apply missing_In|].
  split; [exact Hs|]. split; [exact F|].
  rewrite F. unfold spec_score, card.
  rewrite Hc, He, !missing_length, Hs. reflexivity.
Qed.

(** The scores are the script's doubles: for the chord C under G, Eb, Bb,
    Bb, Eb, E the mode Lydian #2 scores 14.333333333333334 and Mixolydian
    14.333333333333332, one unit in the last place less, though both are
    43/3 in exact arithmetic. *)
Example scores_are_doubles :
  score (mode_match_rank 0 [0; 4; 7] [] [7; 3; 10; 10; 3; 4]
           {| family := py "harmonic_minor"; family_rank := 2; mode_rank := 5;
              name := py "Lydian #2"; intervals := [0; 3; 4; 6; 7; 9; 11] |})
  = (8068949332372139 # 562949953421312)%Q
  /\ score (mode_match_rank 0 [0; 4; 7] [] [7; 3; 10; 10; 3; 4] Mixolydian)
     = (4034474666186069 # 281474976710656)%Q.
Proof. split; vm_compute; reflexivity. Qed.

(** ** Bounds on the melody score *)

(** The order of the missing tones is the order of the sets, and the score
    is not: for the triad on Db the Locrian mode lacks the third F and the
    fifth Ab; walked by slots they come out as [8, 5], as the script prints
    them, in the order they were added as [5, 8], and the score is -16.0
    both times. *)
Example missing_tones_follow_the_set_order :
  let Locrian :=
    {| family := py "major"; family_rank := 0; mode_rank := 6;
       name := py "Locrian"; intervals := [0; 1; 3; 5; 6; 8; 10] |} in
  missing_core (@mode_match_rank table_order 1 [0; 4; 7] [] [] Locrian) = [8; 5]
  /\ missing_core (@mode_match_rank insertion_order 1 [0; 4; 7] [] [] Locrian)
     = [5; 8]
  /\ score (@mode_match_rank table_order 1 [0; 4; 7] [] [] Locrian)
     = (- 16 # 1)%Q
  /\ score (@mode_match_rank insertion_order 1 [0; 4; 7] [] [] Locrian)
     = (- 16 # 1)%Q.
Proof. repeat split; vm_compute; reflexivity. Qed.

Section ScoreBounds.
Local Open Scope Q_scope.

Lemma spec_weight_bounds (n i : nat) :
  (i < n)%nat -> 0 <= spec_weight n i /\ spec_weight n i <= 1.
Proof.
  intros H. unfold spec_weight.
  assert (P : 0 < inject_Z (Z.of_nat n)).
  { change 0 with (inject_Z 0). rewrite <- Zlt_Qlt. lia. }
  assert (A : 0 <= inject_Z (Z.of_nat n - Z.of_nat i) / inject_Z (Z.of_nat n)).
  { apply Qle_shift_div_l; [exact P|].
    rewrite Qmult_0_l. change 0 with (inject_Z 0). rewrite <- Zle_Qle. lia. }
  assert (B : inject_Z (Z.of_nat n - Z.of_nat i) / inject_Z (Z.of_nat n) <= 1).
  { apply Qle_shift_div_r; [exact P|].
    rewrite Qmult_1_l. rewrite <- Zle_Qle. lia. }
  split.
  - apply rnd_nonneg, A.
  - rewrite <- rnd_1. apply rnd_le, B.
Qed.

(** A sum in doubles of numbers that are not negative is not negative. *)
Lemma float_sum_nonneg (f : nat -> Q) (xs : list nat) (acc : Q) :
  0 <= acc -> (forall i, In i xs -> 0 <= f i) ->
  0 <= fold_left fadd (map f xs) acc.
Proof.
  revert acc; induction xs as [|x xs IH]; intros acc Ha H; simpl; [exact Ha|].
  apply IH.
  - unfold fadd. apply rnd_nonneg.
    pose proof (H x (or_introl eq_refl)). lra.
  - intros i Hi. apply H. right. exact Hi.
Qed.

(** Leaving terms out of such a sum does not make it larger. *)
Lemma float_sum_filter_le (f : nat -> Q) (p : nat -> bool) (xs : list nat)
  (a b : Q) :
  a <= b -> rnd b == b -> (forall i, In i xs -> 0 <= f i) ->
  fold_left fadd (map f (filter p xs)) a <= fold_left fadd (map f xs) b.
Proof.
  revert a b; induction xs as [|x xs IH]; intros a b Hab Hb H; simpl;
    [exact Hab|].
  assert (Hx : 0 <= f x) by (apply H; left; reflexivity).
  assert (H' : forall i, In i xs -> 0 <= f i)
    by (intros i Hi; apply H; right; exact Hi).
  destruct (p x); simpl.
  - apply IH; [apply fadd_le, Hab | apply fadd_double | exact H'].
  - apply IH; [|apply fadd_double | exact H'].
    apply Qle_trans with b; [exact Hab | apply fadd_increases; assumption].
Qed.

Lemma rnd_above_2_53 : rnd (inject_Z (2 ^ 53 + 1)) == inject_Z (2 ^ 53).
Proof. reflexivity. Qed.

(** A sum in doubles of [k] numbers that are at most 1 is at most [k]. *)
Lemma float_sum_le_length (f : nat -> Q) (xs : list nat) (acc : Q) (k : Z) :
  (0 <= k)%Z -> acc <= inject_Z (Z.min k (2 ^ 53)) ->
  (forall i, In i xs -> f i <= 1) ->
  fold_left fadd (map f xs) acc
  <= inject_Z (Z.min (k + Z.of_nat (List.length xs)) (2 ^ 53)).
Proof.
  revert acc k; induction xs as [|x xs IH]; intros acc k Hk Ha H.
  - simpl. rewrite Z.add_0_r. exact Ha.
  - cbn [map fold_left List.length].
    replace (k + Z.of_nat (S (List.length xs)))%Z
      with (k + 1 + Z.of_nat (List.length xs))%Z by lia.
    apply IH; [lia | | intros i Hi; apply H; right; exact Hi].
    pose proof (H x (or_introl eq_refl)) as Hx.
    unfold fadd.
    destruct (Z_lt_le_dec k (2 ^ 53)) as [C | C].
    + rewrite Z.min_l in Ha by lia. rewrite Z.min_l by lia.
      rewrite <- (rnd_Z (k + 1)) by lia.
      apply rnd_le. rewrite inject_Z_plus. change (inject_Z 1) with 1. lra.
    + rewrite Z.min_r in Ha by lia. rewrite Z.min_r by lia.
      rewrite <- rnd_above_2_53.
      apply rnd_le. rewrite inject_Z_plus. change (inject_Z 1) with 1. lra.
Qed.

End ScoreBounds.

(** C9, as the script has it.  The melody score of a mode is not negative
    and is at most the sum of the weights of all the positions of the
    melody, when that sum is added up as the script adds: in doubles, in
    the order of the melody.  That sum is at most the number [n] of notes,
    each weight, the double nearest to (n - i)/n, lying between 0 and 1. *)
Theorem melody_score_bounds (SO : SetOrder) (root_pc : Z)
  (core extra melody_pcs : list Z) (m : Mode) :
  let r := mode_match_rank root_pc core extra melody_pcs m in
  let n := List.length melody_pcs in
  (0 <= melody_score r)%Q
  /\ (melody_score r <= position_weight_sum melody_pcs)%Q
  /\ (position_weight_sum melody_pcs <= inject_Z (Z.of_nat n))%Q
  /\ Forall (fun i => nth i (weights (melody_n melody_pcs)) 0%Q
                      = spec_weight (melody_n melody_pcs) i
                      /\ (0 <= spec_weight (melody_n melody_pcs) i)%Q
                      /\ (spec_weight (melody_n melody_pcs) i <= 1)%Q)
            (seq 0 n).
Proof.
  intros r n.
  destruct (mode_match_rank_melody root_pc core extra melody_pcs m) as [Hs _].
  fold r in Hs.
  assert (W : forall i, In i (seq 0 n) ->
                (0 <= spec_weight (Nat.max n 1) i)%Q
                /\ (spec_weight (Nat.max n 1) i <= 1)%Q).
  { intros i Hi. apply in_seq in Hi. apply spec_weight_bounds. lia. }
  split; [|split; [|split]].
  - rewrite Hs. unfold spec_melody_score, hit_positions, float_sum.
    apply float_sum_nonneg; [apply Qle_refl|].
    intros i Hi. apply filter_In in Hi. apply W, Hi.
  - rewrite Hs.
    unfold spec_melody_score, hit_positions, position_weight_sum, float_sum.
    apply float_sum_filter_le; [apply Qle_refl | reflexivity|].
    intros i Hi. apply W, Hi.
  - unfold position_weight_sum, float_sum. fold n.
    pose proof (float_sum_le_length (spec_weight (Nat.max n 1)) (seq 0 n)
                  0%Q 0 (Z.le_refl 0) (Qle_refl 0)
                  (fun i Hi => proj2 (W i Hi))) as B.
    rewrite length_seq, Z.add_0_l in B.
    eapply Qle_trans; [exact B|].
    rewrite <- Zle_Qle. lia.
  - apply Forall_forall. intros i Hi. unfold melody_n. fold n.
    split; [|apply W, Hi].
    rewrite nth_weights by (apply in_seq in Hi; lia).
    apply weight_spec_weight.
Qed.

(** C9 as stated fails for the exact sum of the weights: over 13 notes
    that are all in the mode the fractions (13 - i)/13 add up to 7, and
    the melody score, added up in doubles, is 7.000000000000001. *)
Lemma melody_score_above_exact_weight_sum :
  Qeq (exact_weight_sum (repeat 0 13)) (7 # 1)
  /\ Qlt (exact_weight_sum (repeat 0 13))
         (melody_score (mode_match_rank 0 [] [] (repeat 0 13) Mixolydian))
  /\ melody_score (mode_match_rank 0 [] [] (repeat 0 13) Mixolydian)
     = (7881299347898369 # 1125899906842624)%Q.
Proof. split; [|split]; vm_compute; reflexivity. Qed.

(** ** The ranking *)

Section Ranking.
Context {SO : SetOrder}.

Lemma Qltb_lt (x y : Q) : Qltb x y = true <-> (x < y)%Q.
Proof.
  unfold Qltb. rewrite negb_true_iff, <- not_true_iff_false, Qle_bool_iff.
  split; [apply Qnot_le_lt | apply Qlt_not_le].
Qed.

Lemma tuple_lt_ranks_before (a b : MatchResult) :
  tuple_lt (sort_key a) (sort_key b) = true <-> ranks_before a b.
Proof.
  unfold tuple_lt, sort_key, ranks_before, fneg.
  destruct (Qeq_bool (- score a) (- score b)) eqn:E1; simpl.
  - apply Qeq_bool_iff in E1.
    destruct (Z.eqb_spec (family_rank (mode a)) (family_rank (mode b))) as [E2|E2];
      simpl.
    + destruct (Z.eqb_spec (mode_rank (mode a)) (mode_rank (mode b))) as [E3|E3];
        simpl.
      * split; [discriminate|].
        intros [H | [_ [H | [_ H]]]]; [lra | lia | lia].
      * rewrite Z.ltb_lt. split.
        -- intros H. right. split; [lra | right; auto].
        -- intros [H | [_ [H | [_ H]]]]; [lra | lia | lia].
    + rewrite Z.ltb_lt. split.
      * intros H. right. split; [lra | left; auto].
      * intros [H | [_ [H | [H _]]]]; [lra | lia | lia].
  - apply Qeq_bool_neq in E1. rewrite Qltb_lt. split.
    + intros H. left. lra.
    + intros [H | [H _]]; [lra | exfalso; apply E1; lra].
Qed.

(** The order is total: what does not come after comes before or ties. *)
Lemma tuple_lt_false_ranks_le (a b : MatchResult) :
  tuple_lt (sort_key b) (sort_key a) = false -> ranks_le a b.
Proof.
  intros H. apply not_true_iff_false in H.
  rewrite tuple_lt_ranks_before in H.
  unfold ranks_le, ranks_before, ranks_same in *.
  destruct (Qlt_le_dec (score b) (score a)) as [L | L]; [left; left; exact L|].
  destruct (Qlt_le_dec (score a) (score b)) as [L' | L'];
    [exfalso; apply H; left; exact L'|].
  assert (E : (score a == score b)%Q) by lra.
  destruct (Z.lt_total (family_rank (mode a)) (family_rank (mode b)))
    as [F | [F | F]].
  - left. right. auto.
  - destruct (Z.lt_total (mode_rank (mode a)) (mode_rank (mode b)))
      as [M | [M | M]].
    + left. right. auto.
    + right. auto.
    + exfalso. apply H. right. split; [lra | right; split; [lia | exact M]].
  - exfalso. apply H. right. split; [lra | left; exact F].
Qed.

Lemma ranks_le_trans (a b c : MatchResult) :
  ranks_le a b -> ranks_le b c -> ranks_le a c.
Proof.
  unfold ranks_le, ranks_before, ranks_same.
  intros [[H1 | [E1 H1]] | [E1 [F1 M1]]] [[H2 | [E2 H2]] | [E2 [F2 M2]]];
    try (left; left; lra).
  - left. right. split; [lra | lia].
  - left. right. split; [lra | lia].
  - left. right. split; [lra | lia].
  - right. split; [lra | lia].
Qed.

Lemma insert_by_key_Permutation (x : MatchResult) (l : list MatchResult) :
  Permutation (x :: l) (insert_by_key x l).
Proof.
  induction l as [|y l IH]; cbn [insert_by_key]; [apply Permutation_refl|].
  destruct (tuple_lt (sort_key y) (sort_key x)).
  - eapply perm_trans; [apply perm_swap | apply perm_skip, IH].
  - apply Permutation_refl.
Qed.

Lemma sort_by_key_Permutation (l : list MatchResult) :
  Permutation l (sort_by_key l).
Proof.
  induction l as [|x l IH]; simpl; [apply perm_nil|].
  eapply perm_trans; [apply perm_skip, IH | apply insert_by_key_Permutation].
Qed.

Lemma insert_by_key_sorted (x : MatchResult) (l : list MatchResult) :
  StronglySorted ranks_le l -> StronglySorted ranks_le (insert_by_key x l).
Proof.
  induction l as [|y l IH]; intros H; cbn [insert_by_key].
  - constructor; constructor.
  - inversion H as [|? ? Hl Hy]; subst.
    destruct (tuple_lt (sort_key y) (sort_key x)) eqn:E.
    + constructor; [apply IH, Hl|].
      apply (Permutation_Forall (insert_by_key_Permutation x l)).
      constructor; [|exact Hy].
      left. apply tuple_lt_ranks_before, E.
    + apply tuple_lt_false_ranks_le in E.
      constructor; [exact H|].
      constructor; [exact E|].
      eapply Forall_impl; [|exact Hy].
      intros z Hz. eapply ranks_le_trans; eassumption.
Qed.

Lemma sort_by_key_sorted (l : list MatchResult) :
  StronglySorted ranks_le (sort_by_key l).
Proof.
  induction l as [|x l IH]; simpl; [constructor|].
  apply insert_by_key_sorted, IH.
Qed.

(** In a sorted list an earlier element does not rank after a later one. *)
Lemma StronglySorted_nth_error (l : list MatchResult) (i j : nat)
  (a b : MatchResult) :
  StronglySorted ranks_le l -> (i < j)%nat ->
  nth_error l i = Some a -> nth_error l j = Some b -> ranks_le a b.
Proof.
  intros H. revert i j. induction H as [|x l Hl IH Hx]; intros i j Hij Ha Hb.
  - destruct i; discriminate.
  - destruct j as [|j]; [lia|]. simpl in Hb.
    destruct i as [|i]; simpl in Ha.
    + inversion Ha; subst. rewrite Forall_forall in Hx.
      apply Hx. eapply nth_error_In; eassumption.
    + apply (IH i j); [lia | assumption | assumption].
Qed.

Lemma catalog_rank_pairs_NoDup :
  NoDup (map (fun m => (family_rank m, mode_rank m)) MODE_CATALOG).
Proof.
  repeat (constructor;
          [ vm_compute; intros H;
            repeat (destruct H as [H | H]; [discriminate H|]); exact H | ]).
  constructor.
Qed.

Lemma mode_match_rank_mode (root_pc : Z) (core extra melody_pcs : list Z)
  (m : Mode) :
  mode (mode_match_rank root_pc core extra melody_pcs m) = m.
Proof.
  unfold mode_match_rank. cbv zeta.
  destruct (fold_left _ _ _) as [hits ms]. reflexivity.
Qed.

(** The ranked list holds one result for each mode of the catalog. *)
Lemma ranked_modes_rank_pairs (root_pc : Z) (core extra melody_pcs : list Z) :
  NoDup (map rank_pair (ranked_modes root_pc core extra melody_pcs)).
Proof.
  unfold ranked_modes.
  eapply Permutation_NoDup.
  - apply Permutation_map, sort_by_key_Permutation.
  - rewrite map_map.
    rewrite (map_ext _ (fun m => (family_rank m, mode_rank m))).
    + apply catalog_rank_pairs_NoDup.
    + intros m. unfold rank_pair. rewrite mode_match_rank_mode. reflexivity.
Qed.

Lemma ranked_modes_length (root_pc : Z) (core extra melody_pcs : list Z) :
  List.length (ranked_modes root_pc core extra melody_pcs) = 21%nat.
Proof.
  unfold ranked_modes.
  rewrite <- (Permutation_length (sort_by_key_Permutation _)), length_map.
  reflexivity.
Qed.

(** Two different places of a sorted list whose elements differ in their
    ranks are strictly ordered. *)
Lemma sorted_distinct_strict (l : list MatchResult) (i j : nat)
  (a b : MatchResult) :
  StronglySorted ranks_le l -> NoDup (map rank_pair l) -> (i < j)%nat ->
  nth_error l i = Some a -> nth_error l j = Some b -> ranks_before a b.
Proof.
  intros Hs N Hij Ha Hb.
  destruct (StronglySorted_nth_error l i j a b Hs Hij Ha Hb)
    as [H | (_ & F & M)]; [exact H|].
  exfalso.
  rewrite NoDup_nth_error in N.
  assert (Hj : (j < List.length l)%nat)
    by (apply nth_error_Some; rewrite Hb; discriminate).
  specialize (N i j). rewrite length_map in N.
  rewrite !nth_error_map, Ha, Hb in N. cbn [option_map] in N.
  assert (i = j); [|lia].
  apply N; [lia|]. unfold rank_pair. congruence.
Qed.

Lemma ranked_modes_strict (root_pc : Z) (core extra melody_pcs : list Z)
  (i j : nat) (a b : MatchResult) :
  (i < j)%nat ->
  nth_error (ranked_modes root_pc core extra melody_pcs) i = Some a ->
  nth_error (ranked_modes root_pc core extra melody_pcs) j = Some b ->
  ranks_before a b.
Proof.
  apply sorted_distinct_strict.
  - apply sort_by_key_sorted.
  - apply ranked_modes_rank_pairs.
Qed.

End Ranking.

(** C2.  When the root of the chord is a known note, [choose_modes_21]
    ranks the results of all 21 modes of the catalog: the ranked list is a
    rearrangement of these results in which every earlier element comes
    before every later one in the order (score descending, family rank
    ascending, mode rank ascending), so on equal scores the smaller family
    rank is first and on equal family ranks the smaller mode rank.  The
    best result is the head of the list and the alternatives are exactly
    the five elements that follow it. *)
Theorem choose_modes_21_ranking (U : UnicodeCase) (SO : SetOrder)
  (chord_info : Chord) (melody_pcs : list Z) (root_pc : Z) :
  note_to_pc (root chord_info) = Ok root_pc ->
  let core := fst (chord_required_semitones chord_info) in
  let extra := snd (chord_required_semitones chord_info) in
  let ranked := ranked_modes root_pc core extra melody_pcs in
  List.length ranked = 21%nat
  /\ Permutation
       (map (mode_match_rank root_pc core extra melody_pcs) MODE_CATALOG) ranked
  /\ (forall i j a b, (i < j)%nat ->
        nth_error ranked i = Some a -> nth_error ranked j = Some b ->
        ranks_before a b)
  /\ exists mc others,
       choose_modes_21 chord_info melody_pcs = Ok mc
       /\ ranked = best mc :: alternatives mc ++ others
       /\ List.length (alternatives mc) = 5%nat.
Proof.
  intros H core extra ranked.
  pose proof (ranked_modes_length root_pc core extra melody_pcs) as L.
  fold ranked in L.
  split; [exact L|].
  split; [apply sort_by_key_Permutation|].
  split; [intros i j a b; apply ranked_modes_strict|].
  unfold choose_modes_21. rewrite H. unfold bind.
  rewrite (surjective_pairing (chord_required_semitones chord_info)).
  fold core extra ranked.
  destruct ranked as [|b rest]; [discriminate L|].
  exists {| best := b; alternatives := firstn 5 (skipn 1 (b :: rest)) |}.
  exists (skipn 5 rest).
  split; [reflexivity|]. cbn [best alternatives skipn].
  split.
  - rewrite firstn_skipn. reflexivity.
  - rewrite length_firstn. cbn [List.length] in L. lia.
Qed.

(** The ranking of the 21 modes for G7 under F#, A, C, D. *)
Lemma choose_modes_21_ranking_witness :
  exists mc others,
    choose_modes_21 G7_chord [6; 9; 0; 2] = Ok mc
    /\ ranked_modes 7 (fst (chord_required_semitones G7_chord))
         (snd (chord_required_semitones G7_chord)) [6; 9; 0; 2]
       = best mc :: alternatives mc ++ others
    /\ List.length (alternatives mc) = 5%nat.
Proof.
  exact (proj2 (proj2 (proj2
           (choose_modes_21_ranking ascii_only insertion_order G7_chord
              [6; 9; 0; 2] 7 eq_refl)))).
Defined.

(** The ranking follows the doubles the script computes, not the exact
    fractions: for the chord "C" under G, Eb, Bb, Bb, Eb, E the six modes
    below all have the exact score 43/3, but their melody scores were added
    up in different orders and come out as two neighbouring doubles;
    Lydian #2 and Altered diminished got the larger one and are ranked
    before Mixolydian, for all its smaller family rank. *)
Example ranking_follows_the_doubles :
  exists ch mc,
    parse_chord_symbol (py "C") = Ok ch
    /\ choose_modes_21 ch [7; 3; 10; 10; 3; 4] = Ok mc
    /\ map (fun r => name (mode r)) (best mc :: alternatives mc)
       = [py "Lydian #2"; py "Altered diminished"; py "Mixolydian";
          py "Lydian dominant"; py "Mixolydian b6"; py "Phrygian dominant"]
    /\ map score (best mc :: alternatives mc)
       = [(8068949332372139 # 562949953421312)%Q;
          (8068949332372139 # 562949953421312)%Q;
          (4034474666186069 # 281474976710656)%Q;
          (4034474666186069 # 281474976710656)%Q;
          (4034474666186069 # 281474976710656)%Q;
          (4034474666186069 # 281474976710656)%Q].
Proof.
  let v := eval vm_compute in (parse_chord_symbol (py "C")) in
  match v with Ok ?ch => exists ch end.
  match goal with
  | |- exists mc, _ /\ choose_modes_21 ?ch ?m = _ /\ _ =>
      let v := eval vm_compute in (choose_modes_21 ch m) in
      match v with Ok ?mc => exists mc end
  end.
  repeat split; vm_compute; reflexivity.
Qed.

(* ================================================================== *)
(** * Further properties of the analyzer *)
(* ================================================================== *)

(** ** Note names *)

(** Every pitch class [note_to_pc] returns lies between 0 and 11. *)
Theorem note_to_pc_in_range (U : UnicodeCase) (nm : pystr) (pc : Z) :
  note_to_pc nm = Ok pc -> 0 <= pc < 12.
Proof. apply note_to_pc_range. Qed.

Lemma note_to_pc_in_range_witness : 0 <= 3 < 12.
Proof. exact (note_to_pc_in_range ascii_only (py "Eb") 3 eq_refl). Defined.

Lemma lstrip_app_space (ws s : pystr) :
  forallb isspace ws = true -> lstrip (ws ++ s) = lstrip s.
Proof.
  induction ws as [|c ws IH]; simpl; [reflexivity|].
  intros H. apply andb_true_iff in H. destruct H as [Hc H].
  rewrite Hc. apply IH, H.
Qed.

Lemma lstrip_app_nonblank (s t : pystr) :
  lstrip s <> [] -> lstrip (s ++ t) = lstrip s ++ t.
Proof.
  induction s as [|c s IH]; simpl; [congruence|].
  destruct (isspace c); [exact IH | reflexivity].
Qed.

Lemma lstrip_idempotent (s : pystr) : lstrip (lstrip s) = lstrip s.
Proof.
  induction s as [|c s IH]; simpl; [reflexivity|].
  destruct (isspace c) eqn:E; [exact IH | simpl; rewrite E; reflexivity].
Qed.

Lemma lstrip_nonspace_end (x : pystr) (c : codepoint) :
  isspace c = false -> exists y, lstrip (x ++ [c]) = y ++ [c].
Proof.
  intros Hc. induction x as [|d x IH]; simpl.
  - rewrite Hc. exists []. reflexivity.
  - destruct (isspace d); [exact IH | exists (d :: x); reflexivity].
Qed.

(** Whitespace around a string does not change what [strip] returns. *)
Lemma strip_surround (ws1 s ws2 : pystr) :
  forallb isspace ws1 = true -> forallb isspace ws2 = true ->
  strip (ws1 ++ s ++ ws2) = strip s.
Proof.
  intros H1 H2. unfold strip, rstrip. f_equal.
  rewrite (lstrip_app_space ws1 _ H1).
  destruct (lstrip s) as [|c t] eqn:E.
  - apply lstrip_nil in E.
    assert (B : forallb isspace (s ++ ws2) = true)
      by (rewrite forallb_app, E, H2; reflexivity).
    apply lstrip_nil in B. rewrite B. reflexivity.
  - rewrite lstrip_app_nonblank by (rewrite E; discriminate).
    rewrite E, rev_app_distr.
    apply lstrip_app_space. rewrite forallb_rev. exact H2.
Qed.

Lemma stripped_strip (s : pystr) : stripped s -> strip s = s.
Proof.
  intros [H1 H2]. unfold strip, rstrip.
  rewrite H1, H2. apply rev_involutive.
Qed.

Lemma strip_stripped (s : pystr) : stripped (strip s).
Proof.
  unfold stripped, strip, rstrip. split.
  - destruct (lstrip s) as [|c t] eqn:E; [reflexivity|].
    apply lstrip_head in E. simpl rev.
    destruct (lstrip_nonspace_end (rev t) c E) as [y Hy].
    rewrite Hy, rev_app_distr. simpl. rewrite E. reflexivity.
  - rewrite rev_involutive. apply lstrip_idempotent.
Qed.

Lemma strip_idempotent (s : pystr) : strip (strip s) = strip s.
Proof. apply stripped_strip, strip_stripped. Qed.

Lemma lstrip_map (f : codepoint -> codepoint) (s : pystr) :
  (forall c, isspace (f c) = isspace c) ->
  lstrip (map f s) = map f (lstrip s).
Proof.
  intros H. induction s as [|c s IH]; simpl; [reflexivity|].
  rewrite H. destruct (isspace c); [exact IH | reflexivity].
Qed.

Lemma strip_map (f : codepoint -> codepoint) (s : pystr) :
  (forall c, isspace (f c) = isspace c) ->
  strip (map f s) = map f (strip s).
Proof.
  intros H. unfold strip, rstrip.
  rewrite (lstrip_map f s H), <- map_rev, (lstrip_map f _ H), map_rev.
  reflexivity.
Qed.

Lemma replace1_isspace (old new c : codepoint) :
  isspace old = false -> isspace new = false ->
  isspace (if N.eqb c old then new else c) = isspace c.
Proof.
  intros Ho Hn. destruct (N.eqb_spec c old) as [-> | _]; congruence.
Qed.

Lemma strip_replace1 (old new : codepoint) (s : pystr) :
  isspace old = false -> isspace new = false ->
  strip (replace1 old new s) = replace1 old new (strip s).
Proof.
  intros Ho Hn. apply strip_map. intros c. apply replace1_isspace; assumption.
Qed.

(** The two replacements of [accidentals_to_ascii] absorb a replacement
    made beforehand. *)
Lemma accidentals_to_ascii_flat (s : pystr) :
  accidentals_to_ascii (replace1 FLAT 98%N s) = accidentals_to_ascii s.
Proof.
  unfold accidentals_to_ascii, replace1. rewrite !map_map.
  apply map_ext. intros c.
  destruct (N.eqb c FLAT) eqn:E.
  - apply N.eqb_eq in E. subst c. reflexivity.
  - cbv beta iota. rewrite E. reflexivity.
Qed.

Lemma accidentals_to_ascii_sharp (s : pystr) :
  accidentals_to_ascii (replace1 SHARP 35%N s) = accidentals_to_ascii s.
Proof.
  unfold accidentals_to_ascii, replace1. rewrite !map_map.
  apply map_ext. intros c.
  destruct (N.eqb c SHARP) eqn:E.
  - apply N.eqb_eq in E. subst c. reflexivity.
  - reflexivity.
Qed.

Lemma accidentals_to_ascii_strip (s : pystr) :
  accidentals_to_ascii (strip s) = strip (accidentals_to_ascii s).
Proof.
  unfold accidentals_to_ascii.
  rewrite !strip_replace1 by reflexivity. reflexivity.
Qed.

(** Whitespace around a note name, and the signs U+266D and U+266F written
    for b and #, make no difference to [note_to_pc]: neither to the pitch
    class nor to the name an error carries. *)
Theorem note_to_pc_spelling (U : UnicodeCase) (nm ws1 ws2 : pystr) :
  forallb isspace ws1 = true -> forallb isspace ws2 = true ->
  note_to_pc (ws1 ++ nm ++ ws2) = note_to_pc nm
  /\ note_to_pc (replace1 FLAT 98%N nm) = note_to_pc nm
  /\ note_to_pc (replace1 SHARP 35%N nm) = note_to_pc nm.
Proof.
  intros H1 H2. unfold note_to_pc, normalize_note.
  rewrite (strip_surround ws1 nm ws2 H1 H2).
  rewrite !strip_replace1 by reflexivity.
  rewrite accidentals_to_ascii_flat, accidentals_to_ascii_sharp.
  auto.
Qed.

(** " e" followed by the flat sign and a blank is E flat. *)
Lemma note_to_pc_spelling_witness :
  note_to_pc ([32%N] ++ [101%N; FLAT] ++ [32%N]) = note_to_pc [101%N; FLAT]
  /\ note_to_pc (replace1 FLAT 98%N [101%N; FLAT]) = note_to_pc [101%N; FLAT]
  /\ note_to_pc (replace1 SHARP 35%N [101%N; FLAT]) = note_to_pc [101%N; FLAT].
Proof.
  exact (note_to_pc_spelling ascii_only [101%N; FLAT] [32%N] [32%N]
           eq_refl eq_refl).
Defined.

Lemma ascii_upper_isspace (c : codepoint) :
  isspace (ascii_upper c) = isspace c.
Proof.
  unfold ascii_upper.
  destruct (N.leb_spec 97 c) as [H1 | H1]; [|reflexivity].
  destruct (N.leb_spec c 122) as [H2 | H2]; [|reflexivity].
  cbn [andb]. unfold isspace.
  repeat match goal with
         | |- context [N.leb ?a ?b] => destruct (N.leb_spec a b); try lia
         | |- context [N.eqb ?a ?b] => destruct (N.eqb_spec a b); try lia
         end; reflexivity.
Qed.

Lemma ascii_upper_idempotent (c : codepoint) :
  ascii_upper (ascii_upper c) = ascii_upper c.
Proof.
  unfold ascii_upper.
  destruct (N.leb_spec 97 c) as [H1 | H1];
    destruct (N.leb_spec c 122) as [H2 | H2]; cbn [andb];
    repeat match goal with
           | |- context [N.leb ?a ?b] => destruct (N.leb_spec a b); try lia
           end; reflexivity.
Qed.

Lemma ascii_upper_ascii (c : codepoint) :
  (c < 128)%N -> (ascii_upper c < 128)%N.
Proof.
  intros H. unfold ascii_upper.
  destruct (N.leb_spec 97 c); destruct (N.leb_spec c 122); cbn [andb andb]; lia.
Qed.

Lemma accidentals_to_ascii_fixed (s : pystr) :
  ~ In FLAT s -> ~ In SHARP s -> accidentals_to_ascii s = s.
Proof.
  intros HF HS. unfold accidentals_to_ascii, replace1.
  rewrite map_map. rewrite <- (map_id s) at 2.
  apply map_ext_in. intros c Hc.
  destruct (N.eqb_spec c FLAT) as [-> | _]; [contradiction|].
  destruct (N.eqb_spec c SHARP) as [-> | _]; [contradiction | reflexivity].
Qed.

Lemma accidentals_to_ascii_char (c : codepoint) :
  let d := if N.eqb (if N.eqb c FLAT then 98%N else c) SHARP then 35%N
           else if N.eqb c FLAT then 98%N else c in
  d <> FLAT /\ d <> SHARP.
Proof.
  cbv zeta. destruct (N.eqb c FLAT) eqn:E1.
  - vm_compute. split; discriminate.
  - destruct (N.eqb c SHARP) eqn:E2.
    + vm_compute. split; discriminate.
    + apply N.eqb_neq in E1, E2. auto.
Qed.

Lemma accidentals_to_ascii_clean (s : pystr) :
  ~ In FLAT (accidentals_to_ascii s) /\ ~ In SHARP (accidentals_to_ascii s).
Proof.
  unfold accidentals_to_ascii, replace1. rewrite map_map.
  split; intros H; apply in_map_iff in H; destruct H as (c & E & _);
    destruct (accidentals_to_ascii_char c) as [NF NS]; cbv zeta in NF, NS;
    cbv beta in E; [apply NF, E | apply NS, E].
Qed.

(** [normalize_note] leaves a normalized name as it is, when the first
    character of the name is an ASCII character. *)
Theorem normalize_note_idempotent (U : UnicodeCase) (nm : pystr) :
  (forall c rest, accidentals_to_ascii (strip nm) = c :: rest -> (c < 128)%N) ->
  normalize_note (normalize_note nm) = normalize_note nm.
Proof.
  intros HA. unfold normalize_note at 2 3.
  destruct (accidentals_to_ascii (strip nm)) as [|c rest] eqn:E.
  - rewrite <- E at 2. unfold normalize_note.
    rewrite E. reflexivity.
  - specialize (HA c rest eq_refl).
    unfold upper_char. apply N.ltb_lt in HA. rewrite HA. apply N.ltb_lt in HA.
    cbn [app].
    (* the stripped name, with its replacements made, is stripped *)
    assert (S : stripped (c :: rest)).
    { rewrite <- E, accidentals_to_ascii_strip. apply strip_stripped. }
    destruct S as [S1 S2].
    assert (Hc : isspace c = false) by (apply (lstrip_head _ _ _ S1)).
    assert (S' : stripped (ascii_upper c :: rest)).
    { split.
      - simpl. rewrite ascii_upper_isspace, Hc. reflexivity.
      - simpl rev in *. destruct (rev rest) as [|d r].
        + simpl. rewrite ascii_upper_isspace, Hc. reflexivity.
        + simpl in *. destruct (isspace d) eqn:Ed; [|reflexivity].
          exfalso. apply (f_equal (@List.length _)) in S2.
          assert (L : (List.length (lstrip (r ++ [c])) <= List.length (r ++ [c]))%nat).
          { clear. induction (r ++ [c]) as [|x l IH]; simpl; [lia|].
            destruct (isspace x); simpl; lia. }
          simpl in S2. lia. }
    destruct (accidentals_to_ascii_clean (strip nm)) as [NF NS].
    rewrite E in NF, NS.
    assert (F : accidentals_to_ascii (ascii_upper c :: rest)
                = ascii_upper c :: rest).
    { apply accidentals_to_ascii_fixed; intros [H | H].
      - pose proof (ascii_upper_ascii c HA) as B. rewrite H in B.
        vm_compute in B. discriminate.
      - apply NF. right. exact H.
      - pose proof (ascii_upper_ascii c HA) as B. rewrite H in B.
        vm_compute in B. discriminate.
      - apply NS. right. exact H. }
    unfold normalize_note.
    rewrite (stripped_strip _ S'), F.
    unfold upper_char.
    pose proof (ascii_upper_ascii c HA) as B. apply N.ltb_lt in B. rewrite B.
    rewrite ascii_upper_idempotent. reflexivity.
Qed.

(** The name " f#" with a blank before it. *)
Lemma normalize_note_idempotent_witness :
  normalize_note (normalize_note (py " f#")) = normalize_note (py " f#").
Proof.
  apply (normalize_note_idempotent ascii_only (py " f#")).
  intros c rest E. vm_compute in E. inversion E. reflexivity.
Defined.

(** ** Scales, degrees and numerals *)

Lemma shift_mod_12_injective (t a b : Z) :
  0 <= a < 12 -> 0 <= b < 12 ->
  (t + a) mod 12 = (t + b) mod 12 -> a = b.
Proof. intros Ha Hb H. Z.div_mod_to_equations. lia. Qed.

Lemma NoDup_shift_mod_12 (t : Z) (xs : list Z) :
  Forall (fun x => 0 <= x < 12) xs -> NoDup xs ->
  NoDup (map (fun x => (t + x) mod 12) xs).
Proof.
  intros R N. induction N as [|x xs Hx N IH]; simpl; [constructor|].
  inversion R as [|? ? Rx Rxs]; subst.
  constructor; [|apply IH, Rxs].
  intros H. apply in_map_iff in H. destruct H as (y & E & Hy).
  rewrite Forall_forall in Rxs.
  apply shift_mod_12_injective in E; [subst; contradiction | auto | exact Rx].
Qed.

Lemma MAJOR_INTERVALS_range : Forall (fun x => 0 <= x < 12) MAJOR_INTERVALS.
Proof. unfold MAJOR_INTERVALS. repeat constructor; lia. Qed.

Lemma MAJOR_INTERVALS_NoDup : NoDup MAJOR_INTERVALS.
Proof.
  unfold MAJOR_INTERVALS.
  repeat (constructor; [simpl; intuition discriminate|]). constructor.
Qed.

(** The major scale of a known tonic has 7 pitch classes, all different,
    all between 0 and 11, and the first is the tonic; an unknown tonic is
    reported by its normalized name. *)
Theorem major_scale_pcs (U : UnicodeCase) (tonic : pystr) :
  match build_major_scale_pcs tonic with
  | Ok scale =>
      List.length scale = 7%nat
      /\ NoDup scale
      /\ Forall (fun pc => 0 <= pc < 12) scale
      /\ exists t, note_to_pc tonic = Ok t /\ nth_error scale 0 = Some t
  | Raise e =>
      e = UnknownNoteError (normalize_note tonic)
      /\ ~ In (normalize_note tonic) note_names
  end.
Proof.
  unfold build_major_scale_pcs.
  destruct (note_to_pc tonic) as [t|e] eqn:E; cbn [bind].
  - pose proof (note_to_pc_range tonic t E) as R.
    split; [reflexivity|].
    split; [apply NoDup_shift_mod_12;
            [exact MAJOR_INTERVALS_range | exact MAJOR_INTERVALS_NoDup]|].
    split.
    + apply Forall_forall. intros pc H. apply in_map_iff in H.
      destruct H as (i & <- & _). apply Z.mod_pos_bound. lia.
    + exists t. split; [reflexivity|]. simpl.
      rewrite Z.add_0_r, Z.mod_small by lia. reflexivity.
  - unfold note_to_pc in E.
    destruct (dict_get NOTE_TO_PC (normalize_note tonic)) eqn:D; [discriminate|].
    inversion E. split; [reflexivity | apply dict_get_None, D].
Qed.

Lemma list_index_In (x : Z) (xs : list Z) :
  In x xs ->
  0 <= list_index x xs < Z.of_nat (List.length xs)
  /\ nth_error xs (Z.to_nat (list_index x xs)) = Some x.
Proof.
  induction xs as [|y xs IH]; intros H; [contradiction|].
  cbn [list_index List.length].
  destruct (Z.eqb_spec y x) as [-> | N].
  - split; [lia | reflexivity].
  - destruct H as [H | H]; [contradiction|].
    destruct (IH H) as [B E]. split; [lia|].
    replace (Z.to_nat (1 + list_index x xs))
      with (S (Z.to_nat (list_index x xs))) by lia.
    exact E.
Qed.

Section Degrees.
Context {U : UnicodeCase}.

Lemma build_major_scale_pcs_Ok (tonic : pystr) (t : Z) :
  note_to_pc tonic = Ok t ->
  build_major_scale_pcs tonic
  = Ok (map (fun i => (t + i) mod 12) MAJOR_INTERVALS).
Proof. intros H. unfold build_major_scale_pcs. rewrite H. reflexivity. Qed.

Lemma degree_in_global_major_Ok (chord_root global_key : pystr) (t r : Z) :
  note_to_pc global_key = Ok t -> note_to_pc chord_root = Ok r ->
  degree_in_global_major chord_root global_key
  = Ok (let scale := map (fun i => (t + i) mod 12) MAJOR_INTERVALS in
        if int_mem r scale then list_index r scale + 1 else 0).
Proof.
  intros Ht Hr. unfold degree_in_global_major.
  rewrite (build_major_scale_pcs_Ok _ _ Ht). cbn [bind].
  rewrite Hr. reflexivity.
Qed.

Lemma degree_in_global_major_inv (chord_root global_key : pystr) (d : Z) :
  degree_in_global_major chord_root global_key = Ok d ->
  exists t r,
    note_to_pc global_key = Ok t /\ note_to_pc chord_root = Ok r
    /\ d = (let scale := map (fun i => (t + i) mod 12) MAJOR_INTERVALS in
            if int_mem r scale then list_index r scale + 1 else 0).
Proof.
  intros H. unfold degree_in_global_major, build_major_scale_pcs in H.
  destruct (note_to_pc global_key) as [t|] eqn:Ht; [|discriminate].
  cbn [bind] in H.
  destruct (note_to_pc chord_root) as [r|] eqn:Hr; [|discriminate].
  cbn [bind] in H. inversion H. exists t, r. auto.
Qed.

Lemma degree_in_global_major_range (chord_root global_key : pystr) (d : Z) :
  degree_in_global_major chord_root global_key = Ok d -> 0 <= d <= 7.
Proof.
  intros H. apply degree_in_global_major_inv in H.
  destruct H as (t & r & _ & _ & ->). cbv zeta.
  destruct (int_mem r _) eqn:M; [|lia].
  apply int_mem_In, list_index_In in M. destruct M as [B _].
  rewrite length_map in B.
  change (List.length MAJOR_INTERVALS) with 7%nat in B. lia.
Qed.

End Degrees.

(** The degree of a chord root in a key is 0 exactly when the pitch class
    of the root is not in the key's major scale; otherwise it is between 1
    and 7 and names the place of that pitch class in the scale. *)
Theorem degree_in_global_major_place (U : UnicodeCase)
  (chord_root global_key : pystr) (d : Z) :
  degree_in_global_major chord_root global_key = Ok d ->
  exists scale r_pc,
    build_major_scale_pcs global_key = Ok scale
    /\ note_to_pc chord_root = Ok r_pc
    /\ 0 <= d <= 7
    /\ (d = 0 <-> ~ In r_pc scale)
    /\ (d <> 0 -> nth_error scale (Z.to_nat (d - 1)) = Some r_pc).
Proof.
  intros H. pose proof (degree_in_global_major_range _ _ _ H) as R.
  apply degree_in_global_major_inv in H. destruct H as (t & r & Ht & Hr & ->).
  exists (map (fun i => (t + i) mod 12) MAJOR_INTERVALS), r.
  split; [apply build_major_scale_pcs_Ok, Ht|].
  split; [exact Hr|]. split; [exact R|]. cbv zeta in *.
  destruct (int_mem r _) eqn:M.
  - apply int_mem_In in M. destruct (list_index_In _ _ M) as [B E].
    split; [split; [lia | contradiction]|].
    intros _. replace (list_index r _ + 1 - 1) with (list_index r
      (map (fun i => (t + i) mod 12) MAJOR_INTERVALS)) by lia.
    exact E.
  - apply int_mem_false in M. split; [tauto | congruence].
Qed.

(** D is the second degree of C major. *)
Lemma degree_in_global_major_place_witness :
  exists scale r_pc,
    build_major_scale_pcs (py "C") = Ok scale
    /\ note_to_pc (py "D") = Ok r_pc
    /\ 0 <= 2 <= 7
    /\ (2 = 0 <-> ~ In r_pc scale)
    /\ (2 <> 0 -> nth_error scale (Z.to_nat (2 - 1)) = Some r_pc).
Proof.
  exact (degree_in_global_major_place ascii_only (py "D") (py "C") 2 eq_refl).
Defined.

(** The tonic of a known key is its first degree. *)
Theorem tonic_is_degree_1 (U : UnicodeCase) (global_key : pystr) (t : Z) :
  note_to_pc global_key = Ok t ->
  degree_in_global_major global_key global_key = Ok 1.
Proof.
  intros H. rewrite (degree_in_global_major_Ok _ _ t t H H).
  pose proof (note_to_pc_range _ _ H) as R.
  cbv zeta. unfold MAJOR_INTERVALS. cbn [map int_mem existsb list_index].
  rewrite Z.add_0_r, Z.mod_small by lia.
  rewrite Z.eqb_refl. reflexivity.
Qed.

Lemma tonic_is_degree_1_witness :
  degree_in_global_major (py "F#") (py "F#") = Ok 1.
Proof. exact (tonic_is_degree_1 ascii_only (py "F#") 6 eq_refl). Defined.

(** An unknown key is reported before an unknown chord root. *)
Theorem degree_in_global_major_errors (U : UnicodeCase)
  (chord_root global_key : pystr) :
  (~ In (normalize_note global_key) note_names ->
   degree_in_global_major chord_root global_key
   = Raise (UnknownNoteError (normalize_note global_key)))
  /\ (In (normalize_note global_key) note_names ->
      ~ In (normalize_note chord_root) note_names ->
      degree_in_global_major chord_root global_key
      = Raise (UnknownNoteError (normalize_note chord_root))).
Proof.
  unfold degree_in_global_major, build_major_scale_pcs. split.
  - intros H. rewrite (note_to_pc_unknown _ H). reflexivity.
  - intros Hk Hr. destruct (note_to_pc_known _ Hk) as (t & Ht & _).
    rewrite Ht. cbn [bind]. rewrite (note_to_pc_unknown _ Hr). reflexivity.
Qed.

Lemma degree_in_global_major_errors_witness :
  degree_in_global_major (py "X") (py "H")
  = Raise (UnknownNoteError (py "H"))
  /\ degree_in_global_major (py "X") (py "C")
     = Raise (UnknownNoteError (py "X")).
Proof.
  split.
  - apply (proj1 (degree_in_global_major_errors ascii_only (py "X") (py "H"))).
    vm_compute. intuition discriminate.
  - apply (proj2 (degree_in_global_major_errors ascii_only (py "X") (py "C"))).
    + vm_compute. auto.
    + vm_compute. intuition discriminate.
Defined.

(** A degree that [degree_in_global_major] returns always has a numeral:
    [roman_for_degree] finds it in its table.  The numeral is "N/A" for the
    degree 0 and the degree's numeral otherwise, in lower case for a minor
    chord and in upper case for a major or a dominant one. *)
Theorem roman_for_degree_of_degree (U : UnicodeCase)
  (chord_root global_key : pystr) (d : Z) (q : Quality) :
  degree_in_global_major chord_root global_key = Ok d ->
  exists numeral,
    roman_for_degree d q = Ok numeral
    /\ (d = 0 -> numeral = py "N/A")
    /\ (d <> 0 ->
        nth_error (match q with Qmin => lower_numerals | _ => upper_numerals end)
                  (Z.to_nat (d - 1)) = Some numeral).
Proof.
  intros H. apply degree_in_global_major_range in H.
  assert (C : d = 0 \/ d = 1 \/ d = 2 \/ d = 3 \/ d = 4 \/ d = 5 \/ d = 6 \/ d = 7)
    by lia.
  destruct C as [-> | [-> | [-> | [-> | [-> | [-> | [-> | ->]]]]]]];
    destruct q; eexists; (split; [reflexivity|]);
    (split; [intros E; try discriminate E; reflexivity
            | intros E; try (exfalso; apply E; reflexivity); reflexivity]).
Qed.

Lemma roman_for_degree_of_degree_witness :
  exists numeral,
    roman_for_degree 2 Qmin = Ok numeral
    /\ (2 = 0 -> numeral = py "N/A")
    /\ (2 <> 0 -> nth_error lower_numerals (Z.to_nat (2 - 1)) = Some numeral).
Proof.
  exact (roman_for_degree_of_degree ascii_only (py "D") (py "C") 2 Qmin eq_refl).
Defined.

(** ** Degree labels *)

(** [pitch_to_degree_label] finds a label for every pair of integers; the
    label depends only on the interval between note and root counted
    modulo 12, so it does not change when both are moved by the same
    amount or when the note is moved by octaves; it is "1" exactly when the
    note is the root up to octaves. *)
Theorem pitch_to_degree_label_total (U : UnicodeCase) (note_pc root_pc k : Z) :
  (exists l, pitch_to_degree_label note_pc root_pc = Ok l
             /\ In ((note_pc - root_pc) mod 12, l) DEGREE_LABELS)
  /\ pitch_to_degree_label (note_pc + k) (root_pc + k)
     = pitch_to_degree_label note_pc root_pc
  /\ pitch_to_degree_label (note_pc + 12 * k) root_pc
     = pitch_to_degree_label note_pc root_pc
  /\ (pitch_to_degree_label note_pc root_pc = Ok (py "1")
      <-> (note_pc - root_pc) mod 12 = 0).
Proof.
  assert (T : forall j, 0 <= j < 12 ->
                exists l, int_dict_get DEGREE_LABELS j = Some l
                          /\ In (j, l) DEGREE_LABELS
                          /\ (l = py "1" <-> j = 0)).
  { intros j Hj.
    assert (C : j = 0 \/ j = 1 \/ j = 2 \/ j = 3 \/ j = 4 \/ j = 5 \/ j = 6
                \/ j = 7 \/ j = 8 \/ j = 9 \/ j = 10 \/ j = 11) by lia.
    repeat (destruct C as [-> | C];
            [eexists; split; [reflexivity|];
             split; [simpl; tauto|];
             split; [intros E; try discriminate E; reflexivity
                    | intros E; try discriminate E; reflexivity]|]).
    subst. eexists. split; [reflexivity|]. split; [simpl; tauto|].
    split; intros E; discriminate E. }
  assert (B : 0 <= (note_pc - root_pc) mod 12 < 12)
    by (apply Z.mod_pos_bound; lia).
  destruct (T _ B) as (l & Hl & Hin & H1).
  unfold pitch_to_degree_label.
  replace (note_pc + k - (root_pc + k)) with (note_pc - root_pc) by lia.
  replace ((note_pc + 12 * k - root_pc) mod 12) with ((note_pc - root_pc) mod 12)
    by (replace (note_pc + 12 * k - root_pc) with (note_pc - root_pc + k * 12)
          by lia; rewrite Z.mod_add by lia; reflexivity).
  cbv zeta. rewrite Hl.
  split; [exists l; auto|]. split; [reflexivity|]. split; [reflexivity|].
  rewrite <- H1. split; [intros E; inversion E; reflexivity | intros ->; reflexivity].
Qed.

(** ** The outcome of the analysis *)

Section Outcome.
Context {U : UnicodeCase}.
Context {SO : SetOrder}.

Lemma known_note_true (nm : pystr) :
  known_note nm = true <-> exists pc, note_to_pc nm = Ok pc.
Proof.
  unfold known_note, note_to_pc.
  destruct (dict_get NOTE_TO_PC (normalize_note nm)) as [pc|]; split.
  - intros _. exists pc. reflexivity.
  - reflexivity.
  - discriminate.
  - intros [pc H]. discriminate.
Qed.

Lemma known_note_false (nm : pystr) :
  known_note nm = false <->
  note_to_pc nm = Raise (UnknownNoteError (normalize_note nm)).
Proof.
  unfold known_note, note_to_pc.
  destruct (dict_get NOTE_TO_PC (normalize_note nm)) as [pc|]; split;
    try discriminate; reflexivity.
Qed.

(** The melody is read up to its first unknown name. *)
Lemma comprehension_note_to_pc (melody : list pystr) :
  match find (fun n => negb (known_note n)) melody with
  | Some bad =>
      comprehension note_to_pc melody
      = Raise (UnknownNoteError (normalize_note bad))
  | None =>
      exists pcs, comprehension note_to_pc melody = Ok pcs
                  /\ List.length pcs = List.length melody
  end.
Proof.
  induction melody as [|n melody IH]; cbn [find comprehension].
  - exists []. auto.
  - destruct (known_note n) eqn:K; cbn [negb].
    + apply known_note_true in K. destruct K as [pc K]. rewrite K. cbn [bind].
      destruct (find _ melody) as [bad|].
      * rewrite IH. reflexivity.
      * destruct IH as (pcs & E & L). rewrite E. cbn [bind].
        exists (pc :: pcs). split; [reflexivity | simpl; lia].
    + apply known_note_false in K. rewrite K. reflexivity.
Qed.

Lemma comprehension_total {A B : Type} (f : A -> result B) (xs : list A) :
  (forall x, exists y, f x = Ok y) ->
  exists ys, comprehension f xs = Ok ys /\ List.length ys = List.length xs.
Proof.
  intros H. induction xs as [|x xs (ys & E & L)]; cbn [comprehension].
  - exists []. auto.
  - destruct (H x) as [y Hy]. rewrite Hy, E. cbn [bind].
    exists (y :: ys). split; [reflexivity | simpl; lia].
Qed.

Lemma pitch_to_degree_label_Ok (note_pc root_pc : Z) :
  exists l, pitch_to_degree_label note_pc root_pc = Ok l.
Proof.
  unfold pitch_to_degree_label. cbv zeta.
  assert (B : 0 <= (note_pc - root_pc) mod 12 < 12)
    by (apply Z.mod_pos_bound; lia).
  set (j := (note_pc - root_pc) mod 12) in *.
  assert (C : j = 0 \/ j = 1 \/ j = 2 \/ j = 3 \/ j = 4 \/ j = 5 \/ j = 6
              \/ j = 7 \/ j = 8 \/ j = 9 \/ j = 10 \/ j = 11) by lia.
  clearbody j.
  repeat (destruct C as [-> | C]; [eexists; reflexivity|]).
  subst. eexists. reflexivity.
Qed.

Lemma roman_for_degree_Ok (d : Z) (q : Quality) :
  0 <= d <= 7 -> exists numeral, roman_for_degree d q = Ok numeral.
Proof.
  intros H.
  assert (C : d = 0 \/ d = 1 \/ d = 2 \/ d = 3 \/ d = 4 \/ d = 5 \/ d = 6 \/ d = 7)
    by lia.
  destruct C as [-> | [-> | [-> | [-> | [-> | [-> | [-> | ->]]]]]]];
    eexists; reflexivity.
Qed.

Lemma choose_modes_21_Ok (ch : Chord) (melody_pcs : list Z) (r : Z) :
  note_to_pc (root ch) = Ok r ->
  exists mc, choose_modes_21 ch melody_pcs = Ok mc
             /\ List.length (alternatives mc) = 5%nat.
Proof.
  intros H. unfold choose_modes_21. rewrite H. cbn [bind].
  rewrite (surjective_pairing (chord_required_semitones ch)).
  pose proof (ranked_modes_length r (fst (chord_required_semitones ch))
                (snd (chord_required_semitones ch)) melody_pcs) as L.
  destruct (ranked_modes _ _ _ _) as [|b rest]; [discriminate L|].
  eexists. split; [reflexivity|].
  cbn [alternatives skipn]. rewrite length_firstn.
  cbn [List.length] in L. lia.
Qed.

Lemma choose_modes_21_Raise (ch : Chord) (melody_pcs : list Z) (e : Exception) :
  note_to_pc (root ch) = Raise e -> choose_modes_21 ch melody_pcs = Raise e.
Proof. intros H. unfold choose_modes_21. rewrite H. reflexivity. Qed.

(** The stages of the analysis, when each of them goes through. *)
Lemma analyze_chord_and_melody_Ok (sym : pystr) (melody : list pystr)
  (key : pystr) (ch : Chord) (pcs : list Z) (t r : Z) :
  parse_chord_symbol sym = Ok ch ->
  comprehension note_to_pc melody = Ok pcs ->
  note_to_pc key = Ok t ->
  note_to_pc (root ch) = Ok r ->
  exists d numeral mc degs,
    degree_in_global_major (root ch) key = Ok d
    /\ roman_for_degree d (quality ch) = Ok numeral
    /\ choose_modes_21 ch pcs = Ok mc
    /\ List.length (alternatives mc) = 5%nat
    /\ comprehension (fun pc => pitch_to_degree_label pc r) pcs = Ok degs
    /\ List.length degs = List.length pcs
    /\ analyze_chord_and_melody sym melody key
       = Ok {| Analysis.global_key := key;
               Analysis.chord := ch;
               Analysis.degree_in_key := d;
               Analysis.roman := numeral;
               Analysis.best_mode := summary (best mc);
               Analysis.alternatives := map summary (alternatives mc);
               Analysis.melody_notes := map normalize_note melody;
               Analysis.melody_degrees := degs;
               Analysis.functions :=
                 analyze_melody_functions pcs r (quality ch) |}.
Proof.
  intros Hp Hm Hk Hr.
  pose proof (degree_in_global_major_Ok (root ch) key t r Hk Hr) as Hd.
  set (d := let scale := map (fun i => (t + i) mod 12) MAJOR_INTERVALS in
            if int_mem r scale then list_index r scale + 1 else 0) in Hd.
  destruct (roman_for_degree_Ok d (quality ch)
              (degree_in_global_major_range _ _ _ Hd)) as [numeral Hn].
  destruct (choose_modes_21_Ok ch pcs r Hr) as (mc & Hc & La).
  destruct (comprehension_total (fun pc => pitch_to_degree_label pc r) pcs
              (fun pc => pitch_to_degree_label_Ok pc r)) as (degs & Hg & Lg).
  exists d, numeral, mc, degs.
  repeat (split; [assumption|]).
  unfold analyze_chord_and_melody.
  rewrite Hp. cbn [bind]. rewrite Hm. cbn [bind]. rewrite Hd. cbn [bind].
  rewrite Hn. cbn [bind]. rewrite Hc. cbn [bind]. rewrite Hr. cbn [bind].
  rewrite Hg. reflexivity.
Qed.

(** What must have gone through when the analysis returns. *)
Lemma analyze_chord_and_melody_inv (sym : pystr) (melody : list pystr)
  (key : pystr) (r : Analysis.t) :
  analyze_chord_and_melody sym melody key = Ok r ->
  exists ch pcs t rt,
    parse_chord_symbol sym = Ok ch
    /\ comprehension note_to_pc melody = Ok pcs
    /\ List.length pcs = List.length melody
    /\ note_to_pc key = Ok t
    /\ note_to_pc (root ch) = Ok rt.
Proof.
  intros H. unfold analyze_chord_and_melody in H.
  destruct (parse_chord_symbol sym) as [ch|] eqn:Hp; [|discriminate].
  cbn [bind] in H.
  pose proof (comprehension_note_to_pc melody) as Hm.
  destruct (comprehension note_to_pc melody) as [pcs|] eqn:Hc; [|discriminate].
  cbn [bind] in H.
  destruct (degree_in_global_major (root ch) key) as [d|] eqn:Hd;
    [|discriminate].
  apply degree_in_global_major_inv in Hd.
  destruct Hd as (t & rt & K & R & _).
  exists ch, pcs, t, rt.
  split; [reflexivity|]. split; [reflexivity|].
  split; [|split; assumption].
  destruct (find _ melody); [discriminate Hm|].
  destruct Hm as (pcs' & E & L). inversion E; subst. exact L.
Qed.

End Outcome.

(** The ways the analysis can end. *)
Lemma analyze_chord_and_melody_cases {U : UnicodeCase} {SO : SetOrder}
  (sym : pystr) (melody : list pystr) (key : pystr) :
  let unknown := find (fun n => negb (known_note n)) melody in
  match analyze_chord_and_melody sym melody key with
  | Raise e =>
      (forallb isspace sym = true /\ e = EmptyChordError)
      \/ (forallb isspace sym = false
          /\ exists bad, unknown = Some bad
                         /\ e = UnknownNoteError (normalize_note bad))
      \/ (forallb isspace sym = false /\ unknown = None
          /\ known_note key = false
          /\ e = UnknownNoteError (normalize_note key))
      \/ (forallb isspace sym = false /\ unknown = None
          /\ known_note key = true
          /\ exists ch, parse_chord_symbol sym = Ok ch
                        /\ known_note (root ch) = false
                        /\ e = UnknownNoteError (normalize_note (root ch)))
  | Ok r =>
      forallb isspace sym = false /\ unknown = None
      /\ known_note key = true
      /\ parse_chord_symbol sym = Ok (Analysis.chord r)
      /\ known_note (root (Analysis.chord r)) = true
  end.
Proof.
  cbv zeta.
  destruct (forallb isspace sym) eqn:B.
  - rewrite <- blank_iff_whitespace in B.
    unfold analyze_chord_and_melody.
    rewrite (parse_chord_symbol_blank sym B). cbn [bind]. auto.
  - destruct (parse_chord_symbol_nonblank sym) as (ch & Hp & _).
    { rewrite blank_iff_whitespace, B. discriminate. }
    pose proof (comprehension_note_to_pc melody) as Hm.
    destruct (find _ melody) as [bad|] eqn:F.
    + unfold analyze_chord_and_melody. rewrite Hp. cbn [bind]. rewrite Hm.
      cbn [bind]. right. left. split; [reflexivity|]. exists bad. auto.
    + destruct Hm as (pcs & Hm & _).
      destruct (known_note key) eqn:K.
      * destruct (known_note (root ch)) eqn:R.
        -- apply known_note_true in K, R.
           destruct K as [t K]. destruct R as [r R].
           destruct (analyze_chord_and_melody_Ok sym melody key ch pcs t r
                       Hp Hm K R) as (d & nu & mc & degs & _ & _ & _ & _ & _ & _ & E).
           rewrite E. cbn [Analysis.chord].
           split; [reflexivity|]. split; [reflexivity|].
           split; [reflexivity|]. split; [exact Hp|].
           apply known_note_true. exists r. exact R.
        -- pose proof R as R'. apply known_note_false in R'.
           apply known_note_true in K. destruct K as [t K].
           unfold analyze_chord_and_melody. rewrite Hp. cbn [bind].
           rewrite Hm. cbn [bind].
           unfold degree_in_global_major.
           rewrite (build_major_scale_pcs_Ok _ _ K). cbn [bind].
           rewrite R'. cbn [bind].
           right. right. right.
           split; [reflexivity|]. split; [reflexivity|].
           split; [reflexivity|].
           exists ch. auto.
      * pose proof K as K'. apply known_note_false in K'.
        unfold analyze_chord_and_melody. rewrite Hp. cbn [bind].
        rewrite Hm. cbn [bind].
        unfold degree_in_global_major, build_major_scale_pcs.
        rewrite K'. cbn [bind].
        right. right. left. auto.
Qed.

(** The analysis fails in four ways only, tried in this order: the chord
    symbol is blank (empty-chord error); a melody name is unknown (unknown
    note, the first such name); the key is unknown (unknown note, the key);
    the root of the chord is unknown (unknown note, the root).  It never
    fails on a table lookup or an index, and when it returns none of the
    four holds. *)
Theorem analyze_outcome (U : UnicodeCase) (SO : SetOrder) (sym : pystr)
  (melody : list pystr) (key : pystr) :
  let unknown := find (fun n => negb (known_note n)) melody in
  match analyze_chord_and_melody sym melody key with
  | Raise e =>
      (forallb isspace sym = true /\ e = EmptyChordError)
      \/ (forallb isspace sym = false
          /\ exists bad, unknown = Some bad
                         /\ e = UnknownNoteError (normalize_note bad))
      \/ (forallb isspace sym = false /\ unknown = None
          /\ known_note key = false
          /\ e = UnknownNoteError (normalize_note key))
      \/ (forallb isspace sym = false /\ unknown = None
          /\ known_note key = true
          /\ exists ch, parse_chord_symbol sym = Ok ch
                        /\ known_note (root ch) = false
                        /\ e = UnknownNoteError (normalize_note (root ch)))
  | Ok r =>
      forallb isspace sym = false /\ unknown = None
      /\ known_note key = true
      /\ parse_chord_symbol sym = Ok (Analysis.chord r)
      /\ known_note (root (Analysis.chord r)) = true
  end.
Proof. apply analyze_chord_and_melody_cases. Qed.

(** When the analysis returns, its result keeps the chord symbol and the
    key it was given, has one normalized name, one degree label and one
    list of function labels for each note of the melody, exactly five
    alternatives, and a degree between 0 and 7. *)
Theorem analyze_result_shape (U : UnicodeCase) (SO : SetOrder) (sym : pystr)
  (melody : list pystr) (key : pystr) (r : Analysis.t) :
  analyze_chord_and_melody sym melody key = Ok r ->
  symbol (Analysis.chord r) = sym
  /\ Analysis.global_key r = key
  /\ Analysis.melody_notes r = map normalize_note melody
  /\ List.length (Analysis.melody_degrees r) = List.length melody
  /\ List.length (Analysis.functions r) = List.length melody
  /\ List.length (Analysis.alternatives r) = 5%nat
  /\ 0 <= Analysis.degree_in_key r <= 7.
Proof.
  intros H.
  destruct (analyze_chord_and_melody_inv sym melody key r H)
    as (ch & pcs & t & rt & Hp & Hm & Lp & K & R).
  destruct (analyze_chord_and_melody_Ok sym melody key ch pcs t rt Hp Hm K R)
    as (d & nu & mc & degs & Hd & _ & _ & La & _ & Lg & E).
  rewrite E in H. inversion H as [Hr]. clear H.
  cbn [Analysis.chord Analysis.global_key Analysis.melody_notes
       Analysis.melody_degrees Analysis.functions Analysis.alternatives
       Analysis.degree_in_key].
  split; [apply parse_chord_symbol_symbol with (1 := Hp)|].
  split; [reflexivity|]. split; [reflexivity|].
  split; [lia|].
  split; [rewrite analyze_melody_functions_length; exact Lp|].
  split; [rewrite length_map; exact La|].
  apply (degree_in_global_major_range _ _ _ Hd).
Qed.

(** The chord "Dm7" over F, A, C, E in the key of C. *)
Lemma analyze_result_shape_witness :
  exists r : Analysis.t,
    analyze_chord_and_melody (py "Dm7") [py "F"; py "A"; py "C"; py "E"] (py "C")
    = Ok r
    /\ symbol (Analysis.chord r) = py "Dm7"
    /\ Analysis.global_key r = py "C"
    /\ Analysis.melody_notes r
       = map normalize_note [py "F"; py "A"; py "C"; py "E"]
    /\ List.length (Analysis.melody_degrees r) = 4%nat
    /\ List.length (Analysis.functions r) = 4%nat
    /\ List.length (Analysis.alternatives r) = 5%nat
    /\ 0 <= Analysis.degree_in_key r <= 7.
Proof.
  let v := eval vm_compute in
    (analyze_chord_and_melody (py "Dm7") [py "F"; py "A"; py "C"; py "E"] (py "C")) in
  match v with Ok ?r => exists r end.
  split; [vm_compute; reflexivity|].
  apply (analyze_result_shape ascii_only insertion_order (py "Dm7")
           [py "F"; py "A"; py "C"; py "E"] (py "C")).
  vm_compute. reflexivity.
Defined.

(** ** Required tones *)

Lemma uniq_loop_set_add_all (xs acc : list Z) :
  uniq_loop xs acc acc = set_add_all xs acc.
Proof.
  revert acc; induction xs as [|x xs IH]; intros acc; simpl; [reflexivity|].
  destruct (int_mem x acc); apply IH.
Qed.

Lemma uniq_pyset (xs : list Z) : uniq xs = pyset xs.
Proof. apply uniq_loop_set_add_all. Qed.

Lemma filter_filter_comm {A : Type} (p q : A -> bool) (l : list A) :
  filter p (filter q l) = filter q (filter p l).
Proof.
  induction l as [|x l IH]; simpl; [reflexivity|].
  destruct (p x) eqn:P, (q x) eqn:Q; simpl; rewrite ?P, ?Q, IH; reflexivity.
Qed.

Lemma filter_all {A : Type} (q : A -> bool) (l : list A) :
  (forall y, In y l -> q y = true) -> filter q l = l.
Proof.
  induction l as [|x l IH]; intros H; simpl; [reflexivity|].
  rewrite (H x (or_introl eq_refl)), IH; [reflexivity|].
  intros y Hy. apply H. right. exact Hy.
Qed.

Lemma filter_first_occurrences (p : Z -> bool) (xs : list Z) :
  filter p (first_occurrences xs) = first_occurrences (filter p xs).
Proof.
  induction xs as [|x xs IH]; simpl; [reflexivity|].
  destruct (p x) eqn:P; simpl.
  - rewrite filter_filter_comm, IH. reflexivity.
  - rewrite filter_filter_comm, filter_all; [exact IH|].
    intros y Hy. apply filter_In in Hy. destruct Hy as [_ Py].
    destruct (Z.eqb_spec y x) as [-> | _]; [congruence | reflexivity].
Qed.

Lemma filter_filter_and {A : Type} (p q : A -> bool) (l : list A) :
  filter p (filter q l) = filter (fun y => (p y && q y)%bool) l.
Proof.
  induction l as [|x l IH]; simpl; [reflexivity|].
  destruct (q x) eqn:Q; simpl; rewrite ?andb_true_r, ?andb_false_r.
  - destruct (p x); rewrite IH; reflexivity.
  - exact IH.
Qed.

Lemma set_add_all_first_occurrences (xs acc : list Z) :
  set_add_all xs acc
  = acc ++ first_occurrences (filter (fun y => negb (int_mem y acc)) xs).
Proof.
  revert acc; induction xs as [|x xs IH]; intros acc; simpl.
  - rewrite app_nil_r. reflexivity.
  - destruct (int_mem x acc) eqn:M; simpl; [apply IH|].
    rewrite IH, <- app_assoc. simpl. do 2 f_equal.
    rewrite filter_first_occurrences, filter_filter_and.
    f_equal. apply filter_ext. intros y.
    unfold int_mem. rewrite existsb_app. simpl.
    rewrite orb_false_r, negb_orb. apply andb_comm.
Qed.

Lemma uniq_NoDup (xs : list Z) : NoDup (uniq xs).
Proof. rewrite uniq_pyset. apply pyset_NoDup. Qed.

Lemma uniq_In (xs : list Z) (x : Z) : In x (uniq xs) <-> In x xs.
Proof. rewrite uniq_pyset. apply pyset_In. Qed.

(** The inner [uniq] of [chord_required_semitones] keeps the first
    occurrence of every element, in order, and drops the later ones: the
    result has no repeats and the same elements. *)
Theorem uniq_first_occurrences (xs : list Z) :
  uniq xs = first_occurrences xs
  /\ NoDup (uniq xs)
  /\ (forall x, In x (uniq xs) <-> In x xs).
Proof.
  split.
  - rewrite uniq_pyset. unfold pyset. rewrite set_add_all_first_occurrences.
    rewrite filter_all by reflexivity. reflexivity.
  - split; [apply uniq_NoDup | intros x; apply uniq_In].
Qed.

(** For every chord descriptor the core starts with the root offset 0 and
    has three or four different offsets among 0, 3, 4, 7, 10, 11; the extra
    offsets are different from each other and among 1, 2, 3, 5, 6, 8, 9. *)
Theorem required_semitones_shape (U : UnicodeCase) (ch : Chord) :
  let core := fst (chord_required_semitones ch) in
  let extra := snd (chord_required_semitones ch) in
  nth_error core 0 = Some 0
  /\ (List.length core = 3%nat \/ List.length core = 4%nat)
  /\ NoDup core /\ incl core core_offsets
  /\ NoDup extra /\ incl extra extra_offsets
  /\ (List.length extra <= 7)%nat.
Proof.
  cbv zeta. unfold chord_required_semitones. cbv zeta. cbn [fst snd].
  assert (C : forall l, In l [[0; 4; 7]; [0; 4; 7; 11]; [0; 3; 7]; [0; 3; 7; 10];
                               [0; 4; 7; 10]] ->
                nth_error (uniq l) 0 = Some 0
                /\ (List.length (uniq l) = 3%nat \/ List.length (uniq l) = 4%nat)
                /\ NoDup (uniq l) /\ incl (uniq l) core_offsets).
  { intros l H. split; [|split; [|split]].
    - simpl in H. intuition (subst; reflexivity).
    - simpl in H. intuition (subst; auto).
    - apply uniq_NoDup.
    - intros x Hx. apply uniq_In in Hx.
      simpl in H. unfold core_offsets.
      intuition (subst; simpl in Hx; simpl; intuition). }
  assert (E : forall l, incl l extra_offsets ->
                NoDup (uniq l) /\ incl (uniq l) extra_offsets
                /\ (List.length (uniq l) <= 7)%nat).
  { intros l H.
    assert (I : incl (uniq l) extra_offsets).
    { intros x Hx. apply H, uniq_In, Hx. }
    split; [apply uniq_NoDup|]. split; [exact I|].
    apply (NoDup_incl_length (uniq_NoDup l) I). }
  split; [|split; [|split; [|split]]];
    try (destruct (quality ch);
         repeat match goal with
                | |- context [if ?b then _ else _] => destruct b
                end;
         apply C; simpl; tauto).
  apply E. intros x Hx. unfold extra_offsets.
  repeat (apply in_app_or in Hx; destruct Hx as [Hx | Hx];
          [match type of Hx with
           | In _ (if ?b then _ else _) => destruct b
           end; simpl in Hx; simpl; intuition|]).
  match type of Hx with
  | In _ (if ?b then _ else _) => destruct b
  end; simpl in Hx; simpl; intuition.
Qed.

(** ** What the parser records *)

Lemma ALTS_NoDup : NoDup ALTS.
Proof.
  unfold ALTS.
  repeat (constructor; [vm_compute; intuition discriminate|]). constructor.
Qed.

Lemma EXTS_NoDup : NoDup EXTS.
Proof.
  unfold EXTS.
  repeat (constructor; [vm_compute; intuition discriminate|]). constructor.
Qed.

Lemma startswith_tail (c : codepoint) (p s : pystr) :
  startswith (c :: p) s = true -> exists s', s = c :: s' /\ startswith p s' = true.
Proof.
  destruct s as [|d s']; simpl; [discriminate|].
  intros H. apply andb_true_iff in H. destruct H as [E H].
  apply N.eqb_eq in E. subst. exists s'. auto.
Qed.

Lemma startswith_contains (p s : pystr) :
  startswith p s = true -> contains p s = true.
Proof. intros H. destruct s; simpl in *; rewrite H; reflexivity. Qed.

(** A string that contains a token contains the token without its first
    character. *)
Lemma contains_tail (c : codepoint) (p s : pystr) :
  contains (c :: p) s = true -> contains p s = true.
Proof.
  induction s as [|d s IH]; intros H.
  - simpl in H. discriminate.
  - cbn [contains] in H. apply orb_true_iff in H. destruct H as [H | H].
    + apply startswith_tail in H. destruct H as (s' & E & H).
      inversion E; subst. cbn [contains].
      rewrite (startswith_contains _ _ H). apply orb_true_r.
    + cbn [contains]. rewrite (IH H). apply orb_true_r.
Qed.

Section ParserFacts.
Context {U : UnicodeCase}.

(** The fields of a parsed chord, in terms of the lower-cased rest [r] of
    the symbol. *)
Lemma parse_chord_symbol_fields (sym : pystr) (ch : Chord) :
  parse_chord_symbol sym = Ok ch ->
  exists r : pystr,
    alts ch = filter (fun a => contains a r) ALTS
    /\ exts ch = filter (fun e => contains e r) EXTS
    /\ dominant ch
       = (existsb (fun x => contains x r) [py "7"; py "9"; py "11"; py "13"]
          && (negb (contains (py "maj") r)
              && negb (startswith (py "m") r || contains (py "min") r)))%bool
    /\ (quality ch = Qdom <-> dominant ch = true)
    /\ (quality ch = Qmin ->
        (startswith (py "m") r || contains (py "min") r)%bool = true).
Proof.
  unfold parse_chord_symbol.
  destruct (accidentals_to_ascii (strip sym)) as [|c0 s'] eqn:E; [discriminate|].
  match goal with
  | |- context [if ?b then (firstn 2 ?s, skipn 2 ?s) else _] => destruct b
  end; cbv zeta; intros H; injection H as <-;
    match goal with
    | |- context [lower ?x] => exists (lower x); set (r := lower x)
    end;
    (split; [reflexivity|]); (split; [reflexivity|]); (split; [reflexivity|]);
    cbv beta iota delta [quality dominant];
    set (ex := orb (contains (py "7") r) _);
    set (mm := orb _ (contains (py "min") r));
    destruct ex;
    destruct (contains (py "maj") r);
    destruct mm;
    destruct (contains (py "ma7") r);
    destruct (contains (py "maj7") r);
    destruct (contains [DELTA] r);
    cbn [andb orb negb]; intuition congruence.
Qed.

End ParserFacts.

(** For a parsed chord the quality is dominant exactly when the [dominant]
    flag is set, and then at least one extension is recorded.  The
    alterations and the extensions are tokens of the two fixed lists, none
    twice.  An altered ninth, eleventh or thirteenth (b9, #9, #11, b13) is
    always recorded together with the plain extension 9, 11 or 13, because
    the parser looks for the plain token anywhere in the symbol. *)
Theorem parse_chord_symbol_records (U : UnicodeCase) (sym : pystr) (ch : Chord) :
  parse_chord_symbol sym = Ok ch ->
  (quality ch = Qdom <-> dominant ch = true)
  /\ (dominant ch = true -> exts ch <> [])
  /\ NoDup (alts ch) /\ incl (alts ch) ALTS
  /\ NoDup (exts ch) /\ incl (exts ch) EXTS
  /\ (In (py "b9") (alts ch) \/ In (py "#9") (alts ch) -> In (py "9") (exts ch))
  /\ (In (py "#11") (alts ch) -> In (py "11") (exts ch))
  /\ (In (py "b13") (alts ch) -> In (py "13") (exts ch)).
Proof.
  intros H. destruct (parse_chord_symbol_fields sym ch H)
    as (r & Ha & He & Hd & Hq & _).
  assert (A : forall a, In a (alts ch) <-> In a ALTS /\ contains a r = true)
    by (intros a; rewrite Ha, filter_In; cbv beta; tauto).
  assert (E : forall e, In e (exts ch) <-> In e EXTS /\ contains e r = true)
    by (intros e; rewrite He, filter_In; cbv beta; tauto).
  split; [exact Hq|].
  split.
  { intros D. rewrite Hd in D. apply andb_true_iff in D. destruct D as [D _].
    apply existsb_exists in D. destruct D as (x & Hx & Cx).
    assert (I : In x (exts ch)).
    { apply E. split; [|exact Cx]. unfold EXTS. simpl in Hx |- *. tauto. }
    intros N. rewrite N in I. contradiction. }
  split; [rewrite Ha; apply NoDup_filter, ALTS_NoDup|].
  split; [intros a Ia; apply A in Ia; tauto|].
  split; [rewrite He; apply NoDup_filter, EXTS_NoDup|].
  split; [intros e Ie; apply E in Ie; tauto|].
  split; [|split].
  - intros [I | I]; apply A in I; destruct I as [_ I];
      apply E; (split; [unfold EXTS; simpl; tauto|]);
      exact (contains_tail _ (py "9") r I).
  - intros I. apply A in I. destruct I as [_ I].
    apply E. split; [unfold EXTS; simpl; tauto|].
    exact (contains_tail _ (py "11") r I).
  - intros I. apply A in I. destruct I as [_ I].
    apply E. split; [unfold EXTS; simpl; tauto|].
    exact (contains_tail _ (py "13") r I).
Qed.

(** The chord "C7b9": dominant, with the extensions 9 and 7 beside b9. *)
Lemma parse_chord_symbol_records_witness :
  exists ch,
    parse_chord_symbol (py "C7b9") = Ok ch
    /\ dominant ch = true
    /\ In (py "b9") (alts ch) /\ In (py "9") (exts ch).
Proof.
  eexists. split; [reflexivity|]. split; [reflexivity|].
  split; [simpl; tauto|].
  refine (proj1 (proj2 (proj2 (proj2 (proj2 (proj2 (proj2
            (parse_chord_symbol_records ascii_only (py "C7b9") _ eq_refl)))))))
            _).
  left. simpl. tauto.
Defined.

(** So a chord with an altered ninth requires the natural ninth too: the
    extra offsets of a parsed chord with b9 hold both 2 and 1, with #9 both
    2 and 3; likewise 5 beside 6 for #11 and 9 beside 8 for b13. *)
Theorem altered_tone_requires_plain (U : UnicodeCase) (sym : pystr) (ch : Chord) :
  parse_chord_symbol sym = Ok ch ->
  let extra := snd (chord_required_semitones ch) in
  (In (py "b9") (alts ch) -> In 1 extra /\ In 2 extra)
  /\ (In (py "#9") (alts ch) -> In 3 extra /\ In 2 extra)
  /\ (In (py "#11") (alts ch) -> In 6 extra /\ In 5 extra)
  /\ (In (py "b13") (alts ch) -> In 8 extra /\ In 9 extra).
Proof.
  intros H. destruct (parse_chord_symbol_fields sym ch H)
    as (r & Ha & He & _ & _ & _).
  assert (A : forall a, In a (alts ch) -> contains a r = true)
    by (intros a; rewrite Ha, filter_In; cbv beta; tauto).
  assert (E : forall e, In e EXTS -> contains e r = true -> In e (exts ch))
    by (intros e I C; rewrite He, filter_In; cbv beta; tauto).
  cbv zeta. unfold chord_required_semitones. cbv zeta. cbn [snd].
  assert (P : forall a e, In a (alts ch) -> In e EXTS ->
                (contains a r = true -> contains e r = true) ->
                str_mem a (alts ch) = true /\ str_mem e (exts ch) = true).
  { intros a e Ia Ie C. split; apply str_mem_In; [exact Ia|].
    apply E; [exact Ie | apply C, A, Ia]. }
  split; [|split; [|split]]; intros I.
  - destruct (P (py "b9") (py "9") I) as [Sa Se];
      [unfold EXTS; simpl; tauto | apply contains_tail|].
    split; apply uniq_In; rewrite Sa, Se;
      rewrite !in_app_iff; simpl; tauto.
  - destruct (P (py "#9") (py "9") I) as [Sa Se];
      [unfold EXTS; simpl; tauto | apply contains_tail|].
    split; apply uniq_In; rewrite Sa, Se;
      rewrite !in_app_iff; simpl; tauto.
  - destruct (P (py "#11") (py "11") I) as [Sa Se];
      [unfold EXTS; simpl; tauto | apply contains_tail|].
    split; apply uniq_In; rewrite Sa, Se;
      rewrite !in_app_iff; simpl; tauto.
  - destruct (P (py "b13") (py "13") I) as [Sa Se];
      [unfold EXTS; simpl; tauto | apply contains_tail|].
    split; apply uniq_In; rewrite Sa, Se;
      rewrite !in_app_iff; simpl; tauto.
Qed.

(** The chord "C7b9" requires the offsets 2 and 1 beside its core. *)
Lemma altered_tone_requires_plain_witness :
  exists ch,
    parse_chord_symbol (py "C7b9") = Ok ch
    /\ In 1 (snd (chord_required_semitones ch))
    /\ In 2 (snd (chord_required_semitones ch)).
Proof.
  eexists. split; [reflexivity|].
  refine (proj1 (altered_tone_requires_plain ascii_only (py "C7b9") _ eq_refl) _).
  simpl. tauto.
Defined.

(** ** More on the melody function labels *)

Section ClassifierFacts.
Local Open Scope nat_scope.

Lemma neighbor_events_In cts m k (e : event) :
  In e (neighbor_events cts m k) <->
  (Z.eqb (nth (k - 1) m 0%Z) (nth (k + 1) m 0%Z)
   && int_mem (nth (k - 1) m 0%Z) cts)%bool = true
  /\ ((e = (k, upper_neighbor)
       /\ int_mem ((nth k m 0%Z - nth (k - 1) m 0%Z) mod 12)%Z [1; 2]%Z = true)
      \/ (e = (k, lower_neighbor)
          /\ int_mem ((nth k m 0%Z - nth (k - 1) m 0%Z) mod 12)%Z [1; 2]%Z = false
          /\ int_mem ((nth k m 0%Z - nth (k - 1) m 0%Z) mod 12)%Z [10; 11]%Z = true)).
Proof.
  unfold neighbor_events. cbv zeta.
  destruct (_ && _)%bool;
    [destruct (int_mem _ [1; 2]%Z);
     [|destruct (int_mem _ [10; 11]%Z)]|];
    simpl; intuition (congruence || auto).
Qed.

Lemma passing_events_In cts m k (e : event) :
  In e (passing_events cts m k) <->
  (int_mem (nth (k - 1) m 0%Z) cts && int_mem (nth (k + 1) m 0%Z) cts
   && negb (int_mem (nth k m 0%Z) cts))%bool = true
  /\ (is_step ((nth k m 0%Z - nth (k - 1) m 0%Z) mod 12)%Z
      && is_step ((nth (k + 1) m 0%Z - nth k m 0%Z) mod 12)%Z)%bool = true
  /\ (e = (k, passing_tone) \/ e = (k, chromatic_passing_tone))
  /\ (e = (k, chromatic_passing_tone) <->
      (Z.eqb ((nth k m 0%Z - nth (k - 1) m 0%Z) mod 12)%Z 1%Z
       || Z.eqb ((nth (k + 1) m 0%Z - nth k m 0%Z) mod 12)%Z 1%Z
       || Z.eqb ((nth k m 0%Z - nth (k - 1) m 0%Z) mod 12)%Z 11%Z
       || Z.eqb ((nth (k + 1) m 0%Z - nth k m 0%Z) mod 12)%Z 11%Z)%bool = true).
Proof.
  unfold passing_events. cbv zeta.
  destruct (_ && _ && negb _)%bool;
    [destruct (is_step _ && is_step _)%bool;
     [destruct (_ || _ || _ || _)%bool|]|];
    simpl; intuition (congruence || auto).
Qed.

(** Where each label of the result comes from. *)
Lemma all_events_In m root_pc q j (l : FunctionLabel) :
  In (j, l) (all_events m root_pc q) <->
  (j < List.length m
   /\ In (j, l) (tone_events (guide_tones root_pc q) (chord_tones root_pc q) m j))
  \/ (exists k, 1 <= k <= List.length m - 2
                /\ In (j, l) (scale_line_events m k))
  \/ (1 <= j <= List.length m - 2
      /\ In (j, l) (neighbor_events (chord_tones root_pc q) m j))
  \/ (1 <= j <= List.length m - 2
      /\ In (j, l) (passing_events (chord_tones root_pc q) m j)).
Proof.
  unfold all_events. cbv zeta. rewrite !in_app_iff, !in_flat_map.
  assert (S : forall a k x, In x (seq a k) <-> a <= x < a + k)
    by (intros; apply in_seq).
  split.
  - intros [(k & Hk & He) | [(k & Hk & He) | [(k & Hk & He) | (k & Hk & He)]]];
      apply S in Hk.
    + left. pose proof He as He'. apply tone_events_In in He'.
      assert (k = j) by (destruct He' as [[E _] | [E _]]; inversion E; auto).
      subst. split; [lia | exact He].
    + right. left. exists k. split; [lia | exact He].
    + right. right. left. pose proof He as He'.
      apply neighbor_events_label in He'. simpl in He'. destruct He' as [<- _].
      split; [lia | exact He].
    + right. right. right. pose proof He as He'.
      apply passing_events_label in He'. simpl in He'. destruct He' as [<- _].
      split; [lia | exact He].
  - intros [[Hj He] | [(k & Hk & He) | [[Hj He] | [Hj He]]]].
    + left. exists j. split; [apply S; lia | exact He].
    + right. left. exists k. split; [apply S; lia | exact He].
    + right. right. left. exists j. split; [apply S; lia | exact He].
    + right. right. right. exists j. split; [apply S; lia | exact He].
Qed.

Lemma chord_tone_label m root_pc q j :
  In chord_tone (nth j (analyze_melody_functions m root_pc q) []) <->
  j < List.length m /\ In (nth j m 0%Z) (chord_tones root_pc q).
Proof.
  rewrite label_at_index, all_events_In, <- int_mem_In. split.
  - intros [Hj [[_ H] | [(k & _ & H) | [[_ H] | [_ H]]]]]; split; try exact Hj.
    + apply tone_events_In in H. destruct H as [[E _] | [_ H]];
        [discriminate | exact H].
    + apply scale_line_events_label in H. discriminate.
    + apply neighbor_events_label in H. simpl in H. intuition discriminate.
    + apply passing_events_label in H. simpl in H. intuition discriminate.
  - intros [Hj H]. split; [exact Hj|]. left. split; [exact Hj|].
    apply tone_events_In. right. auto.
Qed.

Lemma guide_tone_label m root_pc q j :
  In guide_tone (nth j (analyze_melody_functions m root_pc q) []) <->
  j < List.length m /\ In (nth j m 0%Z) (guide_tones root_pc q).
Proof.
  rewrite label_at_index, all_events_In, <- int_mem_In. split.
  - intros [Hj [[_ H] | [(k & _ & H) | [[_ H] | [_ H]]]]]; split; try exact Hj.
    + apply tone_events_In in H. destruct H as [[_ H] | [E _]];
        [exact H | discriminate].
    + apply scale_line_events_label in H. discriminate.
    + apply neighbor_events_label in H. simpl in H. intuition discriminate.
    + apply passing_events_label in H. simpl in H. intuition discriminate.
  - intros [Hj H]. split; [exact Hj|]. left. split; [exact Hj|].
    apply tone_events_In. left. auto.
Qed.

Lemma neighbor_label m root_pc q j (l : FunctionLabel) :
  l = upper_neighbor \/ l = lower_neighbor ->
  In l (nth j (analyze_melody_functions m root_pc q) []) <->
  1 <= j <= List.length m - 2
  /\ In (j, l) (neighbor_events (chord_tones root_pc q) m j).
Proof.
  intros Hl. rewrite label_at_index, all_events_In. split.
  - intros [Hj [[_ H] | [(k & _ & H) | [H | [_ H]]]]].
    + apply tone_events_In in H.
      destruct Hl; subst; destruct H as [[E _] | [E _]]; discriminate.
    + apply scale_line_events_label in H. simpl in H.
      destruct Hl; subst; discriminate.
    + exact H.
    + apply passing_events_label in H. simpl in H.
      destruct Hl; subst; intuition discriminate.
  - intros [Hj H]. split; [lia|]. right. right. left. auto.
Qed.

Lemma passing_label m root_pc q j (l : FunctionLabel) :
  l = passing_tone \/ l = chromatic_passing_tone ->
  In l (nth j (analyze_melody_functions m root_pc q) []) <->
  1 <= j <= List.length m - 2
  /\ In (j, l) (passing_events (chord_tones root_pc q) m j).
Proof.
  intros Hl. rewrite label_at_index, all_events_In. split.
  - intros [Hj [[_ H] | [(k & _ & H) | [[_ H] | H]]]].
    + apply tone_events_In in H.
      destruct Hl; subst; destruct H as [[E _] | [E _]]; discriminate.
    + apply scale_line_events_label in H. simpl in H.
      destruct Hl; subst; discriminate.
    + apply neighbor_events_label in H. simpl in H.
      destruct Hl; subst; intuition discriminate.
    + exact H.
  - intros [Hj H]. split; [lia|]. right. right. right. auto.
Qed.

End ClassifierFacts.

(** The labels [chord_tone] and [guide_tone] stand at exactly the notes
    whose pitch class is in the chord-tone set, respectively the guide-tone
    set, of the chord. *)
Theorem tone_labels_mark_members (melody_pcs : list Z) (root_pc : Z)
  (q : Quality) (i : nat) :
  let labels := nth i (analyze_melody_functions melody_pcs root_pc q) [] in
  (In chord_tone labels <->
   (i < List.length melody_pcs)%nat
   /\ In (nth i melody_pcs 0) (chord_tones root_pc q))
  /\ (In guide_tone labels <->
      (i < List.length melody_pcs)%nat
      /\ In (nth i melody_pcs 0) (guide_tones root_pc q)).
Proof. split; [apply chord_tone_label | apply guide_tone_label]. Qed.

(** The labels that look at three notes in a row never stand at the first
    or the last note: a neighbor or passing label stands at an inner index,
    and no melody of fewer than three notes gets one, nor [scale_line]. *)
Theorem window_labels_inside (melody_pcs : list Z) (root_pc : Z)
  (q : Quality) (i : nat) (l : FunctionLabel) :
  In l (nth i (analyze_melody_functions melody_pcs root_pc q) []) ->
  (In l [upper_neighbor; lower_neighbor; passing_tone; chromatic_passing_tone]
   -> (1 <= i <= List.length melody_pcs - 2)%nat)
  /\ (l <> chord_tone -> l <> guide_tone -> (3 <= List.length melody_pcs)%nat).
Proof.
  intros H. split.
  - intros Hl. simpl in Hl.
    destruct Hl as [<- | [<- | [<- | [<- | []]]]].
    + apply neighbor_label in H; [tauto | auto].
    + apply neighbor_label in H; [tauto | auto].
    + apply passing_label in H; [tauto | auto].
    + apply passing_label in H; [tauto | auto].
  - intros N1 N2. apply label_at_index in H. destruct H as [Hi H].
    apply all_events_In in H.
    destruct H as [[_ H] | [(k & Hk & _) | [[Hj _] | [Hj _]]]]; try lia.
    apply tone_events_In in H.
    destruct H as [[E _] | [E _]]; inversion E; subst; contradiction.
Qed.

(** D between two C over the chord C: an upper neighbor at index 1. *)
Lemma window_labels_inside_witness :
  (In upper_neighbor
      [upper_neighbor; lower_neighbor; passing_tone; chromatic_passing_tone]
   -> (1 <= 1 <= List.length [0; 2; 0] - 2)%nat)
  /\ (upper_neighbor <> chord_tone -> upper_neighbor <> guide_tone ->
      (3 <= List.length [0; 2; 0])%nat).
Proof.
  apply (window_labels_inside [0; 2; 0] 0 Qmaj 1 upper_neighbor).
  simpl. auto.
Defined.

(** A note with a passing label is no chord tone, while the notes before
    and after it are; it has one of the two passing labels, never both;
    and no note is both an upper and a lower neighbor. *)
Theorem passing_labels_exclusive (melody_pcs : list Z) (root_pc : Z)
  (q : Quality) (i : nat) :
  let labels := analyze_melody_functions melody_pcs root_pc q in
  let here := nth i labels [] in
  (In passing_tone here \/ In chromatic_passing_tone here ->
   ~ In chord_tone here
   /\ In chord_tone (nth (i - 1) labels [])
   /\ In chord_tone (nth (i + 1) labels []))
  /\ ~ (In passing_tone here /\ In chromatic_passing_tone here)
  /\ ~ (In upper_neighbor here /\ In lower_neighbor here).
Proof.
  cbv zeta. split; [|split].
  - intros H.
    assert (P : (1 <= i <= List.length melody_pcs - 2)%nat
                /\ (int_mem (nth (i - 1) melody_pcs 0) (chord_tones root_pc q)
                    && int_mem (nth (i + 1) melody_pcs 0) (chord_tones root_pc q)
                    && negb (int_mem (nth i melody_pcs 0) (chord_tones root_pc q)))%bool
                   = true).
    { destruct H as [H | H]; apply passing_label in H; auto;
        destruct H as [Hi H]; apply passing_events_In in H; tauto. }
    destruct P as [Hi P].
    apply andb_true_iff in P. destruct P as [P Pb].
    apply andb_true_iff in P. destruct P as [Pa Pc].
    apply negb_true_iff, int_mem_false in Pb.
    apply int_mem_In in Pa, Pc.
    rewrite !chord_tone_label. split; [tauto|]. split; (split; [lia | assumption]).
  - intros [H1 H2].
    apply passing_label in H1; auto. apply passing_label in H2; auto.
    destruct H1 as [_ H1]. destruct H2 as [_ H2].
    apply passing_events_In in H1, H2.
    destruct H1 as (_ & _ & _ & [_ B1]). destruct H2 as (_ & _ & _ & [F2 _]).
    specialize (B1 (F2 eq_refl)). discriminate.
  - intros [H1 H2].
    apply neighbor_label in H1; auto. apply neighbor_label in H2; auto.
    destruct H1 as [_ H1]. destruct H2 as [_ H2].
    apply neighbor_events_In in H1, H2.
    destruct H1 as [_ [[_ U1] | [E _]]]; [|discriminate].
    destruct H2 as [_ [[E _] | [_ [U2 _]]]]; [discriminate | congruence].
Qed.

Lemma passing_labels_exclusive_witness :
  ~ In chord_tone (nth 1 (analyze_melody_functions [0; 2; 4] 0 Qmaj) [])
  /\ In chord_tone (nth 0 (analyze_melody_functions [0; 2; 4] 0 Qmaj) [])
  /\ In chord_tone (nth 2 (analyze_melody_functions [0; 2; 4] 0 Qmaj) []).
Proof.
  apply (proj1 (passing_labels_exclusive [0; 2; 4] 0 Qmaj 1)).
  left. simpl. auto.
Defined.

(** A neighbor note that is no chord tone is always labelled as a passing
    note too: the note it leaves and returns to is a chord tone, and both
    steps are of one or two semitones. *)
Theorem neighbor_is_also_passing (melody_pcs : list Z) (root_pc : Z)
  (q : Quality) (i : nat) :
  let here := nth i (analyze_melody_functions melody_pcs root_pc q) [] in
  In upper_neighbor here \/ In lower_neighbor here ->
  ~ In chord_tone here ->
  In passing_tone here \/ In chromatic_passing_tone here.
Proof.
  cbv zeta. intros H N.
  assert (P : (1 <= i <= List.length melody_pcs - 2)%nat
              /\ exists l, (l = upper_neighbor \/ l = lower_neighbor)
                           /\ In (i, l) (neighbor_events (chord_tones root_pc q)
                                           melody_pcs i)).
  { destruct H as [H | H]; apply neighbor_label in H; auto;
      destruct H as [Hi H]; (split; [exact Hi|]); eexists; split;
      [left; reflexivity | exact H | right; reflexivity | exact H]. }
  destruct P as (Hi & l & Hl & He).
  apply neighbor_events_In in He. destruct He as [C S].
  apply andb_true_iff in C. destruct C as [Eac Ha].
  apply Z.eqb_eq in Eac.
  rewrite chord_tone_label in N.
  assert (Nb : int_mem (nth i melody_pcs 0) (chord_tones root_pc q) = false).
  { apply int_mem_false. intros I. apply N. split; [lia | exact I]. }
  set (a := nth (i - 1) melody_pcs 0) in *.
  set (b := nth i melody_pcs 0) in *.
  set (c := nth (i + 1) melody_pcs 0) in *.
  assert (St : is_step ((b - a) mod 12) = true
               /\ is_step ((c - b) mod 12) = true).
  { unfold is_step. rewrite <- Eac.
    assert (B : 0 <= (b - a) mod 12 < 12) by (apply Z.mod_pos_bound; lia).
    assert (D : (b - a) mod 12 = 1 \/ (b - a) mod 12 = 2
                \/ (b - a) mod 12 = 10 \/ (b - a) mod 12 = 11).
    { destruct S as [[_ S] | [_ [_ S]]]; apply int_mem_In in S; simpl in S;
        intuition. }
    assert (D' : (a - b) mod 12 = 12 - (b - a) mod 12).
    { clear - D. Z.div_mod_to_equations. lia. }
    split; apply int_mem_In; simpl; lia. }
  destruct St as [S1 S2].
  assert (Hc : int_mem c (chord_tones root_pc q) = true)
    by (rewrite <- Eac; exact Ha).
  destruct (Z.eqb ((b - a) mod 12) 1 || Z.eqb ((c - b) mod 12) 1
            || Z.eqb ((b - a) mod 12) 11 || Z.eqb ((c - b) mod 12) 11)%bool
    eqn:Chr.
  - right. apply passing_label; auto. split; [exact Hi|].
    apply passing_events_In. fold a b c.
    rewrite Ha, Hc, Nb, S1, S2, Chr.
    repeat split; auto.
  - left. apply passing_label; auto. split; [exact Hi|].
    apply passing_events_In. fold a b c.
    rewrite Ha, Hc, Nb, S1, S2, Chr.
    repeat split; auto; discriminate.
Qed.

(** C, D, C over the chord C: D is an upper neighbor and a passing tone. *)
Lemma neighbor_is_also_passing_witness :
  In passing_tone (nth 1 (analyze_melody_functions [0; 2; 0] 0 Qmaj) [])
  \/ In chromatic_passing_tone
       (nth 1 (analyze_melody_functions [0; 2; 0] 0 Qmaj) []).
Proof.
  apply (neighbor_is_also_passing [0; 2; 0] 0 Qmaj 1).
  - left. simpl. auto.
  - simpl. intuition discriminate.
Defined.

(** ** Moving chord and melody together *)

Section Transposition.
Context {SO : SetOrder}.
Variable k : Z.

Lemma transpose_root (root_pc s : Z) :
  (root_pc + k + s) mod 12 = transpose k ((root_pc + s) mod 12).
Proof.
  unfold transpose. rewrite Zplus_mod_idemp_l. f_equal. lia.
Qed.

Lemma transpose_range (pc : Z) : 0 <= transpose k pc < 12.
Proof. apply Z.mod_pos_bound. lia. Qed.

Lemma transpose_injective (a b : Z) :
  0 <= a < 12 -> 0 <= b < 12 -> transpose k a = transpose k b -> a = b.
Proof.
  unfold transpose. intros Ha Hb H.
  apply (shift_mod_12_injective k); auto.
  rewrite (Z.add_comm k a), (Z.add_comm k b). exact H.
Qed.

Lemma int_mem_transpose (x : Z) (xs : list Z) :
  0 <= x < 12 -> Forall (fun y => 0 <= y < 12) xs ->
  int_mem (transpose k x) (map (transpose k) xs) = int_mem x xs.
Proof.
  intros Hx H. induction H as [|y xs Hy _ IH]; simpl; [reflexivity|].
  rewrite IH. f_equal.
  destruct (Z.eqb_spec x y) as [-> | N]; [apply Z.eqb_refl|].
  apply Z.eqb_neq. intros E. apply N.
  apply transpose_injective; assumption.
Qed.

Lemma set_add_all_transpose (xs acc : list Z) :
  Forall (fun y => 0 <= y < 12) xs -> Forall (fun y => 0 <= y < 12) acc ->
  set_add_all (map (transpose k) xs) (map (transpose k) acc)
  = map (transpose k) (set_add_all xs acc).
Proof.
  intros Hx. revert acc. induction Hx as [|x xs Rx _ IH]; intros acc Ha; simpl.
  - reflexivity.
  - rewrite (int_mem_transpose x acc Rx Ha).
    destruct (int_mem x acc).
    + apply IH, Ha.
    + rewrite <- IH.
      * rewrite map_app. reflexivity.
      * apply Forall_app. split; [exact Ha | constructor; [exact Rx | constructor]].
Qed.

Lemma pcs_range (root_pc : Z) (offsets : list Z) :
  Forall (fun y => 0 <= y < 12) (map (fun s => (root_pc + s) mod 12) offsets).
Proof.
  apply Forall_forall. intros y H. apply in_map_iff in H.
  destruct H as (s & <- & _). apply Z.mod_pos_bound. lia.
Qed.

(** The set of the absolute pitch classes of some offsets, on the root
    moved by [k], is the set on the root, moved by [k]. *)
Lemma pyset_transpose (root_pc : Z) (offsets : list Z) :
  pyset (map (fun s => (root_pc + k + s) mod 12) offsets)
  = map (transpose k) (pyset (map (fun s => (root_pc + s) mod 12) offsets)).
Proof.
  unfold pyset.
  rewrite <- (set_add_all_transpose _ [] (pcs_range root_pc offsets)
                (Forall_nil _)).
  simpl. f_equal. rewrite map_map. apply map_ext. intros s.
  apply transpose_root.
Qed.

Lemma in_mode_transpose (root_pc : Z) (m : Mode) (pc : Z) :
  0 <= pc < 12 ->
  in_mode (root_pc + k) m (transpose k pc) = in_mode root_pc m pc.
Proof.
  intros H. unfold in_mode.
  induction (intervals m) as [|iv ivs IH]; simpl; [reflexivity|].
  rewrite IH. f_equal. rewrite transpose_root.
  destruct (Z.eqb_spec ((root_pc + iv) mod 12) pc) as [-> | N];
    [apply Z.eqb_refl|].
  apply Z.eqb_neq. intros E. apply N.
  apply transpose_injective; [apply Z.mod_pos_bound; lia | exact H | exact E].
Qed.

Lemma filter_map_swap {A B : Type} (p : B -> bool) (g : A -> B) (l : list A) :
  filter p (map g l) = map g (filter (fun x => p (g x)) l).
Proof.
  induction l as [|x l IH]; simpl; [reflexivity|].
  destruct (p (g x)); rewrite IH; reflexivity.
Qed.

Lemma pyset_range (xs : list Z) :
  Forall (fun y => 0 <= y < 12) xs -> Forall (fun y => 0 <= y < 12) (pyset xs).
Proof.
  intros H. rewrite Forall_forall in *. intros y Hy. apply H, pyset_In, Hy.
Qed.

Lemma filter_Permutation {A : Type} (p : A -> bool) (l l' : list A) :
  Permutation l l' -> Permutation (filter p l) (filter p l').
Proof.
  induction 1 as [|x l l' _ IH|x y l|l l' l'' _ IH1 _ IH2]; simpl.
  - constructor.
  - destruct (p x); [constructor|]; exact IH.
  - destruct (p x), (p y); try apply Permutation_refl. apply perm_swap.
  - eapply Permutation_trans; eassumption.
Qed.

(** The missing tones on the moved root are the missing tones, moved; the
    order in which the two sets are walked need not correspond. *)
Lemma missing_transpose (root_pc : Z) (m : Mode) (offsets : list Z) :
  Permutation
    (filter (fun pc => negb (int_mem pc (pyset (build_scale_from_intervals
                                               (root_pc + k) (intervals m)))))
       (set_iter (pyset (map (fun s => (root_pc + k + s) mod 12) offsets))))
    (map (transpose k)
       (filter (fun pc => negb (int_mem pc (pyset (build_scale_from_intervals
                                                  root_pc (intervals m)))))
          (set_iter (pyset (map (fun s => (root_pc + s) mod 12) offsets))))).
Proof.
  eapply Permutation_trans.
  { apply filter_Permutation, set_iter_Permutation. }
  rewrite pyset_transpose, filter_map_swap.
  apply Permutation_map.
  assert (E : forall l,
             incl l (pyset (map (fun s => (root_pc + s) mod 12) offsets)) ->
             filter (fun x => negb (int_mem (transpose k x)
                                      (pyset (build_scale_from_intervals
                                                (root_pc + k) (intervals m))))) l
             = filter (fun pc => negb (int_mem pc
                                         (pyset (build_scale_from_intervals
                                                   root_pc (intervals m))))) l).
  { intros l I. apply filter_ext_in. intros pc Hpc.
    rewrite !in_mode_mode_pcs. f_equal. apply in_mode_transpose.
    pose proof (pyset_range _ (pcs_range root_pc offsets)) as R.
    rewrite Forall_forall in R. apply R, I, Hpc. }
  rewrite E by apply incl_refl.
  apply filter_Permutation, Permutation_sym, set_iter_Permutation.
Qed.

Lemma nth_map_transpose (melody_pcs : list Z) (i : nat) :
  (i < List.length melody_pcs)%nat ->
  nth i (map (transpose k) melody_pcs) 0 = transpose k (nth i melody_pcs 0).
Proof.
  intros H.
  rewrite (nth_indep _ 0 (transpose k 0)) by (rewrite length_map; exact H).
  apply map_nth.
Qed.

Lemma spec_melody_score_transpose (root_pc : Z) (m : Mode) (melody_pcs : list Z) :
  Forall (fun pc => 0 <= pc < 12) melody_pcs ->
  spec_melody_score (root_pc + k) m (map (transpose k) melody_pcs)
  = spec_melody_score root_pc m melody_pcs.
Proof.
  intros R. unfold spec_melody_score, hit_positions.
  rewrite length_map. f_equal. f_equal.
  apply filter_ext_in. intros i Hi. apply in_seq in Hi.
  rewrite nth_map_transpose by lia. apply in_mode_transpose.
  rewrite Forall_forall in R. apply R, nth_In. lia.
Qed.

Lemma mode_match_rank_transpose (root_pc : Z) (core extra melody_pcs : list Z)
  (m : Mode) :
  Forall (fun pc => 0 <= pc < 12) melody_pcs ->
  let r := mode_match_rank root_pc core extra melody_pcs m in
  let r' := mode_match_rank (root_pc + k) core extra
              (map (transpose k) melody_pcs) m in
  mode r' = mode r
  /\ Permutation (missing_core r') (map (transpose k) (missing_core r))
  /\ Permutation (missing_extra r') (map (transpose k) (missing_extra r))
  /\ melody_hits r' = melody_hits r
  /\ melody_score r' = melody_score r
  /\ score r' = score r.
Proof.
  intros R r r'.
  destruct (mode_match_rank_missing root_pc core extra melody_pcs m)
    as (Hm & Hc & He).
  destruct (mode_match_rank_missing (root_pc + k) core extra
              (map (transpose k) melody_pcs) m) as (Hm' & Hc' & He').
  destruct (mode_match_rank_melody root_pc core extra melody_pcs m) as [Hs Hh].
  destruct (mode_match_rank_melody (root_pc + k) core extra
              (map (transpose k) melody_pcs) m) as [Hs' Hh'].
  pose proof (mode_match_rank_score root_pc core extra melody_pcs m) as Sc.
  pose proof (mode_match_rank_score (root_pc + k) core extra
                (map (transpose k) melody_pcs) m) as Sc'.
  cbv zeta in *. fold r in Hm, Hc, He, Hs, Hh, Sc.
  fold r' in Hm', Hc', He', Hs', Hh', Sc'.
  assert (Mc : Permutation (missing_core r')
                 (map (transpose k) (missing_core r)))
    by (rewrite Hc', Hc; apply missing_transpose).
  assert (Me : Permutation (missing_extra r')
                 (map (transpose k) (missing_extra r)))
    by (rewrite He', He; apply missing_transpose).
  assert (Ms : melody_score r' = melody_score r)
    by (rewrite Hs', Hs; apply spec_melody_score_transpose, R).
  assert (Lc : len (missing_core r') = len (missing_core r))
    by (unfold len; rewrite (Permutation_length Mc), length_map; reflexivity).
  assert (Le : len (missing_extra r') = len (missing_extra r))
    by (unfold len; rewrite (Permutation_length Me), length_map; reflexivity).
  split; [congruence|]. split; [exact Mc|]. split; [exact Me|].
  split.
  - rewrite Hh', Hh, map_map. apply map_ext_in. intros pc Hpc.
    apply in_mode_transpose. rewrite Forall_forall in R. apply R, Hpc.
  - split; [exact Ms|].
    rewrite Sc', Sc, Ms, Lc, Le, !pyset_transpose.
    unfold len. rewrite !length_map. reflexivity.
Qed.

Lemma tuple_lt_same_rating (a a' b b' : MatchResult) :
  same_rating a' a -> same_rating b' b ->
  tuple_lt (sort_key a') (sort_key b') = tuple_lt (sort_key a) (sort_key b).
Proof.
  intros [Ma Sa] [Mb Sb]. unfold sort_key. rewrite Ma, Mb, Sa, Sb. reflexivity.
Qed.

Lemma insert_by_key_same_rating (x x' : MatchResult) (l l' : list MatchResult) :
  same_rating x' x -> Forall2 same_rating l' l ->
  Forall2 same_rating (insert_by_key x' l') (insert_by_key x l).
Proof.
  intros Hx H. induction H as [|y' y l' l Hy Hl IH]; cbn [insert_by_key].
  - constructor; [exact Hx | constructor].
  - rewrite (tuple_lt_same_rating y y' x x' Hy Hx).
    destruct (tuple_lt (sort_key y) (sort_key x)).
    + constructor; [exact Hy | exact IH].
    + constructor; [exact Hx|]. constructor; assumption.
Qed.

Lemma sort_by_key_same_rating (l l' : list MatchResult) :
  Forall2 same_rating l' l ->
  Forall2 same_rating (sort_by_key l') (sort_by_key l).
Proof.
  intros H. induction H as [|y' y l' l Hy _ IH]; simpl; [constructor|].
  apply insert_by_key_same_rating; assumption.
Qed.

End Transposition.

(** Moving the root of the chord and every note of the melody by the same
    number [k] of semitones changes nothing but the names of the missing
    tones: for each mode the hits, the melody score and the score are the
    same doubles, and the missing tones are the former ones moved by [k],
    in whatever order the two sets are walked. *)
Theorem score_transposition_invariant (SO : SetOrder) (k root_pc : Z)
  (core extra melody_pcs : list Z) (m : Mode) :
  Forall (fun pc => 0 <= pc < 12) melody_pcs ->
  let r := mode_match_rank root_pc core extra melody_pcs m in
  let r' := mode_match_rank (root_pc + k) core extra
              (map (transpose k) melody_pcs) m in
  mode r' = mode r
  /\ Permutation (missing_core r') (map (transpose k) (missing_core r))
  /\ Permutation (missing_extra r') (map (transpose k) (missing_extra r))
  /\ melody_hits r' = melody_hits r
  /\ melody_score r' = melody_score r
  /\ score r' = score r.
Proof. apply mode_match_rank_transpose. Qed.

(** G7 under B, D moved up a tone to A7 under C#, E. *)
Lemma score_transposition_invariant_witness :
  score (mode_match_rank (7 + 2) [0; 4; 7; 10] []
           (map (transpose 2) [11; 2]) Mixolydian)
  = score (mode_match_rank 7 [0; 4; 7; 10] [] [11; 2] Mixolydian).
Proof.
  refine (proj2 (proj2 (proj2 (proj2 (proj2
            (score_transposition_invariant insertion_order 2 7 [0; 4; 7; 10]
               [] [11; 2] Mixolydian _)))))).
  repeat constructor; lia.
Defined.

(** So the ranking is the same too: the ranked lists for the moved and for
    the original input hold the same modes with the same scores, place by
    place. *)
Theorem ranking_transposition_invariant (SO : SetOrder) (k root_pc : Z)
  (core extra melody_pcs : list Z) :
  Forall (fun pc => 0 <= pc < 12) melody_pcs ->
  Forall2 same_rating
    (ranked_modes (root_pc + k) core extra (map (transpose k) melody_pcs))
    (ranked_modes root_pc core extra melody_pcs).
Proof.
  intros R. unfold ranked_modes. apply sort_by_key_same_rating.
  induction MODE_CATALOG as [|m ms IH]; simpl; constructor; [|exact IH].
  destruct (mode_match_rank_transpose k root_pc core extra melody_pcs m R)
    as (Hm & _ & _ & _ & _ & Hs).
  split; assumption.
Qed.

Lemma ranking_transposition_invariant_witness :
  Forall2 same_rating
    (ranked_modes (7 + 2) [0; 4; 7; 10] [] (map (transpose 2) [11; 2]))
    (ranked_modes 7 [0; 4; 7; 10] [] [11; 2]).
Proof.
  apply (ranking_transposition_invariant insertion_order 2 7 [0; 4; 7; 10] []
           [11; 2]).
  repeat constructor; lia.
Defined.

(** ** Hits and the best mode *)

Section Hits.
Local Open Scope Q_scope.

(** A weight is a positive double unless the melody is longer than any
    list a machine holds: the smallest, 1/n, is then at least the smallest
    positive double, 2^-1074. *)
Lemma spec_weight_pos (n i : nat) :
  (i < n)%nat -> (Z.of_nat n <= 2 ^ 1074)%Z -> 0 < spec_weight n i.
Proof.
  intros Hi Hn. unfold spec_weight.
  apply Qlt_le_trans with (y := rnd (inject_Z 1 * pow2 (-1074))).
  - rewrite (rnd_fix 1 (-1074)) by (repeat split; vm_compute; discriminate).
    change (inject_Z 1) with 1. rewrite Qmult_1_l. apply pow2_pos.
  - apply rnd_le. change (inject_Z 1) with 1. rewrite Qmult_1_l.
    pose proof (pow2_pos (-1074)) as E0.
    pose proof (pow2_add (-1074) 1074) as E1.
    change (-1074 + 1074)%Z with 0%Z in E1. change (pow2 0) with 1 in E1.
    rewrite (pow2_Z 1074) in E1 by discriminate.
    rewrite Zle_Qle in Hn.
    assert (Hd : 1 <= inject_Z (Z.of_nat n - Z.of_nat i)).
    { change 1 with (inject_Z 1). rewrite <- Zle_Qle. lia. }
    assert (Hp : 0 < inject_Z (Z.of_nat n)).
    { change 0 with (inject_Z 0). rewrite <- Zlt_Qlt. lia. }
    revert E0 E1 Hn Hd Hp.
    generalize (inject_Z (2 ^ 1074)) (pow2 (-1074))
               (inject_Z (Z.of_nat n - Z.of_nat i)) (inject_Z (Z.of_nat n)).
    intros P e D N E0 E1 Hn Hd Hp.
    apply Qle_shift_div_l; [exact Hp|]. nra.
Qed.

(** Adding non-negative doubles never takes the running sum down. *)
Lemma float_sum_grows (f : nat -> Q) (xs : list nat) (acc : Q) :
  rnd acc == acc -> (forall i, In i xs -> 0 <= f i) ->
  acc <= fold_left fadd (map f xs) acc.
Proof.
  revert acc. induction xs as [|x xs IH]; intros acc Ha H; simpl.
  - apply Qle_refl.
  - apply Qle_trans with (y := fadd acc (f x)).
    + apply fadd_increases; [exact Ha | apply H; left; reflexivity].
    + apply IH; [apply fadd_double | intros i Hi; apply H; right; exact Hi].
Qed.

Lemma spec_melody_score_pos (root_pc : Z) (m : Mode) (melody_pcs : list Z) :
  (Z.of_nat (List.length melody_pcs) <= 2 ^ 1074)%Z ->
  hit_positions root_pc m melody_pcs <> [] ->
  0 < spec_melody_score root_pc m melody_pcs.
Proof.
  intros Hn. unfold spec_melody_score, float_sum.
  assert (W : forall i, In i (hit_positions root_pc m melody_pcs) ->
                0 < spec_weight (Nat.max (List.length melody_pcs) 1) i).
  { intros i Hi. unfold hit_positions in Hi.
    apply filter_In in Hi. destruct Hi as [Hi _]. apply in_seq in Hi.
    apply spec_weight_pos; [lia|].
    destruct (List.length melody_pcs) as [|n'] eqn:E; [lia|].
    replace (Nat.max (S n') 1) with (S n') by lia. exact Hn. }
  destruct (hit_positions root_pc m melody_pcs) as [|x xs]; [congruence|].
  intros _. simpl.
  apply Qlt_le_trans
    with (y := fadd 0 (spec_weight (Nat.max (List.length melody_pcs) 1) x)).
  - unfold spec_weight at 1. rewrite fadd_0_l.
    apply (W x). left. reflexivity.
  - apply float_sum_grows; [apply fadd_double|].
    intros i Hi. apply Qlt_le_weak, W. right. exact Hi.
Qed.

Lemma hit_positions_nil (root_pc : Z) (m : Mode) (melody_pcs : list Z) :
  hit_positions root_pc m melody_pcs = [] <->
  Forall (fun pc => in_mode root_pc m pc = false) melody_pcs.
Proof.
  unfold hit_positions. split.
  - intros H. apply Forall_forall. intros pc Hpc.
    destruct (In_nth _ _ 0%Z Hpc) as (i & Hi & <-).
    destruct (in_mode root_pc m (nth i melody_pcs 0%Z)) eqn:E; [|reflexivity].
    assert (I : In i (filter (fun i => in_mode root_pc m (nth i melody_pcs 0%Z))
                             (seq 0 (List.length melody_pcs)))).
    { apply filter_In. split; [apply in_seq; lia | exact E]. }
    rewrite H in I. contradiction.
  - intros H. rewrite Forall_forall in H.
    destruct (filter _ _) as [|i l] eqn:E; [reflexivity|].
    assert (I : In i (filter (fun i => in_mode root_pc m (nth i melody_pcs 0%Z))
                             (seq 0 (List.length melody_pcs))))
      by (rewrite E; left; reflexivity).
    apply filter_In in I. destruct I as [I T]. apply in_seq in I.
    rewrite H in T; [discriminate | apply nth_In; lia].
Qed.

End Hits.

(** [melody_hits] has one entry for each note of the melody, in order, and
    the entry is [True] exactly when the note's pitch class is a tone of the
    mode on the root.  The melody score, a sum of doubles, is 0.0 when no
    note is a hit and positive as soon as one is; the latter for every
    melody a machine can hold, one of at most 2^1074 notes, for which no
    weight rounds to zero. *)
Theorem melody_hits_parallel (SO : SetOrder) (root_pc : Z)
  (core extra melody_pcs : list Z) (m : Mode) :
  let r := mode_match_rank root_pc core extra melody_pcs m in
  melody_hits r = map (in_mode root_pc m) melody_pcs
  /\ (forall pc, in_mode root_pc m pc = true <->
                 exists iv, In iv (intervals m) /\ pc = (root_pc + iv) mod 12)
  /\ (Forall (fun h => h = false) (melody_hits r) -> melody_score r = 0%Q)
  /\ (Z.of_nat (List.length melody_pcs) <= 2 ^ 1074 ->
      (melody_score r = 0%Q -> Forall (fun h => h = false) (melody_hits r))
      /\ (In true (melody_hits r) <-> (0 < melody_score r)%Q)).
Proof.
  cbv zeta.
  destruct (mode_match_rank_melody root_pc core extra melody_pcs m) as [Hs Hh].
  assert (N : Forall (fun h => h = false)
                (melody_hits (mode_match_rank root_pc core extra melody_pcs m))
              <-> hit_positions root_pc m melody_pcs = []).
  { rewrite Hh, hit_positions_nil, Forall_map. tauto. }
  assert (Z0 : hit_positions root_pc m melody_pcs = [] ->
               melody_score (mode_match_rank root_pc core extra melody_pcs m)
               = 0%Q).
  { intros E. rewrite Hs. unfold spec_melody_score. rewrite E. reflexivity. }
  split; [exact Hh|]. split; [|split].
  - intros pc. unfold in_mode. rewrite existsb_exists. split.
    + intros (iv & Hiv & E). exists iv. apply Z.eqb_eq in E. auto.
    + intros (iv & Hiv & E). exists iv. split; [exact Hiv|].
      apply Z.eqb_eq. auto.
  - intros F. apply Z0, N, F.
  - intros Hn.
    assert (P : hit_positions root_pc m melody_pcs <> [] ->
                (0 < melody_score
                       (mode_match_rank root_pc core extra melody_pcs m))%Q).
    { intros E. rewrite Hs. apply spec_melody_score_pos; assumption. }
    split.
    + intros E. apply N.
      destruct (hit_positions root_pc m melody_pcs) eqn:H; [reflexivity|].
      assert (L : (0 < melody_score
                         (mode_match_rank root_pc core extra melody_pcs m))%Q)
        by (apply P; discriminate).
      rewrite E in L. discriminate L.
    + split.
      * intros I. apply P. intros E. apply N in E.
        rewrite Forall_forall in E. specialize (E true I). discriminate.
      * intros L.
        destruct (in_dec bool_dec true
                    (melody_hits (mode_match_rank root_pc core extra
                                    melody_pcs m))) as [I | I]; [exact I|].
        exfalso.
        assert (F : Forall (fun h => h = false)
                      (melody_hits (mode_match_rank root_pc core extra
                                      melody_pcs m))).
        { apply Forall_forall. intros [|] Hh'; [contradiction | reflexivity]. }
        apply N, Z0 in F. rewrite F in L. discriminate L.
Qed.

(** G7 under F#, A, C, D in Mixolydian: three hits, and a positive score. *)
Lemma melody_hits_parallel_witness :
  melody_hits (mode_match_rank 7 [0; 4; 7; 10] [] [6; 9; 0; 2] Mixolydian)
  = [false; true; true; true]
  /\ Qlt 0 (melody_score
              (mode_match_rank 7 [0; 4; 7; 10] [] [6; 9; 0; 2] Mixolydian)).
Proof.
  destruct (melody_hits_parallel insertion_order 7 [0; 4; 7; 10] []
              [6; 9; 0; 2] Mixolydian) as (H & _ & _ & P).
  split; [exact H|].
  apply P; [vm_compute; discriminate|].
  rewrite H. right. left. reflexivity.
Defined.

Lemma In_firstn_In {A : Type} (n : nat) (l : list A) (x : A) :
  In x (firstn n l) -> In x l.
Proof.
  intros H. rewrite <- (firstn_skipn n l). apply in_or_app. left. exact H.
Qed.

Section BestMode.
Context {U : UnicodeCase}.
Context {SO : SetOrder}.

Lemma ranks_le_score (a b : MatchResult) :
  ranks_le a b -> (score b <= score a)%Q.
Proof.
  unfold ranks_le, ranks_before, ranks_same.
  intros [[H | [H _]] | [H _]]; lra.
Qed.

Lemma choose_modes_21_inv (ch : Chord) (melody_pcs : list Z) (mc : ModeChoice) :
  choose_modes_21 ch melody_pcs = Ok mc ->
  exists root_pc rest,
    note_to_pc (root ch) = Ok root_pc
    /\ ranked_modes root_pc (fst (chord_required_semitones ch))
         (snd (chord_required_semitones ch)) melody_pcs = best mc :: rest
    /\ alternatives mc = firstn 5 rest.
Proof.
  unfold choose_modes_21. intros H.
  destruct (note_to_pc (root ch)) as [r|] eqn:E; [|discriminate].
  cbn [bind] in H.
  rewrite (surjective_pairing (chord_required_semitones ch)) in H.
  destruct (ranked_modes _ _ _ _) as [|b rest] eqn:R; [discriminate|].
  inversion H. subst. exists r, rest. auto.
Qed.

End BestMode.

(** The best mode that [choose_modes_21] returns has the highest score of
    the catalog: the result of no mode scores higher, and the alternatives
    follow in descending order of score, all scores being the doubles the
    script compares. *)
Theorem best_mode_is_maximal (U : UnicodeCase) (SO : SetOrder) (ch : Chord)
  (melody_pcs : list Z) (mc : ModeChoice) :
  choose_modes_21 ch melody_pcs = Ok mc ->
  exists root_pc,
    note_to_pc (root ch) = Ok root_pc
    /\ (exists m, In m MODE_CATALOG
                  /\ best mc = mode_match_rank root_pc
                                 (fst (chord_required_semitones ch))
                                 (snd (chord_required_semitones ch))
                                 melody_pcs m)
    /\ (forall m, In m MODE_CATALOG ->
          (score (mode_match_rank root_pc (fst (chord_required_semitones ch))
                    (snd (chord_required_semitones ch)) melody_pcs m)
           <= score (best mc))%Q)
    /\ StronglySorted (fun a b => (score b <= score a)%Q)
         (best mc :: alternatives mc).
Proof.
  intros H. apply choose_modes_21_inv in H.
  destruct H as (r & rest & Hr & Hk & Ha).
  exists r. split; [exact Hr|].
  set (core := fst (chord_required_semitones ch)) in *.
  set (extra := snd (chord_required_semitones ch)) in *.
  pose proof (sort_by_key_sorted
                (map (mode_match_rank r core extra melody_pcs) MODE_CATALOG)) as S.
  pose proof (sort_by_key_Permutation
                (map (mode_match_rank r core extra melody_pcs) MODE_CATALOG)) as P.
  fold (ranked_modes r core extra melody_pcs) in S, P. rewrite Hk in S, P.
  inversion S as [|? ? Sr Fb]; subst.
  split; [|split].
  - assert (I : In (best mc)
                  (map (mode_match_rank r core extra melody_pcs) MODE_CATALOG)).
    { apply (Permutation_in _ (Permutation_sym P)). left. reflexivity. }
    apply in_map_iff in I. destruct I as (m & E & Hm). exists m. auto.
  - intros m Hm.
    assert (I : In (mode_match_rank r core extra melody_pcs m)
                  (best mc :: rest)).
    { apply (Permutation_in _ P). apply in_map. exact Hm. }
    destruct I as [<- | I]; [apply Qle_refl|].
    rewrite Forall_forall in Fb. apply ranks_le_score, Fb, I.
  - rewrite Ha. constructor.
    + clear - Sr. revert Sr. generalize 5%nat. intros n. revert n.
      induction rest as [|x rest IH]; intros n Sr; destruct n; simpl;
        try constructor.
      * inversion Sr; subst. apply IH. assumption.
      * inversion Sr as [|? ? _ Fx]; subst.
        apply Forall_forall. intros y Hy. apply In_firstn_In in Hy.
        rewrite Forall_forall in Fx. apply ranks_le_score, Fx, Hy.
    + apply Forall_forall. intros y Hy. apply In_firstn_In in Hy.
      rewrite Forall_forall in Fb. apply ranks_le_score, Fb, Hy.
Qed.

Lemma best_mode_is_maximal_witness :
  exists mc root_pc,
    choose_modes_21 G7_chord [6; 9; 0; 2] = Ok mc
    /\ note_to_pc (root G7_chord) = Ok root_pc
    /\ StronglySorted (fun a b => (score b <= score a)%Q)
         (best mc :: alternatives mc).
Proof.
  let v := eval vm_compute in (choose_modes_21 G7_chord [6; 9; 0; 2]) in
  match v with Ok ?mc => exists mc end.
  destruct (best_mode_is_maximal ascii_only insertion_order G7_chord
              [6; 9; 0; 2] _
              ltac:(vm_compute; reflexivity)) as (r & Hr & _ & _ & S).
  exists r. split; [vm_compute; reflexivity|]. split; [exact Hr | exact S].
Defined.

(** ** The order of the sets does not matter *)

Section SetOrders.
Context {U : UnicodeCase}.
Variables SO1 SO2 : SetOrder.

Lemma tuple_lt_same_result (a a' b b' : MatchResult) :
  same_result a' a -> same_result b' b ->
  tuple_lt (sort_key a') (sort_key b') = tuple_lt (sort_key a) (sort_key b).
Proof.
  intros (Ma & Sa & _) (Mb & Sb & _).
  unfold sort_key. rewrite Ma, Mb, Sa, Sb. reflexivity.
Qed.

Lemma insert_by_key_same_result (x x' : MatchResult) (l l' : list MatchResult) :
  same_result x' x -> Forall2 same_result l' l ->
  Forall2 same_result (insert_by_key x' l') (insert_by_key x l).
Proof.
  intros Hx H. induction H as [|y' y l' l Hy Hl IH]; cbn [insert_by_key].
  - constructor; [exact Hx | constructor].
  - rewrite (tuple_lt_same_result y y' x x' Hy Hx).
    destruct (tuple_lt (sort_key y) (sort_key x)).
    + constructor; [exact Hy | exact IH].
    + constructor; [exact Hx|]. constructor; assumption.
Qed.

Lemma sort_by_key_same_result (l l' : list MatchResult) :
  Forall2 same_result l' l ->
  Forall2 same_result (sort_by_key l') (sort_by_key l).
Proof.
  intros H. induction H as [|y' y l' l Hy _ IH]; simpl; [constructor|].
  apply insert_by_key_same_result; assumption.
Qed.

(** Under two orders of walking the sets a mode gets the same score; only
    the order of its missing tones can differ. *)
Lemma mode_match_rank_set_order (root_pc : Z) (core extra melody_pcs : list Z)
  (m : Mode) :
  same_result (@mode_match_rank SO1 root_pc core extra melody_pcs m)
              (@mode_match_rank SO2 root_pc core extra melody_pcs m).
Proof.
  destruct (@mode_match_rank_missing SO1 root_pc core extra melody_pcs m)
    as (Hm & Hc & He).
  destruct (@mode_match_rank_missing SO2 root_pc core extra melody_pcs m)
    as (Hm' & Hc' & He').
  destruct (@mode_match_rank_melody SO1 root_pc core extra melody_pcs m)
    as [Hs Hh].
  destruct (@mode_match_rank_melody SO2 root_pc core extra melody_pcs m)
    as [Hs' Hh'].
  pose proof (@mode_match_rank_score SO1 root_pc core extra melody_pcs m) as Sc.
  pose proof (@mode_match_rank_score SO2 root_pc core extra melody_pcs m) as Sc'.
  cbv zeta in *.
  set (r := @mode_match_rank SO1 root_pc core extra melody_pcs m) in *.
  set (r' := @mode_match_rank SO2 root_pc core extra melody_pcs m) in *.
  assert (Mc : Permutation (missing_core r) (missing_core r')).
  { rewrite Hc, Hc'. apply filter_Permutation.
    eapply Permutation_trans; [apply (@set_iter_Permutation SO1)|].
    apply Permutation_sym, (@set_iter_Permutation SO2). }
  assert (Me : Permutation (missing_extra r) (missing_extra r')).
  { rewrite He, He'. apply filter_Permutation.
    eapply Permutation_trans; [apply (@set_iter_Permutation SO1)|].
    apply Permutation_sym, (@set_iter_Permutation SO2). }
  assert (Ms : melody_score r = melody_score r') by congruence.
  unfold same_result.
  split; [congruence|]. split.
  - rewrite Sc, Sc', Ms. unfold len.
    rewrite (Permutation_length Mc), (Permutation_length Me). reflexivity.
  - split; [exact Ms|]. split; [congruence|]. split; assumption.
Qed.

(** So the ranking is the same under both, place by place. *)
Lemma ranked_modes_set_order (root_pc : Z) (core extra melody_pcs : list Z) :
  Forall2 same_result (@ranked_modes SO1 root_pc core extra melody_pcs)
                      (@ranked_modes SO2 root_pc core extra melody_pcs).
Proof.
  unfold ranked_modes. apply sort_by_key_same_result.
  induction MODE_CATALOG as [|m ms IH]; simpl; constructor; [|exact IH].
  apply mode_match_rank_set_order.
Qed.

End SetOrders.

(** ** The scenario G7 over F#, A, C, D in the key of G *)

(** C3, as the script has it.  The analysis of "G7" with the melody F#, A,
    C, D in the key of G returns the chord on G of dominant quality, whose
    core is [0,4,7,10]; G is the first degree of G major, so the degree is 1
    and the roman numeral "I"; the best mode is Mixolydian, of the major
    family, with the pattern [0,2,4,5,7,9,10], no core tone and no extra
    tone missing, and the score 17.5.  This holds in whatever order the
    sets of pitch classes are walked. *)
Theorem analyze_G7_in_G (U : UnicodeCase) (SO : SetOrder) :
  exists (r : Analysis.t) (mc : ModeChoice),
    analyze_chord_and_melody (py "G7") [py "F#"; py "A"; py "C"; py "D"] (py "G")
    = Ok r
    /\ root (Analysis.chord r) = py "G"
    /\ quality (Analysis.chord r) = Qdom
    /\ fst (chord_required_semitones (Analysis.chord r)) = [0; 4; 7; 10]
    /\ Analysis.degree_in_key r = 1
    /\ Analysis.roman r = py "I"
    /\ choose_modes_21 (Analysis.chord r) [6; 9; 0; 2] = Ok mc
    /\ Analysis.best_mode r = summary (best mc)
    /\ family (mode (best mc)) = py "major"
    /\ name (mode (best mc)) = py "Mixolydian"
    /\ intervals (mode (best mc)) = [0; 2; 4; 5; 7; 9; 10]
    /\ missing_core (best mc) = []
    /\ missing_extra (best mc) = []
    /\ (score (best mc) == 35 # 2)%Q.
Proof.
  destruct (analyze_chord_and_melody_Ok (py "G7")
              [py "F#"; py "A"; py "C"; py "D"] (py "G") G7_chord
              [6; 9; 0; 2] 7 7
              ltac:(vm_compute; reflexivity) ltac:(vm_compute; reflexivity)
              ltac:(vm_compute; reflexivity) ltac:(vm_compute; reflexivity))
    as (d & numeral & mc & degs & Hd & Hn & Hc & _ & _ & _ & E).
  assert (Hd' : degree_in_global_major (root G7_chord) (py "G") = Ok 1)
    by (vm_compute; reflexivity).
  rewrite Hd' in Hd. injection Hd as <-.
  assert (Hn' : roman_for_degree 1 (quality G7_chord) = Ok (py "I"))
    by (vm_compute; reflexivity).
  rewrite Hn' in Hn. injection Hn as <-.
  eexists. exists mc. split; [exact E|].
  cbn [Analysis.chord Analysis.degree_in_key Analysis.roman Analysis.best_mode].
  split; [reflexivity|]. split; [reflexivity|].
  split; [vm_compute; reflexivity|].
  split; [reflexivity|]. split; [reflexivity|].
  split; [exact Hc|]. split; [reflexivity|].
  destruct (choose_modes_21_inv G7_chord [6; 9; 0; 2] mc Hc)
    as (r & rest & Hr & Hk & _).
  assert (Hr' : note_to_pc (root G7_chord) = Ok 7) by (vm_compute; reflexivity).
  rewrite Hr' in Hr. injection Hr as <-.
  pose proof (ranked_modes_set_order SO insertion_order 7
                (fst (chord_required_semitones G7_chord))
                (snd (chord_required_semitones G7_chord)) [6; 9; 0; 2]) as F.
  rewrite Hk in F.
  destruct (@ranked_modes insertion_order 7
              (fst (chord_required_semitones G7_chord))
              (snd (chord_required_semitones G7_chord)) [6; 9; 0; 2])
    as [|b0 rest0] eqn:R0; [inversion F|].
  apply Forall2_cons_iff in F. destruct F as [(Hm & Hs & _ & _ & Pc & Pe) _].
  assert (B : b0 = hd b0 (@ranked_modes insertion_order 7
                            (fst (chord_required_semitones G7_chord))
                            (snd (chord_required_semitones G7_chord))
                            [6; 9; 0; 2]))
    by (rewrite R0; reflexivity).
  assert (V : mode b0 = Mixolydian /\ score b0 = (35 # 2)%Q
              /\ missing_core b0 = [] /\ missing_extra b0 = []).
  { rewrite B. clear. vm_compute. repeat split. }
  destruct V as (Vm & Vs & Vc & Ve).
  rewrite Hm, Hs, Vm, Vs. rewrite Vc in Pc. rewrite Ve in Pe.
  split; [reflexivity|]. split; [reflexivity|]. split; [reflexivity|].
  split; [apply Permutation_nil, Permutation_sym, Pc|].
  split; [apply Permutation_nil, Permutation_sym, Pe|].
  reflexivity.
Qed.

(** C3 as stated fails: the degree is not 5 and the numeral is not "V". *)
Lemma analyze_G7_in_G_is_not_degree_5 :
  exists r : Analysis.t,
    analyze_chord_and_melody (py "G7") [py "F#"; py "A"; py "C"; py "D"] (py "G")
    = Ok r
    /\ Analysis.degree_in_key r <> 5
    /\ Analysis.roman r <> py "V".
Proof.
  let v := eval vm_compute in
    (analyze_chord_and_melody (py "G7") [py "F#"; py "A"; py "C"; py "D"] (py "G")) in
  match v with Ok ?r => exists r end.
  split; [vm_compute; reflexivity|].
  split; vm_compute; discriminate.
Qed.

(** ** The command line *)

Lemma contains_char_In (c : codepoint) (s : pystr) :
  contains [c] s = true <-> In c s.
Proof.
  induction s as [|d s IH]; simpl; [split; [discriminate | tauto]|].
  rewrite orb_true_iff, IH, andb_true_r, N.eqb_eq.
  split; intros [H | H]; auto.
Qed.

Lemma split_once_spec (sep : codepoint) (s : pystr) :
  match split_once sep s with
  | None => ~ In sep s
  | Some (a, b) => s = a ++ sep :: b /\ ~ In sep a
  end.
Proof.
  induction s as [|c s IH]; simpl; [tauto|].
  destruct (N.eqb_spec c sep) as [-> | N].
  - split; [reflexivity | tauto].
  - destruct (split_once sep s) as [[a b]|].
    + destruct IH as [-> IH]. split; [reflexivity|].
      simpl. intros [H | H]; auto.
    + intros [H | H]; auto.
Qed.

Lemma In_lstrip (x : codepoint) (s : pystr) : In x (lstrip s) -> In x s.
Proof.
  induction s as [|c s IH]; simpl; [tauto|].
  destruct (isspace c); [auto | simpl; tauto].
Qed.

Lemma In_strip (x : codepoint) (s : pystr) : In x (strip s) -> In x s.
Proof.
  unfold strip, rstrip. intros H.
  apply in_rev, In_lstrip in H. apply In_lstrip. apply in_rev. exact H.
Qed.

Lemma strip_no_space (t : pystr) :
  Forall (fun c => isspace c = false) t -> strip t = t.
Proof.
  intros H. apply stripped_strip.
  assert (L : forall u, Forall (fun c => isspace c = false) u -> lstrip u = u).
  { intros u Hu. destruct Hu as [|c u Hc _]; simpl; [reflexivity|].
    rewrite Hc. reflexivity. }
  split; apply L; [exact H|].
  apply Forall_forall. intros c Hc. apply in_rev in Hc.
  rewrite Forall_forall in H. apply H, Hc.
Qed.

Lemma split_on_from_pieces (sep : codepoint) (s cur : pystr) (t : pystr) :
  ~ In sep cur -> In t (split_on_from sep s cur) ->
  ~ In sep t /\ (forall x, In x t -> In x s \/ In x cur).
Proof.
  revert cur; induction s as [|c s IH]; intros cur Hc H; simpl in H.
  - destruct H as [<- | []]. split; [exact Hc | auto].
  - destruct (N.eqb_spec c sep) as [-> | N].
    + destruct H as [<- | H].
      * split; [exact Hc | auto].
      * destruct (IH [] (fun F => F) H) as [A B]. split; [exact A|].
        intros x Hx. destruct (B x Hx) as [I | []]. left. right. exact I.
    + destruct (IH (cur ++ [c])) with (2 := H) as [A B].
      * rewrite in_app_iff. simpl. intros [F | [F | []]]; auto.
      * split; [exact A|]. intros x Hx.
        destruct (B x Hx) as [I | I]; [left; right; exact I|].
        apply in_app_iff in I. simpl in I.
        destruct I as [I | [<- | []]]; [right; exact I | left; left; reflexivity].
Qed.

Lemma split_ws_from_pieces (s cur : pystr) (t : pystr) :
  Forall (fun c => isspace c = false) cur -> In t (split_ws_from s cur) ->
  t <> [] /\ Forall (fun c => isspace c = false) t
  /\ (forall x, In x t -> In x s \/ In x cur).
Proof.
  revert cur; induction s as [|c s IH]; intros cur Hc H; simpl in H.
  - destruct cur as [|d cur]; [contradiction|].
    destruct H as [<- | []]. split; [discriminate|]. split; [exact Hc | auto].
  - destruct (isspace c) eqn:E.
    + destruct cur as [|d cur].
      * destruct (IH [] (Forall_nil _) H) as (A & B & C).
        split; [exact A|]. split; [exact B|].
        intros x Hx. destruct (C x Hx) as [I | []]. left. right. exact I.
      * destruct H as [<- | H].
        -- split; [discriminate|]. split; [exact Hc | auto].
        -- destruct (IH [] (Forall_nil _) H) as (A & B & C).
           split; [exact A|]. split; [exact B|].
           intros x Hx. destruct (C x Hx) as [I | []]. left. right. exact I.
    + destruct (IH (cur ++ [c])) with (2 := H) as (A & B & C).
      * apply Forall_app. split; [exact Hc | constructor; [exact E | constructor]].
      * split; [exact A|]. split; [exact B|]. intros x Hx.
        destruct (C x Hx) as [I | I]; [left; right; exact I|].
        apply in_app_iff in I. simpl in I.
        destruct I as [I | [<- | []]]; [right; exact I | left; left; reflexivity].
Qed.

Lemma split_ws_from_nil (s cur : pystr) :
  split_ws_from s cur = [] -> cur = [] /\ forallb isspace s = true.
Proof.
  revert cur; induction s as [|c s IH]; intros cur H; simpl in H.
  - destruct cur; [auto | discriminate].
  - simpl. destruct (isspace c) eqn:E.
    + destruct cur; [|discriminate]. destruct (IH [] H) as [_ B]. auto.
    + destruct (IH _ H) as [A _]. destruct cur; discriminate.
Qed.

Lemma nonempty_false {A : Type} (l : list A) : nonempty l = false <-> l = [].
Proof. destruct l; simpl; split; congruence. Qed.

(** What [parse_cli_line] has done when it returns. *)
Lemma parse_cli_line_inv (line chord : pystr) (notes : list pystr) :
  parse_cli_line line = inr (chord, notes) ->
  exists chord_part melody_part,
    line = chord_part ++ 58%N :: melody_part
    /\ ~ In 58%N chord_part
    /\ chord = strip chord_part /\ chord <> []
    /\ strip melody_part <> []
    /\ notes <> []
    /\ notes = filter nonempty
                 (if contains (py ",") (strip melody_part)
                  then map strip (split_on 44%N (strip melody_part))
                  else map strip (split_ws (strip melody_part))).
Proof.
  unfold parse_cli_line. intros H.
  destruct (contains (py ":") line); [|discriminate]. cbn [negb] in H.
  pose proof (split_once_spec 58%N line) as S.
  destruct (split_once 58%N line) as [[a b]|]; [|discriminate].
  destruct S as [-> S]. cbv zeta in H.
  destruct (strip a) as [|c ch] eqn:Ea; [discriminate|]. cbn [nonempty negb] in H.
  destruct (strip b) as [|d mr] eqn:Eb; [discriminate|]. cbn [nonempty negb] in H.
  destruct (filter nonempty _) as [|n ns] eqn:En; [discriminate|].
  cbn [nonempty negb] in H. inversion H; subst.
  exists a, b. rewrite Ea, Eb.
  repeat (split; [first [reflexivity | assumption | discriminate]|]).
  symmetry. exact En.
Qed.

(** A line [parse_cli_line] accepts has a colon; the chord is what stands
    before the first colon, stripped, and is not empty; there is at least
    one note; every note is non-empty, has no whitespace at either end and
    no comma, and is made of characters of the line. *)
Theorem parse_cli_line_accepts (line chord : pystr) (notes : list pystr) :
  parse_cli_line line = inr (chord, notes) ->
  (exists chord_part melody_part,
     line = chord_part ++ 58%N :: melody_part
     /\ ~ In 58%N chord_part /\ chord = strip chord_part)
  /\ chord <> [] /\ strip chord = chord
  /\ notes <> []
  /\ Forall (fun n => n <> [] /\ strip n = n /\ ~ In 44%N n
                      /\ incl n line) notes.
Proof.
  intros H. apply parse_cli_line_inv in H.
  destruct H as (a & b & -> & Ha & -> & Hc & Hm & Hn & ->).
  split; [exists a, b; auto|]. split; [exact Hc|].
  split; [apply strip_idempotent|]. split; [exact Hn|].
  apply Forall_forall. intros n I. apply filter_In in I. destruct I as [I Ne].
  assert (Nn : n <> []) by (intros ->; discriminate).
  assert (Sub : forall x, In x (strip b) -> In x (a ++ 58%N :: b)).
  { intros x Hx. apply In_strip in Hx. apply in_or_app. right. right. exact Hx. }
  destruct (contains (py ",") (strip b)) eqn:C.
  - apply in_map_iff in I. destruct I as (t & <- & It).
    destruct (split_on_from_pieces 44%N (strip b) [] t (fun F => F) It) as [A B].
    split; [exact Nn|]. split; [apply strip_idempotent|]. split.
    + intros F. apply A. apply In_strip, F.
    + intros x Hx. apply In_strip in Hx.
      destruct (B x Hx) as [J | []]. apply Sub, J.
  - apply in_map_iff in I. destruct I as (t & <- & It).
    destruct (split_ws_from_pieces (strip b) [] t (Forall_nil _) It)
      as (_ & A & B).
    rewrite (strip_no_space t A) in *.
    split; [exact Nn|]. split; [apply strip_no_space, A|]. split.
    + intros F. destruct (B _ F) as [J | []].
      apply contains_char_In in J. change [44%N] with (py ",") in J.
      congruence.
    + intros x Hx. destruct (B x Hx) as [J | []]. apply Sub, J.
Qed.

Lemma parse_cli_line_accepts_witness :
  exists chord notes,
    parse_cli_line (py " G7 :  F#   A ") = inr (chord, notes)
    /\ chord <> [] /\ strip chord = chord /\ notes <> [].
Proof.
  eexists. eexists. split; [reflexivity|].
  destruct (parse_cli_line_accepts (py " G7 :  F#   A ") _ _ eq_refl)
    as (_ & A & B & C & _).
  auto.
Defined.

(** How [parse_cli_line] refuses a line.  It reports a missing colon
    exactly when the line has none, and the unpacking of the two parts
    never fails.  It reports that no note was parsed only for a melody
    part that has a comma and otherwise nothing but commas and whitespace:
    without a comma, a melody part that is not blank always gives a note. *)
Theorem parse_cli_line_refuses (line : pystr) :
  (parse_cli_line line = inl MissingColon <-> ~ In 58%N line)
  /\ parse_cli_line line <> inl UnpackError
  /\ (parse_cli_line line = inl NoValidNotes ->
      exists chord_part melody_part,
        line = chord_part ++ 58%N :: melody_part
        /\ In 44%N melody_part
        /\ Forall (fun c => c = 44%N \/ isspace c = true) melody_part).
Proof.
  unfold parse_cli_line.
  pose proof (contains_char_In 58%N line) as Cc. change [58%N] with (py ":") in Cc.
  pose proof (split_once_spec 58%N line) as S.
  destruct (contains (py ":") line) eqn:C; cbn [negb].
  - assert (I : In 58%N line) by (apply Cc; reflexivity).
    destruct (split_once 58%N line) as [[a b]|]; [|contradiction].
    destruct S as [-> S]. cbv zeta.
    destruct (strip a) as [|c ch]; cbn [nonempty negb].
    { split; [split; [discriminate | contradiction]|].
      split; discriminate. }
    destruct (strip b) as [|d mr] eqn:Eb; cbn [nonempty negb].
    { split; [split; [discriminate | contradiction]|].
      split; discriminate. }
    rewrite <- Eb.
    destruct (filter nonempty _) as [|n ns] eqn:En; cbn [nonempty negb].
    + split; [split; [discriminate | contradiction]|].
      split; [discriminate|]. intros _. exists a, b. split; [reflexivity|].
      destruct (contains (py ",") (strip b)) eqn:K.
      * split.
        { apply In_strip. apply contains_char_In. exact K. }
        (* every piece between two commas is blank *)
        assert (B : forall t, In t (split_on 44%N (strip b)) -> strip t = []).
        { intros t It. destruct (strip t) as [|x xs] eqn:Et; [reflexivity|].
          assert (J : In (strip t) (filter nonempty
                                      (map strip (split_on 44%N (strip b))))).
          { apply filter_In. split; [apply in_map, It | rewrite Et; reflexivity]. }
          rewrite En in J. contradiction. }
        assert (G : forall s cur,
                   (forall t, In t (split_on_from 44%N s cur) -> strip t = []) ->
                   Forall (fun c => c = 44%N \/ isspace c = true) (cur ++ s)).
        { clear. induction s as [|c s IH]; intros cur H; simpl in H.
          - rewrite app_nil_r. specialize (H cur (or_introl eq_refl)).
            apply strip_nil in H. apply Forall_forall. intros x Hx. right.
            rewrite forallb_forall in H. apply H, Hx.
          - destruct (N.eqb_spec c 44%N) as [-> | N].
            + apply Forall_app. split.
              * pose proof (H cur (or_introl eq_refl)) as Hc.
                apply strip_nil in Hc. apply Forall_forall. intros x Hx. right.
                rewrite forallb_forall in Hc. apply Hc, Hx.
              * constructor; [left; reflexivity|].
                apply (IH []). intros t It. apply H. right. exact It.
            + replace (cur ++ c :: s) with ((cur ++ [c]) ++ s)
                by (rewrite <- app_assoc; reflexivity).
              apply IH. exact H. }
        pose proof (G (strip b) [] B) as F. simpl in F.
        (* what the strip removed is whitespace *)
        apply Forall_forall. intros x Hx.
        destruct (isspace x) eqn:Ex; [right; reflexivity|].
        rewrite Forall_forall in F.
        assert (Hs : In x (strip b)).
        { clear - Hx Ex. unfold strip, rstrip. rewrite <- in_rev.
          assert (L : forall s, In x s -> In x (lstrip s)).
          { induction s as [|c s IH]; simpl; [tauto|].
            intros [-> | H]; [rewrite Ex; left; reflexivity|].
            destruct (isspace c); [auto | right; exact H]. }
          apply L. rewrite <- in_rev. apply L, Hx. }
        destruct (F x Hs) as [J | J]; [left; exact J | congruence].
      * exfalso.
        assert (E : split_ws (strip b) = []).
        { destruct (split_ws (strip b)) as [|t ts] eqn:Et; [reflexivity|].
          destruct (split_ws_from_pieces (strip b) [] t (Forall_nil _))
            as (Nt & St & _); [unfold split_ws in Et; rewrite Et; left; reflexivity|].
          assert (J : In (strip t) (filter nonempty (map strip (t :: ts)))).
          { apply filter_In. split; [left; reflexivity|].
            rewrite (strip_no_space t St). destruct t; [congruence | reflexivity]. }
          rewrite En in J. contradiction. }
        apply split_ws_from_nil in E. destruct E as [_ E].
        apply strip_nil in E. rewrite strip_idempotent, Eb in E. discriminate.
    + split; [split; [discriminate | contradiction]|].
      split; discriminate.
  - split; [split; [intros _ F; apply Cc in F; discriminate | reflexivity]|].
    split; discriminate.
Qed.

Lemma parse_cli_line_refuses_witness :
  exists chord_part melody_part,
    py "C: , " = chord_part ++ 58%N :: melody_part
    /\ In 44%N melody_part
    /\ Forall (fun c => c = 44%N \/ isspace c = true) melody_part.
Proof.
  exact (proj2 (proj2 (parse_cli_line_refuses (py "C: , "))) eq_refl).
Defined.

(** A chord that [parse_cli_line] returns is never refused as empty by the
    chord parser, so the analysis of an accepted line never ends with the
    empty-chord error. *)
Theorem parse_cli_line_then_analyze (U : UnicodeCase) (SO : SetOrder)
  (line chord key : pystr) (notes : list pystr) :
  parse_cli_line line = inr (chord, notes) ->
  (exists ch, parse_chord_symbol chord = Ok ch /\ symbol ch = chord)
  /\ analyze_chord_and_melody chord notes key <> Raise EmptyChordError.
Proof.
  intros H. apply parse_cli_line_inv in H.
  destruct H as (a & b & _ & _ & -> & Hc & _).
  assert (N : accidentals_to_ascii (strip (strip a)) <> []).
  { rewrite strip_idempotent, accidentals_to_ascii_nil. exact Hc. }
  split; [apply parse_chord_symbol_nonblank, N|].
  pose proof (analyze_chord_and_melody_cases (strip a) notes key) as O.
  cbv zeta in O. intros E. rewrite E in O.
  destruct O as [[B _] | [(_ & bad & _ & X) | [(_ & _ & _ & X)
                 | (_ & _ & _ & ch & _ & _ & X)]]]; try discriminate X.
  apply blank_iff_whitespace in B. contradiction.
Qed.

Lemma parse_cli_line_then_analyze_witness :
  analyze_chord_and_melody (py "G7") [py "F#"; py "A"] (py "G")
  <> Raise EmptyChordError.
Proof.
  exact (proj2 (parse_cli_line_then_analyze ascii_only insertion_order
                  (py " G7 :  F#   A ")
                  (py "G7") (py "G") [py "F#"; py "A"] eq_refl)).
Defined.

(* ================================================================== *)
(** * Properties of the first version, [ai-gen.py] *)
(* ================================================================== *)

Section V1Notes.
Context {U : UnicodeCase}.

Lemma ascii_upper_not_b (c : codepoint) : ascii_upper c <> 98%N.
Proof.
  unfold ascii_upper.
  destruct (N.leb_spec 97 c); destruct (N.leb_spec c 122); cbn [andb]; lia.
Qed.

Lemma v1_upper_ascii (s : pystr) :
  Forall (fun c => (c < 128)%N) s -> V1.upper s = map ascii_upper s.
Proof.
  induction 1 as [|c s Hc _ IH]; [reflexivity|].
  unfold V1.upper in *. cbn [flat_map map]. rewrite IH.
  unfold upper_char. apply N.ltb_lt in Hc. rewrite Hc. reflexivity.
Qed.

Lemma accidentals_to_ascii_is_ascii (nm : pystr) :
  Forall ascii_or_accidental nm ->
  Forall (fun c => (c < 128)%N) (accidentals_to_ascii (strip nm)).
Proof.
  intros H. rewrite Forall_forall in *. intros c Hc.
  unfold accidentals_to_ascii, replace1 in Hc.
  rewrite map_map in Hc. apply in_map_iff in Hc. destruct Hc as (d & <- & Hd).
  apply In_strip in Hd. specialize (H d Hd).
  destruct (N.eqb_spec d FLAT) as [-> | N1]; [vm_compute; reflexivity|].
  destruct (N.eqb_spec d SHARP) as [-> | N2]; [vm_compute; reflexivity|].
  destruct H as [H | [H | H]]; [exact H | contradiction | contradiction].
Qed.

Lemma v1_note_to_pc_Ok (nm : pystr) (pc : Z) :
  V1.note_to_pc nm = Ok pc -> In (V1.normalize_note nm) note_names.
Proof.
  unfold V1.note_to_pc. cbv zeta.
  destruct (dict_get NOTE_TO_PC (V1.normalize_note nm)) as [p|] eqn:E;
    [|discriminate].
  intros _. apply dict_get_Some_In in E.
  apply (in_map fst) in E. exact E.
Qed.

Lemma v1_note_to_pc_Raise (nm : pystr) (e : Exception) :
  V1.note_to_pc nm = Raise e -> e = UnknownNoteError (V1.normalize_note nm).
Proof.
  unfold V1.note_to_pc. cbv zeta.
  destruct (dict_get NOTE_TO_PC (V1.normalize_note nm)); congruence.
Qed.

Lemma v1_note_to_pc_range (nm : pystr) (pc : Z) :
  V1.note_to_pc nm = Ok pc -> 0 <= pc < 12.
Proof.
  unfold V1.note_to_pc. cbv zeta.
  destruct (dict_get NOTE_TO_PC (V1.normalize_note nm)) as [p|] eqn:E;
    [|discriminate].
  intros H. inversion H; subst. apply dict_get_Some_In in E.
  pose proof NOTE_TO_PC_range as R. rewrite Forall_forall in R.
  apply (R _ E).
Qed.

(** A name the table finds without a lower-case letter is one of the
    fourteen upper-case keys. *)
Lemma note_names_upper_case (n : pystr) :
  In n note_names -> ~ In 98%N n -> In n upper_case_names.
Proof.
  intros H N. vm_compute in H.
  repeat (destruct H as [<- | H];
          [first [ exfalso; apply N; vm_compute; tauto
                 | vm_compute; tauto ]|]).
  contradiction.
Qed.

Lemma v1_normalize_note_no_b (nm : pystr) :
  Forall ascii_or_accidental nm -> ~ In 98%N (V1.normalize_note nm).
Proof.
  intros H. unfold V1.normalize_note.
  rewrite (v1_upper_ascii _ (accidentals_to_ascii_is_ascii nm H)).
  intros I. apply in_map_iff in I. destruct I as (c & E & _).
  exact (ascii_upper_not_b c E).
Qed.

Lemma upper_case_names_known (n : pystr) :
  In n upper_case_names -> exists pc, dict_get NOTE_TO_PC n = Some pc.
Proof.
  intros I. vm_compute in I.
  repeat (destruct I as [<- | I]; [eexists; reflexivity|]).
  contradiction.
Qed.

Lemma upper_case_names_shape (n : pystr) :
  In n upper_case_names -> exists x, n = [x] \/ n = [x; 35%N].
Proof.
  intros I. vm_compute in I.
  repeat (destruct I as [<- | I]; [eexists; auto|]).
  contradiction.
Qed.

Lemma v1_known_upper_case (nm : pystr) :
  Forall ascii_or_accidental nm ->
  (exists pc, V1.note_to_pc nm = Ok pc)
  <-> In (V1.normalize_note nm) upper_case_names.
Proof.
  intros H. split.
  - intros [pc E]. apply note_names_upper_case.
    + exact (v1_note_to_pc_Ok nm pc E).
    + apply v1_normalize_note_no_b, H.
  - intros I. unfold V1.note_to_pc. cbv zeta.
    destruct (upper_case_names_known _ I) as [pc E]. rewrite E.
    exists pc. reflexivity.
Qed.

(** A name with b or the flat sign after its first character is unknown. *)
Lemma v1_flat_unknown (nm : pystr) (c : codepoint) (rest : pystr) :
  Forall ascii_or_accidental nm ->
  accidentals_to_ascii (strip nm) = c :: rest -> In 98%N rest ->
  V1.note_to_pc nm = Raise (UnknownNoteError (V1.normalize_note nm)).
Proof.
  intros H E I.
  destruct (V1.note_to_pc nm) as [pc|e] eqn:R;
    [|rewrite (v1_note_to_pc_Raise nm e R); reflexivity].
  exfalso.
  assert (K : In (V1.normalize_note nm) upper_case_names)
    by (apply v1_known_upper_case; [exact H | exists pc; exact R]).
  unfold V1.normalize_note in K.
  rewrite (v1_upper_ascii _ (accidentals_to_ascii_is_ascii nm H)), E in K.
  cbn [map] in K.
  assert (B : In 66%N (map ascii_upper rest))
    by (apply in_map_iff; exists 98%N; split; [reflexivity | exact I]).
  destruct (upper_case_names_shape _ K) as [x [S | S]];
    inversion S as [[S1 S2]]; rewrite S2 in B; simpl in B;
    intuition discriminate.
Qed.

End V1Notes.

(** In the first version a note name is known exactly when, stripped, with
    the accidental signs replaced and in upper case, it is one of the
    fourteen keys of the table without a lower-case letter: a natural or a
    sharp.  The whole name is put in upper case while the table spells the
    flats with a small b, so a name with b or the flat sign after its first
    character is never found. *)
Theorem v1_note_to_pc_refuses_flats (U : UnicodeCase) (nm : pystr) :
  Forall ascii_or_accidental nm ->
  ((exists pc, V1.note_to_pc nm = Ok pc)
   <-> In (V1.normalize_note nm) upper_case_names)
  /\ (forall c rest,
        accidentals_to_ascii (strip nm) = c :: rest -> In 98%N rest ->
        V1.note_to_pc nm = Raise (UnknownNoteError (V1.normalize_note nm))).
Proof.
  intros H. split.
  - apply v1_known_upper_case, H.
  - intros c rest. apply v1_flat_unknown, H.
Qed.

Lemma v1_note_to_pc_refuses_flats_witness :
  V1.note_to_pc (py "Eb") = Raise (UnknownNoteError (py "EB")).
Proof.
  refine (proj2 (v1_note_to_pc_refuses_flats ascii_only (py "Eb") _)
            69%N [98%N] eq_refl (or_introl eq_refl)).
  repeat constructor.
Defined.

(** ** The church modes of the first version *)

Lemma v1_rotate_intervals_cases (d : Z) :
  V1.rotate_intervals d
  = Ok (nth (Z.to_nat (if ((-6 <=? d) && (d <=? 8))%bool
                       then (d - 1) mod 7 else 0))
          church_modes []).
Proof.
  unfold V1.rotate_intervals, V1.slice_from, V1.slice_to. cbv zeta.
  change (List.length MAJOR_INTERVALS) with 7%nat.
  destruct (Z_lt_le_dec d (-6)) as [L | L].
  - assert (E : V1.slice_index (d - 1) 7 = 0%nat).
    { unfold V1.slice_index. destruct (Z.ltb_spec (d - 1) 0); lia. }
    rewrite E. destruct (Z.leb_spec (-6) d); [lia|]. reflexivity.
  - destruct (Z_lt_le_dec 8 d) as [G | G].
    + assert (E : V1.slice_index (d - 1) 7 = 7%nat).
      { unfold V1.slice_index. destruct (Z.ltb_spec (d - 1) 0); lia. }
      rewrite E. destruct (Z.leb_spec d 8); [lia|].
      rewrite andb_false_r. reflexivity.
    + assert (C : d = -6 \/ d = -5 \/ d = -4 \/ d = -3 \/ d = -2 \/ d = -1
                  \/ d = 0 \/ d = 1 \/ d = 2 \/ d = 3 \/ d = 4 \/ d = 5
                  \/ d = 6 \/ d = 7 \/ d = 8) by lia.
      repeat (destruct C as [-> | C]; [reflexivity|]).
      subst d. reflexivity.
Qed.

(** [rotate_intervals] never fails, whatever integer it is given: Python's
    slices clip a bound that is out of range and count a negative one from
    the end.  For a degree from 1 to 7 the result is the interval list of
    that church mode as the catalog of the second version has it; a degree
    from -6 to 0 gives the mode seven degrees higher, and every other
    integer gives the major scale. *)
Theorem v1_rotate_intervals_total (d : Z) :
  (exists ivs, V1.rotate_intervals d = Ok ivs /\ In ivs church_modes)
  /\ (1 <= d <= 7 ->
      V1.rotate_intervals d = Ok (nth (Z.to_nat (d - 1)) church_modes []))
  /\ (-6 <= d <= 0 -> V1.rotate_intervals d = V1.rotate_intervals (d + 7))
  /\ (d < -6 \/ 7 < d -> V1.rotate_intervals d = Ok MAJOR_INTERVALS).
Proof.
  split; [|split; [|split]].
  - rewrite v1_rotate_intervals_cases. eexists. split; [reflexivity|].
    apply nth_In. change (List.length church_modes) with 7%nat.
    destruct ((-6 <=? d) && (d <=? 8))%bool; [|simpl; lia].
    pose proof (Z.mod_pos_bound (d - 1) 7). lia.
  - intros H. rewrite v1_rotate_intervals_cases.
    destruct (Z.leb_spec (-6) d); [|lia]. destruct (Z.leb_spec d 8); [|lia].
    cbn [andb]. rewrite Z.mod_small by lia. reflexivity.
  - intros H. rewrite !v1_rotate_intervals_cases.
    destruct (Z.leb_spec (-6) d); [|lia]. destruct (Z.leb_spec d 8); [|lia].
    destruct (Z.leb_spec (-6) (d + 7)); [|lia].
    destruct (Z.leb_spec (d + 7) 8); [|lia].
    cbn [andb]. replace (d + 7 - 1) with (d - 1 + 1 * 7) by ring.
    rewrite Z_mod_plus_full. reflexivity.
  - intros H. rewrite v1_rotate_intervals_cases.
    destruct (Z.leb_spec (-6) d); destruct (Z.leb_spec d 8); cbn [andb];
      try reflexivity.
    assert (d = 8) by lia. subst d. reflexivity.
Qed.

Lemma v1_rotate_intervals_total_witness :
  V1.rotate_intervals 0 = V1.rotate_intervals 7
  /\ V1.rotate_intervals 100 = Ok MAJOR_INTERVALS.
Proof.
  split.
  - apply (proj1 (proj2 (proj2 (v1_rotate_intervals_total 0)))). lia.
  - apply (proj2 (proj2 (proj2 (v1_rotate_intervals_total 100)))). lia.
Defined.

Section V1Degrees.
Context {U : UnicodeCase}.

Lemma v1_get_degree_in_key_inv (root key : pystr) (d : Z) :
  V1.get_degree_in_key root key = Ok d ->
  exists t r,
    V1.note_to_pc key = Ok t /\ V1.note_to_pc root = Ok r
    /\ d = (let pcs := map (fun i => (t + i) mod 12) MAJOR_INTERVALS in
            if int_mem r pcs then list_index r pcs + 1 else 0).
Proof.
  intros H. unfold V1.get_degree_in_key, V1.build_major_scale_pcs in H.
  destruct (V1.note_to_pc key) as [t|] eqn:Ht; [|discriminate].
  cbn [bind] in H.
  destruct (V1.note_to_pc root) as [r|] eqn:Hr; [|discriminate].
  cbn [bind] in H. exists t, r. cbv zeta.
  destruct (int_mem r _); inversion H; auto.
Qed.

Lemma v1_get_degree_in_key_range (root key : pystr) (d : Z) :
  V1.get_degree_in_key root key = Ok d -> 0 <= d <= 7.
Proof.
  intros H. destruct (v1_get_degree_in_key_inv _ _ _ H) as (t & r & _ & _ & ->).
  cbv zeta. destruct (int_mem r _) eqn:M; [|lia].
  apply int_mem_In in M. apply list_index_In in M. destruct M as [B _].
  rewrite length_map in B. change (List.length MAJOR_INTERVALS) with 7%nat in B.
  lia.
Qed.

Lemma v1_build_mode_scale_rotates (root key : pystr) (d : Z) :
  V1.get_degree_in_key root key = Ok d -> d <> 0 ->
  exists pcs,
    V1.build_major_scale_pcs key = Ok pcs
    /\ V1.build_mode_scale root d = Ok (rotate (Z.to_nat (d - 1)) pcs).
Proof.
  intros H N. destruct (v1_get_degree_in_key_inv _ _ _ H) as (t & r & Ht & Hr & E).
  cbv zeta in E.
  exists (map (fun i => (t + i) mod 12) MAJOR_INTERVALS).
  split; [unfold V1.build_major_scale_pcs; rewrite Ht; reflexivity|].
  destruct (int_mem r _) eqn:M; [|contradiction].
  apply int_mem_In in M. apply list_index_In in M. destruct M as [B Hn].
  rewrite length_map in B. change (List.length MAJOR_INTERVALS) with 7%nat in B.
  set (k := list_index r (map (fun i => (t + i) mod 12) MAJOR_INTERVALS)) in *.
  unfold V1.build_mode_scale. rewrite Hr. cbn [bind].
  assert (C : k = 0 \/ k = 1 \/ k = 2 \/ k = 3 \/ k = 4 \/ k = 5 \/ k = 6)
    by lia.
  clearbody k. subst d.
  destruct C as [-> | [-> | [-> | [-> | [-> | [-> | ->]]]]]];
    cbn in Hn; inversion Hn as [Er]; clear Hn;
    cbn [Z.add Z.eqb negb Pos.add Pos.succ];
    match goal with
    | |- context [V1.rotate_intervals ?x] =>
        let v := eval vm_compute in (V1.rotate_intervals x) in
        change (V1.rotate_intervals x) with v
    end;
    match goal with
    | |- context [Z.to_nat ?x] =>
        let v := eval vm_compute in (Z.to_nat x) in
        change (Z.to_nat x) with v
    end;
    unfold rotate; cbn [skipn firstn app map MAJOR_INTERVALS bind];
    apply f_equal;
    repeat (apply f_equal2; [Z.div_mod_to_equations; lia|]);
    reflexivity.
Qed.

End V1Degrees.

(** The chord scale of a chord whose root is in the key: the church mode
    that [build_mode_scale] builds on the root for the root's degree has
    exactly the notes of the key's major scale, in the order of that scale
    started at the root. *)
Theorem v1_mode_scale_in_key (U : UnicodeCase) (root key : pystr) (d : Z) :
  V1.get_degree_in_key root key = Ok d -> d <> 0 ->
  1 <= d <= 7
  /\ exists pcs,
       V1.build_major_scale_pcs key = Ok pcs
       /\ V1.build_mode_scale root d = Ok (rotate (Z.to_nat (d - 1)) pcs).
Proof.
  intros H N. split.
  - pose proof (v1_get_degree_in_key_range _ _ _ H). lia.
  - apply v1_build_mode_scale_rotates; assumption.
Qed.

Lemma v1_mode_scale_in_key_witness :
  V1.build_mode_scale (py "A") 2 = Ok [9; 11; 0; 2; 4; 6; 7].
Proof.
  destruct (v1_mode_scale_in_key ascii_only (py "A") (py "G") 2 eq_refl)
    as (_ & pcs & E & S); [discriminate|].
  inversion E; subst pcs. exact S.
Defined.

(** ** The chord parser of the first version *)

Section V1Parser.
Context {U : UnicodeCase}.

Lemma v1_parse_chord_symbol_blank (sym : pystr) :
  accidentals_to_ascii (strip sym) = [] ->
  V1.parse_chord_symbol sym = Raise IndexError.
Proof. intros H. unfold V1.parse_chord_symbol. rewrite H. reflexivity. Qed.

(** The fields of the record the parser returns. *)
Lemma v1_parse_chord_symbol_fields (sym : pystr) (c0 : codepoint) (s' : pystr) :
  accidentals_to_ascii (strip sym) = c0 :: s' ->
  exists ch k,
    V1.parse_chord_symbol sym = Ok ch
    /\ V1.symbol ch = sym
    /\ (k = 1%nat \/ (k = 2%nat /\ exists c1, nth_error s' 0 = Some c1
                                            /\ (c1 = 35%N \/ c1 = 98%N)))
    /\ V1.root ch = V1.normalize_note (firstn k (c0 :: s'))
    /\ (V1.dominant ch = true <-> V1.quality ch = Qdom)
    /\ (V1.minor ch = true <-> V1.quality ch = Qmin)
    /\ (V1.maj7 ch = true -> V1.quality ch = Qmaj)
    /\ V1.extensions ch
       = filter (fun alt => contains alt (lower (skipn k (c0 :: s'))))
           [py "b9"; py "#9"; py "b13"; py "#11"].
Proof.
  intros E. unfold V1.parse_chord_symbol. rewrite E. cbv zeta.
  assert (F : forall (root rest : pystr) (k : nat),
             root = firstn k (c0 :: s') -> rest = skipn k (c0 :: s') ->
             (k = 1%nat \/ (k = 2%nat /\ exists c1, nth_error s' 0 = Some c1
                                            /\ (c1 = 35%N \/ c1 = 98%N))) ->
             exists ch k,
               (root_rest <- Ok (root, rest) ;;
                let '(root, rest) := root_rest in
                let '(quality, dominant, minor, maj7) :=
                  if (contains (py "maj") (lower rest)
                      || contains (py "ma7") (lower rest)
                      || contains (py "maj7") (lower rest)
                      || contains [DELTA] (lower rest))%bool
                  then (Qmaj, false, false, true)
                  else if (contains (py "m") (lower rest)
                           && negb (contains (py "maj") (lower rest)))%bool
                  then (Qmin, false, true, false)
                  else if (contains (py "7") (lower rest)
                           || contains (py "9") (lower rest)
                           || contains (py "13") (lower rest))%bool
                  then (Qdom, true, false, false)
                  else (Qmaj, false, false, false) in
                Ok {| V1.symbol := sym;
                      V1.root := V1.normalize_note root;
                      V1.quality := quality;
                      V1.dominant := dominant;
                      V1.minor := minor;
                      V1.maj7 := maj7;
                      V1.extensions :=
                        filter (fun alt => contains alt (lower rest))
                          [py "b9"; py "#9"; py "b13"; py "#11"] |}) = Ok ch
               /\ V1.symbol ch = sym
               /\ (k = 1%nat \/ (k = 2%nat /\ exists c1, nth_error s' 0 = Some c1
                                            /\ (c1 = 35%N \/ c1 = 98%N)))
               /\ V1.root ch = V1.normalize_note (firstn k (c0 :: s'))
               /\ (V1.dominant ch = true <-> V1.quality ch = Qdom)
               /\ (V1.minor ch = true <-> V1.quality ch = Qmin)
               /\ (V1.maj7 ch = true -> V1.quality ch = Qmaj)
               /\ V1.extensions ch
                  = filter (fun alt => contains alt (lower (skipn k (c0 :: s'))))
                      [py "b9"; py "#9"; py "b13"; py "#11"]).
  { intros root rest k -> -> Hk. cbn [bind].
    set (r := lower (skipn k (c0 :: s'))).
    set (b1 := (_ || contains [DELTA] r)%bool).
    set (b2 := (contains (py "m") r && _)%bool).
    set (b3 := (_ || contains (py "13") r)%bool).
    destruct b1; [|destruct b2; [|destruct b3]];
      eexists; exists k; (split; [reflexivity|]);
      cbn [V1.symbol V1.root V1.quality V1.dominant V1.minor V1.maj7
           V1.extensions];
      (split; [reflexivity|]); (split; [exact Hk|]); (split; [reflexivity|]);
      (split; [split; congruence|]); (split; [split; congruence|]);
      (split; [congruence | reflexivity]). }
  destruct s' as [|c1 rest].
  - apply (F [c0] [] 1%nat); auto.
  - destruct (N.eqb c1 35 || N.eqb c1 98)%bool eqn:A.
    + apply (F [c0; c1] rest 2%nat); auto.
      right. split; [reflexivity|]. exists c1. split; [reflexivity|].
      apply orb_true_iff in A. rewrite !N.eqb_eq in A. exact A.
    + apply (F [c0] (c1 :: rest) 1%nat); auto.
Qed.

End V1Parser.

(** The first version's chord parser fails on a blank symbol only, and then
    with Python's own [IndexError], the subscript [s[0]] of an empty string.
    Every other symbol gives a record that keeps the symbol as it was typed,
    whose root is the normalized first character, or first two when the
    second is a sharp or a flat, and whose flags go with the quality:
    [dominant] is set exactly for the quality dom, [minor] exactly for min,
    and [maj7] only for maj.  The extensions are the alterations among b9,
    #9, b13 and #11 found in the rest of the symbol, in that order. *)
Theorem v1_parse_chord_symbol_outcome (U : UnicodeCase) (sym : pystr) :
  match V1.parse_chord_symbol sym with
  | Raise e => e = IndexError /\ forallb isspace sym = true
  | Ok ch =>
      forallb isspace sym = false
      /\ V1.symbol ch = sym
      /\ (exists k, (k = 1%nat \/ k = 2%nat)
            /\ V1.root ch
               = V1.normalize_note (firstn k (accidentals_to_ascii (strip sym)))
            /\ V1.extensions ch
               = filter (fun alt =>
                           contains alt
                             (lower (skipn k (accidentals_to_ascii (strip sym)))))
                   [py "b9"; py "#9"; py "b13"; py "#11"])
      /\ (V1.dominant ch = true <-> V1.quality ch = Qdom)
      /\ (V1.minor ch = true <-> V1.quality ch = Qmin)
      /\ (V1.maj7 ch = true -> V1.quality ch = Qmaj)
  end.
Proof.
  destruct (accidentals_to_ascii (strip sym)) as [|c0 s'] eqn:E.
  - rewrite (v1_parse_chord_symbol_blank sym E).
    split; [reflexivity|]. apply blank_iff_whitespace, E.
  - destruct (v1_parse_chord_symbol_fields sym c0 s' E)
      as (ch & k & -> & S & K & R & D & M & J & X).
    split.
    { destruct (forallb isspace sym) eqn:B; [|reflexivity].
      apply blank_iff_whitespace in B. congruence. }
    split; [exact S|]. split; [|auto].
    exists k. split; [tauto|]. auto.
Qed.

(** ** The classifier of the first version *)

Section V1Classifier.
Local Open Scope nat_scope.

Lemma v1_tone_step_events gts cts m lb i :
  V1.tone_step gts cts lb (i, nth i m 0%Z)
  = apply_events (v1_tone_events gts cts m i) lb.
Proof.
  unfold V1.tone_step, v1_tone_events.
  destruct (int_mem (nth i m 0%Z) gts), (int_mem (nth i m 0%Z) cts); reflexivity.
Qed.

Lemma v1_passing_step_events cts sc m lb i :
  V1.passing_step cts sc m lb i = apply_events (v1_passing_events cts sc m i) lb.
Proof.
  unfold V1.passing_step, v1_passing_events. cbv zeta.
  repeat match goal with
         | |- context [if ?b then _ else _] => destruct b
         end; reflexivity.
Qed.

Lemma v1_analyze_melody_functions_events m sc root_pc :
  V1.analyze_melody_functions m sc root_pc =
  apply_events (v1_all_events m sc root_pc) (repeat [] (List.length m)).
Proof.
  unfold V1.analyze_melody_functions, v1_all_events. cbv zeta.
  rewrite !apply_events_app.
  rewrite <- (fold_left_events _ _ _ _ (v1_passing_step_events _ sc m)).
  rewrite <- (fold_left_events _ _ _ _ (neighbor_step_events _ m)).
  rewrite <- (fold_left_events _ _ _ _ (scale_line_step_events m)).
  do 3 f_equal.
  rewrite enumerate_seq, fold_left_over_map.
  apply (fold_left_events
           (fun lb i => V1.tone_step _ _ lb (i, nth i m 0%Z))
           (v1_tone_events _ _ m)).
  intros lb i. apply v1_tone_step_events.
Qed.

Lemma v1_analyze_melody_functions_length m sc root_pc :
  List.length (V1.analyze_melody_functions m sc root_pc) = List.length m.
Proof.
  rewrite v1_analyze_melody_functions_events, apply_events_length.
  apply repeat_length.
Qed.

Lemma v1_label_at_index m sc root_pc j (l : FunctionLabel) :
  In l (nth j (V1.analyze_melody_functions m sc root_pc) []) <->
  j < List.length m /\ In (j, l) (v1_all_events m sc root_pc).
Proof.
  destruct (Nat.lt_ge_cases j (List.length m)) as [Hj | Hj].
  - rewrite v1_analyze_melody_functions_events.
    rewrite apply_events_nth by (rewrite repeat_length; exact Hj).
    rewrite nth_repeat. cbn [app].
    rewrite in_map_iff. split.
    + intros ([i l'] & E & H). apply filter_In in H. simpl in *.
      destruct H as [H Hi]. apply Nat.eqb_eq in Hi. subst. auto.
    + intros [_ H]. exists (j, l). split; [reflexivity|].
      apply filter_In. simpl. rewrite Nat.eqb_refl. auto.
  - rewrite nth_overflow
      by (rewrite v1_analyze_melody_functions_length; exact Hj).
    simpl. split; [tauto | lia].
Qed.

Lemma v1_tone_events_In gts cts m k (e : event) :
  In e (v1_tone_events gts cts m k) <->
  (e = (k, guide_tone) /\ int_mem (nth k m 0%Z) gts = true)
  \/ (e = (k, chord_tone) /\ int_mem (nth k m 0%Z) gts = false
      /\ int_mem (nth k m 0%Z) cts = true).
Proof.
  unfold v1_tone_events.
  destruct (int_mem (nth k m 0%Z) gts), (int_mem (nth k m 0%Z) cts);
    simpl; intuition (congruence || auto).
Qed.

Lemma v1_passing_events_In cts sc m k (e : event) :
  In e (v1_passing_events cts sc m k) ->
  (e = (k, passing_tone) /\ int_mem (nth k m 0%Z) sc = true)
  \/ (e = (k, chromatic_passing_tone) /\ int_mem (nth k m 0%Z) sc = false).
Proof.
  unfold v1_passing_events. cbv zeta.
  destruct (_ && _ && negb _)%bool;
    [destruct (is_step _ && is_step _)%bool;
     [destruct (int_mem (nth k m 0%Z) sc)|]|];
    simpl; intuition (congruence || auto).
Qed.

Lemma v1_all_events_In m sc root_pc j (l : FunctionLabel) :
  In (j, l) (v1_all_events m sc root_pc) ->
  (j < List.length m
   /\ In (j, l) (v1_tone_events (v1_guide_tones root_pc)
                   (v1_chord_tones root_pc) m j))
  \/ l = scale_line
  \/ l = upper_neighbor \/ l = lower_neighbor
  \/ In (j, l) (v1_passing_events (v1_chord_tones root_pc) sc m j).
Proof.
  unfold v1_all_events. cbv zeta. rewrite !in_app_iff, !in_flat_map.
  intros [(k & Hk & He) | [(k & Hk & He) | [(k & Hk & He) | (k & Hk & He)]]];
    apply in_seq in Hk.
  - left. pose proof He as He'. apply v1_tone_events_In in He'.
    assert (k = j) by (destruct He' as [[E _] | [E _]]; inversion E; auto).
    subst. split; [lia | exact He].
  - right. left. apply scale_line_events_label in He. exact He.
  - apply neighbor_events_label in He. simpl in He. tauto.
  - right. right. right. right. pose proof He as He'.
    apply v1_passing_events_In in He'.
    assert (k = j) by (destruct He' as [[E _] | [E _]]; inversion E; auto).
    subst. exact He.
Qed.

Lemma v1_tone_events_all m sc root_pc j (l : FunctionLabel) :
  j < List.length m ->
  In (j, l) (v1_tone_events (v1_guide_tones root_pc)
               (v1_chord_tones root_pc) m j) ->
  In (j, l) (v1_all_events m sc root_pc).
Proof.
  intros Hj H. unfold v1_all_events. cbv zeta. apply in_or_app. left.
  apply in_flat_map. exists j. split; [apply in_seq; lia | exact H].
Qed.

Lemma v1_guide_tones_In (root_pc pc : Z) :
  int_mem pc (v1_guide_tones root_pc) = true <->
  pc = ((root_pc + 4) mod 12)%Z \/ pc = ((root_pc + 11) mod 12)%Z.
Proof.
  rewrite int_mem_In. unfold v1_guide_tones. simpl.
  intuition congruence.
Qed.

Lemma v1_chord_tones_In (root_pc pc : Z) :
  int_mem pc (v1_guide_tones root_pc) = false
  /\ int_mem pc (v1_chord_tones root_pc) = true <->
  pc = (root_pc mod 12)%Z \/ pc = ((root_pc + 7) mod 12)%Z.
Proof.
  rewrite int_mem_In. unfold v1_chord_tones. cbn [map In].
  rewrite Z.add_0_r. split.
  - intros [G [<- | [<- | [<- | [<- | []]]]]]; auto;
      exfalso; apply (proj1 (int_mem_false _ _) G);
      unfold v1_guide_tones; simpl; auto.
  - intros H. split; [|destruct H as [-> | ->]; auto].
    apply int_mem_false. unfold v1_guide_tones. simpl.
    intros [E | [E | []]]; destruct H as [-> | ->];
      revert E; clear; intros E; Z.div_mod_to_equations; lia.
Qed.

End V1Classifier.

(** ** How often a label stands at an index *)

Section LabelCounts.
Local Open Scope nat_scope.

Lemma cnt_flat_map_filter (f : nat -> list event) (p : nat -> bool) xs j l :
  (forall i, In i xs -> cnt j l (f i) = if p i then 1 else 0) ->
  cnt j l (flat_map f xs) = List.length (filter p xs).
Proof.
  induction xs as [|x xs IH]; intros H; simpl.
  - reflexivity.
  - rewrite cnt_app. rewrite (H x (or_introl eq_refl)).
    rewrite IH by (intros i Hi; apply H; right; exact Hi).
    destruct (p x); simpl; lia.
Qed.

Lemma filter_andb {A : Type} (p q : A -> bool) (xs : list A) :
  filter (fun x => (p x && q x)%bool) xs = filter p (filter q xs).
Proof.
  induction xs as [|x xs IH]; simpl; [reflexivity|].
  destruct (q x); simpl; [|rewrite andb_false_r; exact IH].
  rewrite andb_true_r. destruct (p x); rewrite IH; reflexivity.
Qed.

(** One turn of the second loop leaves [scale_line] once at an index when
    its window is stepwise and holds the index, and not at all otherwise. *)
Lemma scale_line_events_count m k j :
  1 <= k ->
  cnt j scale_line (scale_line_events m k)
  = if (stepwise_window m k
        && ((k + 1 =? j) || (k =? j) || (k =? j + 1)))%bool
    then 1 else 0.
Proof.
  intros Hk.
  unfold scale_line_events, stepwise_window, is_step, int_mem, cnt. cbv zeta.
  destruct (existsb _ _ && Z.eqb _ _)%bool; [|reflexivity].
  cbn [filter fst snd andb].
  destruct (k - 1 =? j) eqn:E1; destruct (k =? j) eqn:E2;
    destruct (k + 1 =? j) eqn:E3; destruct (k =? j + 1) eqn:E4;
    rewrite ?Nat.eqb_eq, ?Nat.eqb_neq in *;
    first [reflexivity | exfalso; lia].
Qed.

Lemma scale_line_loop_count m j :
  cnt j scale_line (flat_map (scale_line_events m) (seq 1 (List.length m - 2)))
  = List.length (stepwise_windows_at m j).
Proof.
  unfold stepwise_windows_at, windows_at. rewrite <- filter_andb.
  apply cnt_flat_map_filter. intros i Hi. apply in_seq in Hi.
  apply scale_line_events_count. lia.
Qed.

Lemma stepwise_windows_at_In m j k :
  In k (stepwise_windows_at m j) <->
  1 <= k <= List.length m - 2
  /\ (k + 1 = j \/ k = j \/ k = j + 1)
  /\ stepwise_window m k = true.
Proof.
  unfold stepwise_windows_at, windows_at.
  rewrite !filter_In, in_seq, !orb_true_iff, !Nat.eqb_eq.
  intuition lia.
Qed.

Lemma stepwise_windows_at_NoDup m j : NoDup (stepwise_windows_at m j).
Proof.
  unfold stepwise_windows_at, windows_at.
  apply NoDup_filter, NoDup_filter, seq_NoDup.
Qed.

Lemma stepwise_windows_at_length m j :
  List.length (stepwise_windows_at m j) <= 3.
Proof.
  change 3 with (List.length [j - 1; j; j + 1]).
  apply NoDup_incl_length; [apply stepwise_windows_at_NoDup|].
  intros k Hk. apply stepwise_windows_at_In in Hk. simpl. lia.
Qed.

Lemma v1_tone_events_cnt gts cts m i j l :
  cnt j l (v1_tone_events gts cts m i) <= tone_cap l * at_index j i.
Proof.
  unfold v1_tone_events, cnt, at_index.
  destruct (i =? j) eqn:E; cbv iota; split_ifs;
    cbn [filter fst snd map app]; rewrite ?E; destruct l; simpl; lia.
Qed.

Lemma v1_passing_events_cnt cts sc m i j l :
  cnt j l (v1_passing_events cts sc m i) <= passing_cap l * at_index j i.
Proof.
  unfold v1_passing_events, cnt, at_index. cbv zeta.
  destruct (i =? j) eqn:E; cbv iota; split_ifs;
    cbn [filter fst snd map]; rewrite ?E; destruct l; simpl; lia.
Qed.

(** The labels at an index, counted: in both versions each loop but the
    second leaves a label at most once and never [scale_line]; the second
    leaves [scale_line] only, once for each stepwise window that holds the
    index. *)
Lemma labels_count m root_pc q j l :
  count_occ label_eq_dec (nth j (analyze_melody_functions m root_pc q) []) l
  = (if label_eq_dec l scale_line
     then List.length (stepwise_windows_at m j) else 0)
    + (if label_eq_dec l scale_line then 0
       else count_occ label_eq_dec
              (nth j (analyze_melody_functions m root_pc q) []) l)
  /\ (l <> scale_line ->
      count_occ label_eq_dec (nth j (analyze_melody_functions m root_pc q) []) l
      <= 1).
Proof.
  destruct (Nat.lt_ge_cases j (List.length m)) as [Hj | Hj].
  - rewrite analyze_melody_functions_nth by exact Hj.
    change (count_occ label_eq_dec
              (map snd (filter (fun e => fst e =? j) (all_events m root_pc q))) l)
      with (cnt j l (all_events m root_pc q)).
    unfold all_events. cbv zeta. rewrite !cnt_app.
    pose proof (loop_cnt (tone_events (guide_tones root_pc q)
                            (chord_tones root_pc q) m)
                  (tone_cap l) 0 (List.length m) j l
                  (fun k => tone_events_cnt _ _ _ k j l)) as T.
    pose proof (scale_line_loop_cnt m (List.length m - 2) j l) as S.
    pose proof (loop_cnt (neighbor_events (chord_tones root_pc q) m)
                  (neighbor_cap l) 1 (List.length m - 2) j l
                  (fun k => neighbor_events_cnt _ _ k j l)) as N.
    pose proof (loop_cnt (passing_events (chord_tones root_pc q) m)
                  (passing_cap l) 1 (List.length m - 2) j l
                  (fun k => passing_events_cnt _ _ k j l)) as P.
    pose proof (scale_line_loop_count m j) as C.
    destruct (label_eq_dec l scale_line) as [-> | Hl].
    + simpl in T, N, P. split; [lia | congruence].
    + split; [lia|]. intros _. destruct l; simpl in *; congruence || lia.
  - rewrite nth_overflow
      by (rewrite analyze_melody_functions_length; exact Hj).
    assert (E : stepwise_windows_at m j = []).
    { destruct (stepwise_windows_at m j) as [|k ks] eqn:E; [reflexivity|].
      assert (I : In k (stepwise_windows_at m j)) by (rewrite E; left; reflexivity).
      apply stepwise_windows_at_In in I. lia. }
    rewrite E. simpl. destruct (label_eq_dec l scale_line); simpl; split; lia.
Qed.

Lemma v1_labels_count m sc root_pc j l :
  count_occ label_eq_dec (nth j (V1.analyze_melody_functions m sc root_pc) []) l
  = (if label_eq_dec l scale_line
     then List.length (stepwise_windows_at m j) else 0)
    + (if label_eq_dec l scale_line then 0
       else count_occ label_eq_dec
              (nth j (V1.analyze_melody_functions m sc root_pc) []) l)
  /\ (l <> scale_line ->
      count_occ label_eq_dec
        (nth j (V1.analyze_melody_functions m sc root_pc) []) l <= 1).
Proof.
  destruct (Nat.lt_ge_cases j (List.length m)) as [Hj | Hj].
  - rewrite v1_analyze_melody_functions_events.
    rewrite apply_events_nth by (rewrite repeat_length; exact Hj).
    rewrite nth_repeat. cbn [app].
    change (count_occ label_eq_dec
              (map snd (filter (fun e => fst e =? j) (v1_all_events m sc root_pc)))
              l)
      with (cnt j l (v1_all_events m sc root_pc)).
    unfold v1_all_events. cbv zeta. rewrite !cnt_app.
    pose proof (loop_cnt (v1_tone_events (v1_guide_tones root_pc)
                            (v1_chord_tones root_pc) m)
                  (tone_cap l) 0 (List.length m) j l
                  (fun k => v1_tone_events_cnt _ _ _ k j l)) as T.
    pose proof (scale_line_loop_cnt m (List.length m - 2) j l) as S.
    pose proof (loop_cnt (neighbor_events (v1_chord_tones root_pc) m)
                  (neighbor_cap l) 1 (List.length m - 2) j l
                  (fun k => neighbor_events_cnt _ _ k j l)) as N.
    pose proof (loop_cnt (v1_passing_events (v1_chord_tones root_pc) sc m)
                  (passing_cap l) 1 (List.length m - 2) j l
                  (fun k => v1_passing_events_cnt _ _ _ k j l)) as P.
    pose proof (scale_line_loop_count m j) as C.
    destruct (label_eq_dec l scale_line) as [-> | Hl].
    + simpl in T, N, P. split; [lia | congruence].
    + split; [lia|]. intros _. destruct l; simpl in *; congruence || lia.
  - rewrite nth_overflow
      by (rewrite v1_analyze_melody_functions_length; exact Hj).
    assert (E : stepwise_windows_at m j = []).
    { destruct (stepwise_windows_at m j) as [|k ks] eqn:E; [reflexivity|].
      assert (I : In k (stepwise_windows_at m j)) by (rewrite E; left; reflexivity).
      apply stepwise_windows_at_In in I. lia. }
    rewrite E. simpl. destruct (label_eq_dec l scale_line); simpl; split; lia.
Qed.

End LabelCounts.

(** C8, as the scripts have it.  The labels of an index are a list, in the
    second version and in the first.  Every label but [scale_line] stands
    there at most once.  [scale_line] stands there once for each stepwise
    window of three notes in a row that the index lies in: the windows are
    named by their middle positions [k], from 1 to n - 2, the index is
    [k - 1], [k] or [k + 1], and the window is stepwise when both its moves
    are the same step of one or two semitones up or down.  There are at most
    three such windows. *)
Theorem label_repeats_bounded (melody_pcs chord_scale_pcs : list Z)
  (root_pc : Z) (q : Quality) (i : nat) (l : FunctionLabel) :
  let labels := nth i (analyze_melody_functions melody_pcs root_pc q) [] in
  let labels_v1 :=
    nth i (V1.analyze_melody_functions melody_pcs chord_scale_pcs root_pc) [] in
  let windows := stepwise_windows_at melody_pcs i in
  (l <> scale_line ->
   (count_occ label_eq_dec labels l <= 1)%nat
   /\ (count_occ label_eq_dec labels_v1 l <= 1)%nat)
  /\ count_occ label_eq_dec labels scale_line = List.length windows
  /\ count_occ label_eq_dec labels_v1 scale_line = List.length windows
  /\ (List.length windows <= 3)%nat
  /\ NoDup windows
  /\ (forall k, In k windows <->
        (1 <= k <= List.length melody_pcs - 2)%nat
        /\ (k + 1 = i \/ k = i \/ k = i + 1)%nat
        /\ (let d1 := (nth k melody_pcs 0 - nth (k - 1) melody_pcs 0) mod 12 in
            let d2 := (nth (k + 1) melody_pcs 0 - nth k melody_pcs 0) mod 12 in
            In d1 [1; 2; 10; 11] /\ d2 = d1))
  /\ (count_occ label_eq_dec labels l <= max_repeats l)%nat
  /\ (count_occ label_eq_dec labels_v1 l <= max_repeats l)%nat.
Proof.
  cbv zeta.
  destruct (labels_count melody_pcs root_pc q i l) as [A1 A2].
  destruct (v1_labels_count melody_pcs chord_scale_pcs root_pc i l) as [B1 B2].
  destruct (labels_count melody_pcs root_pc q i scale_line) as [C1 _].
  destruct (v1_labels_count melody_pcs chord_scale_pcs root_pc i scale_line)
    as [D1 _].
  pose proof (stepwise_windows_at_length melody_pcs i) as L.
  destruct (label_eq_dec scale_line scale_line) as [_ | N]; [|congruence].
  split; [intros H; split; [apply A2, H | apply B2, H]|].
  split; [lia|]. split; [lia|]. split; [exact L|].
  split; [apply stepwise_windows_at_NoDup|].
  split.
  - intros k. rewrite stepwise_windows_at_In. unfold stepwise_window. cbv zeta.
    rewrite andb_true_iff, Z.eqb_eq.
    fold (int_mem ((nth k melody_pcs 0 - nth (k - 1) melody_pcs 0) mod 12)
            [1; 2; 10; 11]).
    rewrite int_mem_In. tauto.
  - destruct (label_eq_dec l scale_line) as [-> | Hl].
    + simpl. split; lia.
    + specialize (A2 Hl). specialize (B2 Hl).
      split; destruct l; simpl; congruence || lia.
Qed.

(** C8 as stated fails: over C, D, E, F# the index 1 lies in two stepwise
    windows and gets [scale_line] twice. *)
Lemma scale_line_attached_twice :
  nth 1 (analyze_melody_functions [0; 2; 4; 6] 0 Qmaj) []
  = [scale_line; scale_line; passing_tone]
  /\ ~ NoDup (nth 1 (analyze_melody_functions [0; 2; 4; 6] 0 Qmaj) []).
Proof.
  split; [reflexivity|].
  intros H. vm_compute in H. inversion H as [|x xs Hx _]; subst.
  apply Hx. left. reflexivity.
Qed.

(** The bound three is met: the index 2 of C, D, E, F#, G#. *)
Example scale_line_attached_thrice :
  count_occ label_eq_dec
    (nth 2 (analyze_melody_functions [0; 2; 4; 6; 8] 0 Qmaj) []) scale_line
  = 3%nat
  /\ stepwise_windows_at [0; 2; 4; 6; 8] 2 = [1; 2; 3]%nat.
Proof. split; reflexivity. Qed.

(** The first version does the same: the index 1 of C, D, E, F#. *)
Example v1_scale_line_attached_twice :
  nth 1 (V1.analyze_melody_functions [0; 2; 4; 6] [0; 2; 4; 5; 7; 9; 11] 0) []
  = [scale_line; scale_line; passing_tone].
Proof. reflexivity. Qed.

(** The chord labels of the first version.  It takes the chord for a major
    seventh chord whatever its quality: a note is a guide tone exactly when
    it is the major third or the major seventh above the root, and a chord
    tone exactly when it is the root or the fifth.  So no note is both, while
    in the second version every guide tone is a chord tone as well.  A
    passing note is labelled diatonic when it belongs to the chord scale the
    function is given and chromatic when it does not. *)
Theorem v1_tone_labels (melody_pcs chord_scale_pcs : list Z) (root_pc : Z)
  (i : nat) :
  let here :=
    nth i (V1.analyze_melody_functions melody_pcs chord_scale_pcs root_pc) [] in
  let pc := nth i melody_pcs 0 in
  (In guide_tone here <->
   (i < List.length melody_pcs)%nat
   /\ (pc = (root_pc + 4) mod 12 \/ pc = (root_pc + 11) mod 12))
  /\ (In chord_tone here <->
      (i < List.length melody_pcs)%nat
      /\ (pc = root_pc mod 12 \/ pc = (root_pc + 7) mod 12))
  /\ ~ (In guide_tone here /\ In chord_tone here)
  /\ (In passing_tone here -> In pc chord_scale_pcs)
  /\ (In chromatic_passing_tone here -> ~ In pc chord_scale_pcs).
Proof.
  cbv zeta.
  assert (G : In guide_tone
                (nth i (V1.analyze_melody_functions melody_pcs chord_scale_pcs
                          root_pc) []) <->
              (i < List.length melody_pcs)%nat
              /\ int_mem (nth i melody_pcs 0) (v1_guide_tones root_pc) = true).
  { rewrite v1_label_at_index. split.
    - intros [Hi H]. split; [exact Hi|].
      apply v1_all_events_In in H.
      destruct H as [[_ H] | [H | [H | [H | H]]]]; try discriminate H.
      + apply v1_tone_events_In in H.
        destruct H as [[_ H] | [E _]]; [exact H | discriminate E].
      + apply v1_passing_events_In in H.
        destruct H as [[E _] | [E _]]; discriminate E.
    - intros [Hi H]. split; [exact Hi|].
      apply v1_tone_events_all; [exact Hi|].
      apply v1_tone_events_In. left. auto. }
  assert (C : In chord_tone
                (nth i (V1.analyze_melody_functions melody_pcs chord_scale_pcs
                          root_pc) []) <->
              (i < List.length melody_pcs)%nat
              /\ int_mem (nth i melody_pcs 0) (v1_guide_tones root_pc) = false
              /\ int_mem (nth i melody_pcs 0) (v1_chord_tones root_pc) = true).
  { rewrite v1_label_at_index. split.
    - intros [Hi H]. split; [exact Hi|].
      apply v1_all_events_In in H.
      destruct H as [[_ H] | [H | [H | [H | H]]]]; try discriminate H.
      + apply v1_tone_events_In in H.
        destruct H as [[E _] | [_ H]]; [discriminate E | exact H].
      + apply v1_passing_events_In in H.
        destruct H as [[E _] | [E _]]; discriminate E.
    - intros [Hi H]. split; [exact Hi|].
      apply v1_tone_events_all; [exact Hi|].
      apply v1_tone_events_In. right. auto. }
  split; [rewrite G, v1_guide_tones_In; reflexivity|].
  split; [rewrite C, v1_chord_tones_In; reflexivity|].
  split.
  { rewrite G, C. intros [[_ A] [_ [B _]]]. congruence. }
  split.
  - rewrite v1_label_at_index. intros [_ H].
    apply v1_all_events_In in H.
    destruct H as [[_ H] | [H | [H | [H | H]]]]; try discriminate H.
    + apply v1_tone_events_In in H.
      destruct H as [[E _] | [E _]]; discriminate E.
    + apply v1_passing_events_In in H.
      destruct H as [[_ H] | [E _]]; [|discriminate E].
      apply int_mem_In, H.
  - rewrite v1_label_at_index. intros [_ H].
    apply v1_all_events_In in H.
    destruct H as [[_ H] | [H | [H | [H | H]]]]; try discriminate H.
    + apply v1_tone_events_In in H.
      destruct H as [[E _] | [E _]]; discriminate E.
    + apply v1_passing_events_In in H.
      destruct H as [[E _] | [_ H]]; [discriminate E|].
      apply int_mem_false, H.
Qed.

(** ** The main function of the first version *)

Section V1Outcome.
Context {U : UnicodeCase}.

Lemma v1_known_note_true (nm : pystr) :
  v1_known_note nm = true <-> exists pc, V1.note_to_pc nm = Ok pc.
Proof.
  unfold v1_known_note. destruct (V1.note_to_pc nm) as [pc|e]; split.
  - intros _. exists pc. reflexivity.
  - reflexivity.
  - discriminate.
  - intros [pc H]. discriminate.
Qed.

Lemma v1_known_note_false (nm : pystr) :
  v1_known_note nm = false <->
  V1.note_to_pc nm = Raise (UnknownNoteError (V1.normalize_note nm)).
Proof.
  unfold v1_known_note. destruct (V1.note_to_pc nm) as [pc|e] eqn:E; split;
    try discriminate; try reflexivity.
  intros _. rewrite (v1_note_to_pc_Raise nm e E). reflexivity.
Qed.

Lemma v1_comprehension_note_to_pc (melody : list pystr) :
  match find (fun n => negb (v1_known_note n)) melody with
  | Some bad =>
      comprehension V1.note_to_pc melody
      = Raise (UnknownNoteError (V1.normalize_note bad))
  | None =>
      exists pcs, comprehension V1.note_to_pc melody = Ok pcs
                  /\ List.length pcs = List.length melody
  end.
Proof.
  induction melody as [|n melody IH]; cbn [find comprehension].
  - exists []. auto.
  - destruct (v1_known_note n) eqn:K; cbn [negb].
    + apply v1_known_note_true in K. destruct K as [pc K]. rewrite K.
      cbn [bind].
      destruct (find _ melody) as [bad|].
      * rewrite IH. reflexivity.
      * destruct IH as (pcs & E & L). rewrite E. cbn [bind].
        exists (pc :: pcs). split; [reflexivity | simpl; lia].
    + apply v1_known_note_false in K. rewrite K. reflexivity.
Qed.

Lemma v1_roman_for_degree_Ok (d : Z) (q : Quality) :
  0 <= d <= 7 -> exists numeral, V1.roman_for_degree d q = Ok numeral.
Proof.
  intros H.
  assert (C : d = 0 \/ d = 1 \/ d = 2 \/ d = 3 \/ d = 4 \/ d = 5 \/ d = 6 \/ d = 7)
    by lia.
  destruct C as [-> | [-> | [-> | [-> | [-> | [-> | [-> | ->]]]]]]];
    destruct q; eexists; reflexivity.
Qed.

Lemma v1_chord_scale_Ok (root : pystr) (d r : Z) :
  V1.note_to_pc root = Ok r ->
  exists sc,
    (if Z.eqb d 0 then V1.build_major_scale_pcs root
     else V1.build_mode_scale root d) = Ok sc.
Proof.
  intros H. destruct (Z.eqb d 0).
  - unfold V1.build_major_scale_pcs. rewrite H. eexists. reflexivity.
  - unfold V1.build_mode_scale. rewrite H. cbn [bind].
    rewrite v1_rotate_intervals_cases. eexists. reflexivity.
Qed.

Lemma v1_detect_tritone_sub_Ok (ch : V1.Chord) (key : pystr) (t r : Z) :
  V1.note_to_pc key = Ok t -> V1.note_to_pc (V1.root ch) = Ok r ->
  exists s, V1.detect_tritone_sub ch key = Ok s.
Proof.
  intros Ht Hr. unfold V1.detect_tritone_sub.
  destruct (negb (V1.dominant ch)); [eexists; reflexivity|].
  rewrite Ht. cbn [bind]. rewrite Hr. cbn [bind].
  destruct (Z.eqb r _); eexists; reflexivity.
Qed.

(** The ways the analysis of the first version can end. *)
Lemma v1_analyze_chord_and_melody_cases (sym key : pystr)
  (melody : list pystr) :
  let unknown := find (fun n => negb (v1_known_note n)) melody in
  match V1.analyze_chord_and_melody sym key melody with
  | Raise e =>
      (forallb isspace sym = true /\ e = IndexError)
      \/ (forallb isspace sym = false
          /\ v1_known_note key = false
          /\ e = UnknownNoteError (V1.normalize_note key))
      \/ (forallb isspace sym = false
          /\ v1_known_note key = true
          /\ exists ch, V1.parse_chord_symbol sym = Ok ch
                        /\ v1_known_note (V1.root ch) = false
                        /\ e = UnknownNoteError (V1.normalize_note (V1.root ch)))
      \/ (forallb isspace sym = false
          /\ v1_known_note key = true
          /\ (exists ch, V1.parse_chord_symbol sym = Ok ch
                         /\ v1_known_note (V1.root ch) = true)
          /\ exists bad, unknown = Some bad
                         /\ e = UnknownNoteError (V1.normalize_note bad))
  | Ok a =>
      forallb isspace sym = false
      /\ v1_known_note key = true
      /\ V1.parse_chord_symbol sym = Ok (V1.chord_info a)
      /\ v1_known_note (V1.root (V1.chord_info a)) = true
      /\ unknown = None
      /\ V1.get_degree_in_key (V1.root (V1.chord_info a)) key
         = Ok (V1.degree_in_key a)
      /\ List.length (V1.note_degrees a) = List.length melody
      /\ List.length (V1.functions a) = List.length melody
  end.
Proof.
  cbv zeta.
  destruct (accidentals_to_ascii (strip sym)) as [|c0 s'] eqn:E.
  - assert (B : forallb isspace sym = true) by (apply blank_iff_whitespace, E).
    unfold V1.analyze_chord_and_melody.
    rewrite (v1_parse_chord_symbol_blank sym E). cbn [bind]. auto.
  - assert (B : forallb isspace sym = false).
    { destruct (forallb isspace sym) eqn:B; [|reflexivity].
      apply blank_iff_whitespace in B. congruence. }
    destruct (v1_parse_chord_symbol_fields sym c0 s' E) as (ch & k & Hp & _).
    unfold V1.analyze_chord_and_melody. rewrite Hp, B. cbn [bind].
    destruct (v1_known_note key) eqn:K.
    + pose proof K as K'. apply v1_known_note_true in K'. destruct K' as [t Ht].
      destruct (v1_known_note (V1.root ch)) eqn:R.
      * pose proof R as R'. apply v1_known_note_true in R'.
        destruct R' as [r Hr].
        destruct (V1.get_degree_in_key (V1.root ch) key) as [d|e] eqn:D.
        2:{ unfold V1.get_degree_in_key, V1.build_major_scale_pcs in D.
            rewrite Ht in D. cbn [bind] in D. rewrite Hr in D. cbn [bind] in D.
            destruct (int_mem r _); discriminate D. }
        cbn [bind].
        destruct (v1_roman_for_degree_Ok d (V1.quality ch)
                    (v1_get_degree_in_key_range _ _ _ D)) as [nu ->].
        cbn [bind].
        destruct (v1_detect_tritone_sub_Ok ch key t r Ht Hr) as [ts ->].
        cbn [bind].
        destruct (v1_chord_scale_Ok (V1.root ch) d r Hr) as [sc ->].
        cbn [bind]. rewrite Hr. cbn [bind].
        pose proof (v1_comprehension_note_to_pc melody) as Hm.
        destruct (find _ melody) as [bad|] eqn:F.
        -- rewrite Hm. cbn [bind]. right. right. right.
           split; [reflexivity|]. split; [reflexivity|].
           split; [exists ch; auto|]. exists bad. auto.
        -- destruct Hm as (pcs & -> & L). cbn [bind].
           cbn [V1.chord_info V1.degree_in_key V1.note_degrees V1.functions].
           split; [reflexivity|]. split; [reflexivity|].
           split; [reflexivity|]. split; [exact R|].
           split; [reflexivity|]. split; [exact D|].
           split; [rewrite length_map; exact L|].
           rewrite v1_analyze_melody_functions_length. exact L.
      * pose proof R as R'. apply v1_known_note_false in R'.
        unfold V1.get_degree_in_key, V1.build_major_scale_pcs.
        rewrite Ht. cbn [bind]. rewrite R'. cbn [bind].
        right. right. left.
        split; [reflexivity|]. split; [reflexivity|]. exists ch. auto.
    + pose proof K as K'. apply v1_known_note_false in K'.
      unfold V1.get_degree_in_key, V1.build_major_scale_pcs.
      rewrite K'. cbn [bind]. right. left. auto.
Qed.

Lemma accidentals_to_ascii_head (sym : pystr) (c0 : codepoint) (s' : pystr) :
  accidentals_to_ascii (strip sym) = c0 :: s' -> isspace c0 = false.
Proof.
  intros E. unfold accidentals_to_ascii, replace1 in E. rewrite map_map in E.
  destruct (strip sym) as [|x xs] eqn:Sx; [discriminate|].
  destruct (strip_stripped sym) as [L _]. rewrite Sx in L.
  apply lstrip_head in L.
  cbn [map] in E. injection E as H1 _.
  destruct (N.eqb x FLAT) eqn:E1.
  - vm_compute in H1. subst c0. reflexivity.
  - destruct (N.eqb x SHARP) eqn:E2; subst c0; [reflexivity | exact L].
Qed.

Lemma v1_normalize_note_pair (c d : codepoint) :
  (c < 128)%N -> (d < 128)%N -> isspace c = false -> isspace d = false ->
  V1.normalize_note [c; d] = [ascii_upper c; ascii_upper d].
Proof.
  intros Hc Hd Sc Sd. unfold V1.normalize_note.
  rewrite (strip_no_space [c; d]) by (repeat constructor; assumption).
  assert (N : forall x, (x < 128)%N ->
                (if N.eqb (if N.eqb x FLAT then 98%N else x) SHARP then 35%N
                 else if N.eqb x FLAT then 98%N else x) = x).
  { intros x Hx.
    destruct (N.eqb_spec x FLAT) as [-> | _]; [vm_compute in Hx; discriminate|].
    destruct (N.eqb_spec x SHARP) as [-> | _]; [vm_compute in Hx; discriminate|].
    reflexivity. }
  assert (A : accidentals_to_ascii [c; d] = [c; d]).
  { unfold accidentals_to_ascii, replace1. rewrite map_map. cbn [map].
    rewrite !N by assumption. reflexivity. }
  rewrite A, v1_upper_ascii by (repeat constructor; assumption).
  reflexivity.
Qed.

(** A chord symbol whose root is spelled with a flat has an unknown root. *)
Lemma v1_flat_root_unknown (sym : pystr) (c0 : codepoint) (rest : pystr)
  (ch : V1.Chord) :
  accidentals_to_ascii (strip sym) = c0 :: 98%N :: rest ->
  (c0 < 128)%N ->
  V1.parse_chord_symbol sym = Ok ch ->
  v1_known_note (V1.root ch) = false.
Proof.
  intros E A P.
  pose proof (accidentals_to_ascii_head sym c0 _ E) as C0.
  unfold V1.parse_chord_symbol in P. rewrite E in P. cbv zeta in P.
  change (N.eqb 98 35 || N.eqb 98 98)%bool with true in P.
  cbn [bind] in P.
  assert (R : V1.root ch = [ascii_upper c0; 66%N]).
  { transitivity (V1.normalize_note [c0; 98%N]);
      [|exact (v1_normalize_note_pair c0 98%N A eq_refl C0 eq_refl)].
    revert P.
    repeat match goal with
           | |- context [if ?b then (_, _, _, _) else _] => destruct b
           end; intros P; inversion P; reflexivity. }
  rewrite R.
  destruct (v1_known_note [ascii_upper c0; 66%N]) eqn:K; [|reflexivity].
  exfalso. apply v1_known_note_true in K. destruct K as [pc K].
  apply v1_note_to_pc_Ok in K.
  assert (S : forall n, In n note_names -> nth_error n 1 <> Some 66%N).
  { intros n I. vm_compute in I.
    repeat (destruct I as [<- | I]; [discriminate|]). contradiction. }
  apply (S _ K).
  exact (f_equal (fun n => nth_error n 1)
           (v1_normalize_note_pair (ascii_upper c0) 66%N
              (ascii_upper_ascii _ A) eq_refl
              (eq_trans (ascii_upper_isspace c0) C0) eq_refl)).
Qed.

End V1Outcome.

(** How the analysis of the first version ends.  It fails in four ways
    only, tried in this order: [IndexError] for a blank chord symbol; the
    key is unknown; the chord root is unknown; a melody note is unknown, and
    then the first such note is reported.  So a bad melody note is reported
    last here, while the second version reports it before the key.  No
    [KeyError] and no other [IndexError] can happen.  When none of the four
    applies the analysis succeeds, with one degree label and one list of
    function labels for every melody note.  A chord whose root is spelled
    with a flat, like Eb7, is never analyzed: its root is put in upper case
    and is then unknown. *)
Theorem v1_analyze_outcome (U : UnicodeCase) (sym key : pystr)
  (melody : list pystr) :
  let unknown := find (fun n => negb (v1_known_note n)) melody in
  match V1.analyze_chord_and_melody sym key melody with
  | Raise e =>
      (forallb isspace sym = true /\ e = IndexError)
      \/ (forallb isspace sym = false
          /\ v1_known_note key = false
          /\ e = UnknownNoteError (V1.normalize_note key))
      \/ (forallb isspace sym = false
          /\ v1_known_note key = true
          /\ exists ch, V1.parse_chord_symbol sym = Ok ch
                        /\ v1_known_note (V1.root ch) = false
                        /\ e = UnknownNoteError (V1.normalize_note (V1.root ch)))
      \/ (forallb isspace sym = false
          /\ v1_known_note key = true
          /\ (exists ch, V1.parse_chord_symbol sym = Ok ch
                         /\ v1_known_note (V1.root ch) = true)
          /\ exists bad, unknown = Some bad
                         /\ e = UnknownNoteError (V1.normalize_note bad))
  | Ok a =>
      forallb isspace sym = false
      /\ v1_known_note key = true
      /\ V1.parse_chord_symbol sym = Ok (V1.chord_info a)
      /\ v1_known_note (V1.root (V1.chord_info a)) = true
      /\ unknown = None
      /\ V1.get_degree_in_key (V1.root (V1.chord_info a)) key
         = Ok (V1.degree_in_key a)
      /\ List.length (V1.note_degrees a) = List.length melody
      /\ List.length (V1.functions a) = List.length melody
  end
  /\ (forall c0 rest,
        accidentals_to_ascii (strip sym) = c0 :: 98%N :: rest ->
        (c0 < 128)%N ->
        exists n,
          V1.analyze_chord_and_melody sym key melody
          = Raise (UnknownNoteError n)).
Proof.
  cbv zeta.
  pose proof (v1_analyze_chord_and_melody_cases sym key melody) as C.
  cbv zeta in C. split; [exact C|].
  intros c0 rest E A.
  assert (B : forallb isspace sym = false).
  { destruct (forallb isspace sym) eqn:B; [|reflexivity].
    apply blank_iff_whitespace in B. congruence. }
  destruct (V1.analyze_chord_and_melody sym key melody) as [a|e].
  - destruct C as (_ & _ & P & R & _).
    rewrite (v1_flat_root_unknown sym c0 rest _ E A P) in R. discriminate.
  - destruct C as [[B' _] | [(_ & _ & ->) | [(_ & _ & ch & _ & _ & ->)
                   | (_ & _ & _ & bad & _ & ->)]]];
      [congruence | eexists; reflexivity ..].
Qed.

Lemma v1_analyze_outcome_witness :
  exists n,
    V1.analyze_chord_and_melody (py "Eb7") (py "G")
      [py "D"; py "E"; py "G"; py "B"]
    = Raise (UnknownNoteError n).
Proof.
  apply (proj2 (v1_analyze_outcome ascii_only (py "Eb7") (py "G")
                  [py "D"; py "E"; py "G"; py "B"])
           69%N [55%N]); reflexivity.
Defined.
